(** * vanity-worker: the secret sealer (src/crypto.ts) and the replenishment
      worker (src/worker.ts), embedded and checked against their specification.

    Layout of the development:
    - [Bytes], [Hex], [Base64]: Node [Buffer] slicing and decoding as
      crypto.ts uses them;
    - [Sha256], [Aes], [Gcm]: the node:crypto primitives that crypto.ts calls
      ([createHash('sha256')], [createCipheriv('aes-256-gcm')]), after
      FIPS 180-4, FIPS 197 and NIST SP 800-38D;
    - [getKey], [encryptSecret], [decryptSecret]: crypto.ts;
    - [matches], [ensureBuffer], [main]: worker.ts, over an explicit world
      (the pool table, and what the key generator, the random source,
      randomUUID and the store will answer);
    - the notions and the concrete inputs the statements use;
    - facts about the primitives, then the properties of crypto.ts and of
      worker.ts, each named after the claim it settles. *)

From Stdlib Require Import NArith ZArith QArith Qround Lqa List Bool Lia Arith Permutation.
From Stdlib Require Import Strings.String Strings.Ascii Strings.Byte.
Import ListNotations.

Local Open Scope N_scope.

(* ===================================================================== *)
(** * Bytes *)
(* ===================================================================== *)

Module Bytes.

Definition b2n (b : byte) : N := Byte.to_N b.

Definition n2b (n : N) : byte :=
  match Byte.of_N (n mod 256) with
  | Some b => b
  | None => x00
  end.

Definition bxor (a b : byte) : byte := n2b (N.lxor (b2n a) (b2n b)).

(** Bytewise xor, as long as the shorter operand. *)
Fixpoint xor_bytes (l k : list byte) : list byte :=
  match l, k with
  | a :: l', b :: k' => bxor a b :: xor_bytes l' k'
  | _, _ => []
  end.

(** Big-endian number of a byte string, and back on a fixed width. *)
Definition be2n (l : list byte) : N :=
  fold_left (fun acc b => acc * 256 + b2n b) l 0.

Fixpoint n2be (width : nat) (n : N) : list byte :=
  match width with
  | O => []
  | S w => n2be w (n / 256) ++ [n2b n]
  end.

Definition zeros (n : nat) : list byte := repeat x00 n.

(** [buf.subarray(start, end)] for [0 <= start <= end]: clamped to the buffer. *)
Definition subarray (start stop : nat) (buf : list byte) : list byte :=
  firstn (stop - start) (skipn start buf).

(** [buf.subarray(start)]. *)
Definition subarray_from (start : nat) (buf : list byte) : list byte :=
  skipn start buf.

Fixpoint chunks (fuel : nat) (size : nat) (l : list byte) : list (list byte) :=
  match fuel with
  | O => []
  | S f =>
      match l with
      | [] => []
      | _ => firstn size l :: chunks f size (skipn size l)
      end
  end.

(** Split into blocks of [size] bytes, the last one possibly shorter. *)
Definition blocks (size : nat) (l : list byte) : list (list byte) :=
  chunks (List.length l) size l.

Definition bytes_eqb (a b : list byte) : bool :=
  if list_eq_dec Byte.byte_eq_dec a b then true else false.

End Bytes.
Import Bytes.

(* ===================================================================== *)
(** * Buffer.from(s, 'hex') and Buffer.from(s, 'base64') *)
(* ===================================================================== *)

Module Hex.

Definition digit (c : N) : option N :=
  if (48 <=? c) && (c <=? 57) then Some (c - 48)
  else if (65 <=? c) && (c <=? 70) then Some (c - 55)
  else if (97 <=? c) && (c <=? 102) then Some (c - 87)
  else None.

(** Node decodes pairs of hex digits and stops at the first pair that is
    not two hex digits; an odd trailing character is dropped. *)
Fixpoint decode (l : list byte) : list byte :=
  match l with
  | h :: l0 :: rest =>
      match digit (b2n h), digit (b2n l0) with
      | Some a, Some b => n2b (a * 16 + b) :: decode rest
      | _, _ => []
      end
  | _ => []
  end.

End Hex.

Module Base64.

(** Node's [unbase64] table: the standard alphabet and the URL-safe
    variants of its last two characters. *)
Definition unbase64 (c : N) : option N :=
  if (65 <=? c) && (c <=? 90) then Some (c - 65)
  else if (97 <=? c) && (c <=? 122) then Some (c - 71)
  else if (48 <=? c) && (c <=? 57) then Some (c + 4)
  else if (c =? 43) || (c =? 45) then Some 62
  else if (c =? 47) || (c =? 95) then Some 63
  else None.

(** Characters that are not in the table are skipped; decoding stops at
    the first padding character. *)
Fixpoint sextets (l : list byte) : list N :=
  match l with
  | [] => []
  | c :: rest =>
      if b2n c =? 61 then []
      else match unbase64 (b2n c) with
           | Some v => v :: sextets rest
           | None => sextets rest
           end
  end.

Fixpoint groups (fuel : nat) (l : list N) : list byte :=
  match fuel with
  | O => []
  | S f =>
      match l with
      | a :: b :: c :: d :: rest =>
          n2b (a * 4 + b / 16) :: n2b ((b mod 16) * 16 + c / 4)
            :: n2b ((c mod 4) * 64 + d) :: groups f rest
      | [a; b; c] => [n2b (a * 4 + b / 16); n2b ((b mod 16) * 16 + c / 4)]
      | [a; b] => [n2b (a * 4 + b / 16)]
      | _ => []
      end
  end.

Definition decode (l : list byte) : list byte :=
  let s := sextets l in groups (List.length s) s.

End Base64.

(* ===================================================================== *)
(** * SHA-256 (FIPS 180-4): crypto.createHash('sha256') *)
(* ===================================================================== *)

Module Sha256.

Definition w32 : N := 4294967296.
Definition add32 (a b : N) : N := (a + b) mod w32.
Definition not32 (a : N) : N := N.lxor a 0xffffffff.
Definition rotr (n x : N) : N :=
  N.lor (N.shiftr x n) (N.shiftl x (32 - n) mod w32).

Definition Ch (x y z : N) := N.lxor (N.land x y) (N.land (not32 x) z).
Definition Maj (x y z : N) :=
  N.lxor (N.lxor (N.land x y) (N.land x z)) (N.land y z).
Definition Sigma0 x := N.lxor (N.lxor (rotr 2 x) (rotr 13 x)) (rotr 22 x).
Definition Sigma1 x := N.lxor (N.lxor (rotr 6 x) (rotr 11 x)) (rotr 25 x).
Definition sigma0 x := N.lxor (N.lxor (rotr 7 x) (rotr 18 x)) (N.shiftr x 3).
Definition sigma1 x := N.lxor (N.lxor (rotr 17 x) (rotr 19 x)) (N.shiftr x 10).

(** The first [n] primes, by trial division. *)
Definition is_prime (p : N) : bool :=
  (2 <=? p) && forallb (fun d => negb (p mod N.of_nat d =? 0))
                       (seq 2 (N.to_nat p - 2)).

Definition primes (n : nat) : list N :=
  firstn n (filter is_prime (map N.of_nat (seq 0 320))).

(** The integer cube root below 2^[n], one bit at a time. *)
Fixpoint cube_root (n : nat) (x r : N) : N :=
  match n with
  | O => r
  | S n' =>
      let r' := r + 2 ^ N.of_nat n' in
      if r' * r' * r' <=? x then cube_root n' x r' else cube_root n' x r
  end.

(** The round constants: the first 32 bits of the fractional parts of the
    cube roots of the first 64 primes. *)
Definition K : list N :=
  Eval vm_compute in
    map (fun p => cube_root 40 (p * 2 ^ 96) 0 mod w32) (primes 64).

Record state := mk
  { ha : N; hb : N; hc : N; hd : N; he : N; hf : N; hg : N; hh : N }.

(** The initial hash value: the first 32 bits of the fractional parts of
    the square roots of the first 8 primes. *)
Definition H0 : state :=
  Eval vm_compute in
    let h i := N.sqrt (nth i (primes 8) 0 * 2 ^ 64) mod w32 in
    mk (h 0%nat) (h 1%nat) (h 2%nat) (h 3%nat)
       (h 4%nat) (h 5%nat) (h 6%nat) (h 7%nat).

(** Message padding: a 1 bit, zeros, and the bit length on 64 bits. *)
Definition pad (msg : list byte) : list byte :=
  let len := List.length msg in
  let k := ((119 - len mod 64) mod 64)%nat in
  msg ++ [x80] ++ zeros k ++ n2be 8 (N.of_nat len * 8).

(** The message schedule, most recent word first. *)
Fixpoint extend (n : nat) (rev_w : list N) : list N :=
  match n with
  | O => rev_w
  | S n' =>
      let w2 := nth 1 rev_w 0 in
      let w7 := nth 6 rev_w 0 in
      let w15 := nth 14 rev_w 0 in
      let w16 := nth 15 rev_w 0 in
      extend n'
        (add32 (add32 (sigma1 w2) w7) (add32 (sigma0 w15) w16) :: rev_w)
  end.

Definition schedule (block : list byte) : list N :=
  rev (extend 48 (rev (map be2n (blocks 4 block)))).

Definition round (s : state) (kw : N * N) : state :=
  let (k, w) := kw in
  let t1 := add32 (add32 (add32 (hh s) (Sigma1 (he s)))
                         (add32 (Ch (he s) (hf s) (hg s)) k)) w in
  let t2 := add32 (Sigma0 (ha s)) (Maj (ha s) (hb s) (hc s)) in
  mk (add32 t1 t2) (ha s) (hb s) (hc s) (add32 (hd s) t1) (he s) (hf s) (hg s).

Definition compress (s : state) (block : list byte) : state :=
  let r := fold_left round (combine K (schedule block)) s in
  mk (add32 (ha s) (ha r)) (add32 (hb s) (hb r)) (add32 (hc s) (hc r))
     (add32 (hd s) (hd r)) (add32 (he s) (he r)) (add32 (hf s) (hf r))
     (add32 (hg s) (hg r)) (add32 (hh s) (hh r)).

Definition digest_of (s : state) : list byte :=
  n2be 4 (ha s) ++ n2be 4 (hb s) ++ n2be 4 (hc s) ++ n2be 4 (hd s) ++
  n2be 4 (he s) ++ n2be 4 (hf s) ++ n2be 4 (hg s) ++ n2be 4 (hh s).

Definition sha256 (msg : list byte) : list byte :=
  digest_of (fold_left compress (blocks 64 (pad msg)) H0).

End Sha256.

(* ===================================================================== *)
(** * AES-256 block encryption (FIPS 197) *)
(* ===================================================================== *)

Module Aes.

(** Multiplication by x in GF(2^8) modulo x^8 + x^4 + x^3 + x + 1. *)
Definition xtime (a : N) : N :=
  if a <? 128 then a * 2 else N.lxor (a * 2 - 256) 0x1b.

Fixpoint gmul_bits (n : nat) (a b : N) : N :=
  match n with
  | O => 0
  | S n' => N.lxor (if N.odd b then a else 0) (gmul_bits n' (xtime a) (N.div2 b))
  end.

Definition gmul (a b : N) : N := gmul_bits 8 a b.

Fixpoint gpow (n : nat) (a : N) : N :=
  match n with
  | O => 1
  | S n' => gmul a (gpow n' a)
  end.

Definition rotl8 (k x : N) : N :=
  N.lor (N.shiftl x k) (N.shiftr x (8 - k)) mod 256.

(** The S-box: the inverse in GF(2^8) (0 for 0) and the affine map. *)
Definition sbox_of (a : N) : N :=
  let b := gpow 254 a in
  N.lxor (N.lxor (N.lxor (N.lxor (N.lxor b (rotl8 1 b)) (rotl8 2 b)) (rotl8 3 b))
                 (rotl8 4 b)) 0x63.

Definition sbox : list N :=
  Eval vm_compute in map (fun i => sbox_of (N.of_nat i)) (seq 0 256).

Definition sub_byte (a : N) : N := nth (N.to_nat a) sbox 0.

Definition word := list N.

Definition rot_word (w : word) : word :=
  match w with
  | a :: rest => rest ++ [a]
  | [] => []
  end.

Definition sub_word (w : word) : word := map sub_byte w.

Definition xor_word (a b : word) : word :=
  map (fun p => N.lxor (fst p) (snd p)) (combine a b).

(** Key expansion for Nk = 8; [rev_ws] holds w[i-1], w[i-2], ... *)
Fixpoint expand (n i : nat) (rc : N) (rev_ws : list word) : list word :=
  match n with
  | O => rev_ws
  | S n' =>
      let prev := nth 0 rev_ws [] in
      let back := nth 7 rev_ws [] in
      if (i mod 8 =? 0)%nat then
        expand n' (S i) (xtime rc)
          (xor_word back (xor_word (sub_word (rot_word prev)) [rc; 0; 0; 0]) :: rev_ws)
      else if (i mod 8 =? 4)%nat then
        expand n' (S i) rc (xor_word back (sub_word prev) :: rev_ws)
      else
        expand n' (S i) rc (xor_word back prev :: rev_ws)
  end.

Fixpoint round_keys_of (fuel : nat) (ws : list word) : list (list N) :=
  match fuel with
  | O => []
  | S f =>
      match ws with
      | a :: b :: c :: d :: rest => (a ++ b ++ c ++ d) :: round_keys_of f rest
      | _ => []
      end
  end.

Definition key_schedule (key : list byte) : list (list N) :=
  let w0 := map (map b2n) (blocks 4 key) in
  round_keys_of 15 (rev (expand 52 8 1 (rev w0))).

Definition add_round_key (st rk : list N) : list N :=
  map (fun i => N.lxor (nth i st 0) (nth i rk 0)) (seq 0 16).

Definition sub_bytes (st : list N) : list N := map sub_byte st.

(** The state is held column by column, so row r of column c is at 4c + r. *)
Definition shift_rows (st : list N) : list N :=
  map (fun i => nth i st 0)
      [0; 5; 10; 15; 4; 9; 14; 3; 8; 13; 2; 7; 12; 1; 6; 11]%nat.

Definition mix_column (c : nat) (st : list N) : list N :=
  let a0 := nth (4 * c) st 0 in
  let a1 := nth (4 * c + 1) st 0 in
  let a2 := nth (4 * c + 2) st 0 in
  let a3 := nth (4 * c + 3) st 0 in
  [ N.lxor (N.lxor (gmul 2 a0) (gmul 3 a1)) (N.lxor a2 a3);
    N.lxor (N.lxor a0 (gmul 2 a1)) (N.lxor (gmul 3 a2) a3);
    N.lxor (N.lxor a0 a1) (N.lxor (gmul 2 a2) (gmul 3 a3));
    N.lxor (N.lxor (gmul 3 a0) a1) (N.lxor a2 (gmul 2 a3)) ].

Definition mix_columns (st : list N) : list N :=
  mix_column 0 st ++ mix_column 1 st ++ mix_column 2 st ++ mix_column 3 st.

Definition full_round (st rk : list N) : list N :=
  add_round_key (mix_columns (shift_rows (sub_bytes st))) rk.

Definition final_round (st rk : list N) : list N :=
  add_round_key (shift_rows (sub_bytes st)) rk.

(** Cipher(in, w) with Nr = 14. *)
Definition encrypt_block (key block : list byte) : list byte :=
  let rks := key_schedule key in
  let st0 := add_round_key (map b2n block) (nth 0 rks []) in
  let st13 := fold_left full_round (firstn 13 (skipn 1 rks)) st0 in
  map n2b (final_round st13 (nth 14 rks [])).

End Aes.

(* ===================================================================== *)
(** * GCM over a 128-bit block cipher (NIST SP 800-38D), no associated data *)
(* ===================================================================== *)

Module Gcm.

Section Mode.

(** The block cipher under the key in use. *)
Variable E : list byte -> list byte.

Definition R : N := 0xe1000000000000000000000000000000.

(** Multiplication in GF(2^128), bits numbered from the most significant. *)
Fixpoint gf_mul_bits (n : nat) (x v z : N) : N :=
  match n with
  | O => z
  | S n' =>
      gf_mul_bits n' x
        (if N.odd v then N.lxor (N.shiftr v 1) R else N.shiftr v 1)
        (if N.testbit x (N.of_nat n') then N.lxor z v else z)
  end.

Definition gf_mul (x y : N) : N := gf_mul_bits 128 x y 0.

Definition ghash (h : N) (data : list byte) : N :=
  fold_left (fun y blk => gf_mul (N.lxor y (be2n blk)) h) (blocks 16 data) 0.

Definition pad16 (l : list byte) : list byte :=
  l ++ zeros ((16 - List.length l mod 16) mod 16).

Definition bitlen64 (l : list byte) : list byte :=
  n2be 8 (N.of_nat (List.length l) * 8).

Definition hash_key : N := be2n (E (zeros 16)).

Definition inc32 (cb : list byte) : list byte :=
  firstn 12 cb ++ n2be 4 ((be2n (skipn 12 cb) + 1) mod 4294967296).

(** The pre-counter block J0. *)
Definition j0 (iv : list byte) : list byte :=
  if (List.length iv =? 12)%nat then iv ++ [x00; x00; x00; x01]
  else n2be 16 (ghash hash_key (pad16 iv ++ zeros 8 ++ bitlen64 iv)).

Fixpoint gctr_blocks (cb : list byte) (bs : list (list byte)) : list byte :=
  match bs with
  | [] => []
  | b :: rest => xor_bytes b (E cb) ++ gctr_blocks (inc32 cb) rest
  end.

Definition gctr (icb : list byte) (data : list byte) : list byte :=
  gctr_blocks icb (blocks 16 data).

(** The full 128-bit tag of a ciphertext. *)
Definition tag_of (iv c : list byte) : list byte :=
  xor_bytes (n2be 16 (ghash hash_key (pad16 c ++ zeros 8 ++ bitlen64 c)))
            (E (j0 iv)).

Definition encrypt (iv p : list byte) : list byte * list byte :=
  let c := gctr (inc32 (j0 iv)) p in (c, tag_of iv c).

(** Decryption with a tag of [length tag] bytes: the leading bytes of the
    full tag are compared, and plaintext is released only when they agree. *)
Definition decrypt (iv c tag : list byte) : option (list byte) :=
  if bytes_eqb (firstn (List.length tag) (tag_of iv c)) tag
  then Some (gctr (inc32 (j0 iv)) c)
  else None.

End Mode.

End Gcm.

(* ===================================================================== *)
(** * Errors and results *)
(* ===================================================================== *)

(** The exceptions that crypto.ts and worker.ts can see. The code defines no
    error classes of its own: it throws one plain [Error] and otherwise
    passes on what node:crypto and the Prisma client throw. *)
Inductive JsError : Type :=
| KeyNotSet                       (* new Error('VANITY_ENCRYPTION_KEY not set') *)
| InvalidIV                       (* createCipheriv: ERR_CRYPTO_INVALID_IV *)
| InvalidKeyLength                (* createCipheriv: ERR_CRYPTO_INVALID_KEYLEN *)
| InvalidAuthTagLength (n : nat)  (* setAuthTag: ERR_CRYPTO_INVALID_AUTH_TAG *)
| UnableToAuthenticate            (* final(): 'Unsupported state or unable to
                                     authenticate data' *)
| PrismaError (code : string)     (* PrismaClientKnownRequestError *)
| OtherError (message : string).  (* any other rejection of a store request *)

(** [e?.code]. *)
Definition error_code (e : JsError) : option string :=
  match e with
  | KeyNotSet => None
  | InvalidIV => Some "ERR_CRYPTO_INVALID_IV"%string
  | InvalidKeyLength => Some "ERR_CRYPTO_INVALID_KEYLEN"%string
  | InvalidAuthTagLength _ => Some "ERR_CRYPTO_INVALID_AUTH_TAG"%string
  | UnableToAuthenticate => None
  | PrismaError c => Some c
  | OtherError _ => None
  end.

Inductive result (A : Type) : Type :=
| Ok (a : A)
| Throw (e : JsError).
Arguments Ok {A} a.
Arguments Throw {A} e.

Definition bind {A B : Type} (r : result A) (f : A -> result B) : result B :=
  match r with
  | Ok a => f a
  | Throw e => Throw e
  end.

Notation "x <- c ;; k" := (bind c (fun x => k))
  (at level 61, c at next level, right associativity).

(* ===================================================================== *)
(** * src/crypto.ts *)
(* ===================================================================== *)

Definition IV_LENGTH : nat := 12.

(** /^[A-Fa-f0-9]{64}$/ *)
Definition is_hex_char (c : byte) : bool :=
  match Hex.digit (b2n c) with Some _ => true | None => false end.

Definition hex_key_re (key : list byte) : bool :=
  (List.length key =? 64)%nat && forallb is_hex_char key.

(** /^[A-Za-z0-9+/=]{43,45}$/ *)
Definition is_base64_char (c : byte) : bool :=
  let n := b2n c in
  ((65 <=? n) && (n <=? 90)) || ((97 <=? n) && (n <=? 122))
  || ((48 <=? n) && (n <=? 57)) || (n =? 43) || (n =? 47) || (n =? 61).

Definition base64_key_re (key : list byte) : bool :=
  (43 <=? List.length key)%nat && (List.length key <=? 45)%nat
  && forallb is_base64_char key.

(** [getKey()], given the value of process.env.VANITY_ENCRYPTION_KEY
    ([None] when the variable is not set). *)
Definition getKey (env_key : option string) : result (list byte) :=
  match env_key with
  | None => Throw KeyNotSet
  | Some EmptyString => Throw KeyNotSet
  | Some key =>
      let k := list_byte_of_string key in
      if hex_key_re k then Ok (Hex.decode k)
      else if base64_key_re k then Ok (Base64.decode k)
      else Ok (Sha256.sha256 k)
  end.

(** The bytes the operating system's random source will hand out. *)
Definition Entropy : Type := nat -> byte.

(** [crypto.randomBytes(n)]. *)
Definition randomBytes (n : nat) (rng : Entropy) : list byte * Entropy :=
  (map rng (seq 0 n), fun i => rng (n + i)%nat).

(** [crypto.createCipheriv('aes-256-gcm', key, iv)] and [createDecipheriv]:
    an empty IV and a key that is not 32 bytes long are refused, in this
    order; the result is the block cipher under the key. *)
Definition createCipheriv (key iv : list byte) : result (list byte -> list byte) :=
  match iv with
  | [] => Throw InvalidIV
  | _ =>
      if (List.length key =? 32)%nat then Ok (Aes.encrypt_block key)
      else Throw InvalidKeyLength
  end.

(** [decipher.setAuthTag(tag)] without an authTagLength option. *)
Definition valid_tag_length (n : nat) : bool :=
  (n =? 4)%nat || (n =? 8)%nat || ((12 <=? n)%nat && (n <=? 16)%nat).

Definition setAuthTag (tag : list byte) : result unit :=
  if valid_tag_length (List.length tag) then Ok tt
  else Throw (InvalidAuthTagLength (List.length tag)).

Definition encryptSecret (env_key : option string) (rng : Entropy)
    (plain : list byte) : result (list byte) * Entropy :=
  match getKey env_key with
  | Throw e => (Throw e, rng)
  | Ok key =>
      let (iv, rng') := randomBytes IV_LENGTH rng in
      (cipher <- createCipheriv key iv ;;
       let (enc, tag) := Gcm.encrypt cipher iv plain in
       Ok (iv ++ tag ++ enc),
       rng')
  end.

Definition decryptSecret (env_key : option string) (blob : list byte)
    : result (list byte) :=
  key <- getKey env_key ;;
  let iv := subarray 0 IV_LENGTH blob in
  let tag := subarray IV_LENGTH (IV_LENGTH + 16) blob in
  let enc := subarray_from (IV_LENGTH + 16) blob in
  decipher <- createCipheriv key iv ;;
  _ <- setAuthTag tag ;;
  match Gcm.decrypt decipher iv enc tag with
  | Some plain => Ok plain
  | None => Throw UnableToAuthenticate
  end.

(* ===================================================================== *)
(** * JavaScript numbers, as far as worker.ts computes with them *)
(* ===================================================================== *)

(** A finite double is held as the rational it denotes. The worker only
    compares, subtracts a row count from the threshold and counts up by one,
    which is exact on integers below 2^53. *)
Inductive JsNumber : Type :=
| Finite (q : Q)
| NaN
| PosInf
| NegInf.

Definition js_of_nat (n : nat) : JsNumber := Finite (inject_Z (Z.of_nat n)).

Definition Qltb (a b : Q) : bool := negb (Qle_bool b a).

(** [a < b]: false whenever an operand is NaN. *)
Definition js_lt (a b : JsNumber) : bool :=
  match a, b with
  | NaN, _ | _, NaN => false
  | Finite x, Finite y => Qltb x y
  | NegInf, NegInf => false
  | NegInf, _ => true
  | _, PosInf => match a with PosInf => false | _ => true end
  | _, _ => false
  end.

(** [a >= b]: false whenever an operand is NaN. *)
Definition js_ge (a b : JsNumber) : bool :=
  match a, b with
  | NaN, _ | _, NaN => false
  | _, _ => negb (js_lt a b)
  end.

(** [a - b]. *)
Definition js_sub (a b : JsNumber) : JsNumber :=
  match a, b with
  | NaN, _ | _, NaN => NaN
  | Finite x, Finite y => Finite (x - y)
  | PosInf, PosInf | NegInf, NegInf => NaN
  | PosInf, _ => PosInf
  | NegInf, _ => NegInf
  | Finite _, PosInf => NegInf
  | Finite _, NegInf => PosInf
  end.

(** [Math.max(a, b)]: NaN if an operand is NaN. *)
Definition js_max (a b : JsNumber) : JsNumber :=
  match a, b with
  | NaN, _ | _, NaN => NaN
  | _, _ => if js_lt a b then b else a
  end.

(* ===================================================================== *)
(** * src/worker.ts *)
(* ===================================================================== *)

(** [String.prototype.endsWith] with one argument. *)
Definition endsWith (s searchString : string) : bool :=
  let len := String.length s in
  let searchLength := String.length searchString in
  if (searchLength <=? len)%nat
  then String.eqb (substring (len - searchLength) searchLength s) searchString
  else false.

Definition matches (pub pattern : string) : bool := endsWith pub pattern.

(** [bs58.encode], which [PublicKey.toBase58()] applies to the 32 bytes of
    the key: a '1' for every leading zero byte, then the bytes read as one
    big-endian number, in base 58 over the Bitcoin alphabet. *)
Module Base58.

Definition alphabet : list ascii :=
  list_ascii_of_string
    "123456789ABCDEFGHJKLMNPQRSTUVWXYZabcdefghijkmnopqrstuvwxyz".

Definition digit (d : N) : ascii := nth (N.to_nat d) alphabet "1"%char.

(** The base-58 digits of [n] before [acc], most significant first. *)
Fixpoint digits (fuel : nat) (n : N) (acc : list ascii) : list ascii :=
  match fuel with
  | O => acc
  | S f => if n =? 0 then acc else digits f (n / 58) (digit (n mod 58) :: acc)
  end.

Fixpoint leading_zeros (l : list byte) : nat :=
  match l with
  | x00 :: rest => S (leading_zeros rest)
  | _ => O
  end.

Definition encode (l : list byte) : string :=
  string_of_list_ascii
    (repeat "1"%char (leading_zeros l)
     ++ digits (8 * List.length l) (be2n l) []).

End Base58.

(** What [Keypair.generate()] returns: the 32 bytes of the public key and
    the 64 bytes of [secretKey]. *)
Record Keypair : Type := mkKeypair
  { kp_publicKey : list byte;
    kp_secretKey : list byte }.

(** [kp.publicKey.toBase58()]. *)
Definition kp_pub (kp : Keypair) : string := Base58.encode (kp_publicKey kp).

(** A row of the table "VanityMintPool" (the columns the worker writes). *)
Record Row : Type := mkRow
  { id : string;
    publicKey : string;
    encSecret : list byte;
    pattern : string;
    caseSensitive : bool;
    status : string }.

(** The module-level constants, read from the environment once. *)
Record Config : Type := mkConfig
  { VANITY_ENCRYPTION_KEY : option string;
    TARGETS : list string;
    MIN_BUFFER : JsNumber }.     (* Number(process.env.VANITY_MIN_BUFFER || '5') *)

Inductive Event : Type :=
| EvRequest                          (* a statement of ensureSchema was sent *)
| EvCount (pat : string)             (* vanityMintPool.count was sent *)
| EvGenerate (pub : string)          (* Keypair.generate() returned pub *)
| EvSeal (pub : string)              (* encryptSecret returned a blob *)
| EvInsert (pub : string)            (* vanityMintPool.create was sent *)
| EvStored (pub : string)            (* ... and resolved *)
| EvError (e : JsError).             (* console.error / console.log of a caught error *)

(** Everything outside the worker's control: the table, and what the key
    generator, the random source, randomUUID and the store will answer from
    now on. [faults i = Some e] makes the i-th next store request reject
    with [e]. The trace lists the events so far, latest first. *)
Record World : Type := mkWorld
  { table : list Row;
    keygen : nat -> Keypair;
    entropy : Entropy;
    uuids : nat -> string;
    faults : nat -> option JsError;
    trace : list Event }.

Definition tail_of {A : Type} (f : nat -> A) : nat -> A := fun i => f (S i).

Definition emit (ev : Event) (w : World) : World :=
  mkWorld (table w) (keygen w) (entropy w) (uuids w) (faults w) (ev :: trace w).

Definition generate (w : World) : Keypair * World :=
  let kp := keygen w 0%nat in
  (kp, mkWorld (table w) (tail_of (keygen w)) (entropy w) (uuids w) (faults w)
               (EvGenerate (kp_pub kp) :: trace w)).

Definition randomUUID (w : World) : string * World :=
  (uuids w 0%nat,
   mkWorld (table w) (keygen w) (entropy w) (tail_of (uuids w)) (faults w) (trace w)).

Definition seal (cfg : Config) (kp : Keypair) (w : World) : result (list byte) * World :=
  let (r, rng) := encryptSecret (VANITY_ENCRYPTION_KEY cfg) (entropy w) (kp_secretKey kp) in
  (r, mkWorld (table w) (keygen w) rng (uuids w) (faults w)
        (match r with Ok _ => EvSeal (kp_pub kp) :: trace w | Throw _ => trace w end)).

(** One request to the store: the next fault, if any, rejects it. *)
Definition request (w : World) : option JsError * World :=
  (faults w 0%nat,
   mkWorld (table w) (keygen w) (entropy w) (uuids w) (tail_of (faults w)) (trace w)).

Definition is_ready (pat : string) (r : Row) : bool :=
  String.eqb (pattern r) pat && caseSensitive r && String.eqb (status r) "ready".

(** [prisma.vanityMintPool.count({ where: { pattern, caseSensitive: true,
    status: 'ready' } })]. *)
Definition countReady (pat : string) (rows : list Row) : nat :=
  List.length (filter (is_ready pat) rows).

Definition count (pat : string) (w : World) : result nat * World :=
  let (f, w1) := request (emit (EvCount pat) w) in
  match f with
  | Some e => (Throw e, w1)
  | None => (Ok (countReady pat (table w1)), w1)
  end.

(** "id" is the primary key and "publicKey" is UNIQUE. *)
Definition conflicts (r : Row) (rows : list Row) : bool :=
  existsb (fun r' => String.eqb (id r') (id r)
                     || String.eqb (publicKey r') (publicKey r)) rows.

(** [prisma.vanityMintPool.create({ data })]: a unique-constraint violation
    rejects with Prisma's code P2002. *)
Definition create (r : Row) (w : World) : result unit * World :=
  let (f, w1) := request (emit (EvInsert (publicKey r)) w) in
  match f with
  | Some e => (Throw e, w1)
  | None =>
      if conflicts r (table w1) then (Throw (PrismaError "P2002"), w1)
      else (Ok tt,
            mkWorld (table w1 ++ [r]) (keygen w1) (entropy w1) (uuids w1)
                    (faults w1) (EvStored (publicKey r) :: trace w1))
  end.

(** [e?.code !== 'P2002'] *)
Definition not_P2002 (e : JsError) : bool :=
  match error_code e with
  | Some c => negb (String.eqb c "P2002")
  | None => true
  end.

Inductive Outcome : Type :=
| Returned
| Thrown (e : JsError)
| Running.        (* the loop is still searching when the fuel is used up *)

(** The while loop of [ensureBuffer]; one unit of fuel per iteration. *)
Fixpoint search (fuel : nat) (cfg : Config) (pat : string)
    (toGenerate : JsNumber) (found : nat) (w : World) : Outcome * World :=
  if js_lt (js_of_nat found) toGenerate then
    match fuel with
    | O => (Running, w)
    | S fuel' =>
        let (kp, w1) := generate w in
        let pub := kp_pub kp in
        if matches pub pat then
          match seal cfg kp w1 with
          | (Throw e, w2) => (Thrown e, w2)
          | (Ok enc, w2) =>
              let (uuid, w3) := randomUUID w2 in
              match create (mkRow uuid pub enc pat true "ready") w3 with
              | (Ok _, w4) => search fuel' cfg pat toGenerate (S found) w4
              | (Throw e, w4) =>
                  if not_P2002 e then (Thrown e, w4)
                  else search fuel' cfg pat toGenerate found w4
              end
          end
        else search fuel' cfg pat toGenerate found w1
    end
  else (Returned, w).

Definition ensureBuffer (fuel : nat) (cfg : Config) (pat : string) (w : World)
    : Outcome * World :=
  match count pat w with
  | (Throw e, w1) => (Thrown e, w1)
  | (Ok ready, w1) =>
      if js_ge (js_of_nat ready) (MIN_BUFFER cfg) then (Returned, w1)
      else
        let toGenerate :=
          js_max (Finite 0) (js_sub (MIN_BUFFER cfg) (js_of_nat ready)) in
        search fuel cfg pat toGenerate 0 w1
  end.

(** One [$executeRawUnsafe] of [ensureSchema], inside its try/catch. *)
Definition executeRaw (w : World) : World :=
  let (f, w1) := request (emit EvRequest w) in
  match f with
  | Some e => emit (EvError e) w1
  | None => w1
  end.

Definition ensureSchema (w : World) : World :=
  executeRaw (executeRaw (executeRaw w)).

(** [for (const p of TARGETS) { try { await ensureBuffer(p) } catch (e)
    { console.error(...) } }]; [None] while a fill is still running. *)
Fixpoint for_targets (fuel : nat) (cfg : Config) (ps : list string) (w : World)
    : option World :=
  match ps with
  | [] => Some w
  | p :: rest =>
      match ensureBuffer fuel cfg p w with
      | (Returned, w1) => for_targets fuel cfg rest w1
      | (Thrown e, w1) => for_targets fuel cfg rest (emit (EvError e) w1)
      | (Running, _) => None
      end
  end.

(** The first [cycles] rounds of the [while (true)] of [main]. *)
Fixpoint cycles_of (cycles fuel : nat) (cfg : Config) (w : World) : option World :=
  match cycles with
  | O => Some w
  | S n =>
      match for_targets fuel cfg (TARGETS cfg) w with
      | Some w1 => cycles_of n fuel cfg w1
      | None => None
      end
  end.

(** [main()] up to the end of its [cycles]-th round. The only way out of
    [main] other than running on is a rejection, which [main().catch] turns
    into [process.exit(1)]; the body has no throw outside a try. *)
Definition main (cycles fuel : nat) (cfg : Config) (w : World) : option World :=
  cycles_of cycles fuel cfg (ensureSchema w).

(* ===================================================================== *)
(** * src/worker.ts: the list of patterns *)
(* ===================================================================== *)

(** A JavaScript string as the sequence of its UTF-16 code units. *)
Definition JsString : Type := list N.

(** The code units of a string of characters below 256. *)
Definition js_of_string (s : string) : JsString :=
  map N_of_ascii (list_ascii_of_string s).

(** [s.split(',')]: the pieces between the commas, at least one. *)
Fixpoint split_comma (s : JsString) : list JsString :=
  match s with
  | [] => [[]]
  | c :: rest =>
      if c =? 44 then [] :: split_comma rest
      else match split_comma rest with
           | piece :: more => (c :: piece) :: more
           | [] => [[c]]
           end
  end.

(** The code units [trim] strips: the WhiteSpace and LineTerminator of
    ECMAScript. TAB, LF, VT, FF, CR, SP, NBSP, the other space separators
    (U+1680, U+2000 to U+200A, U+202F, U+205F, U+3000), LS, PS and
    U+FEFF. *)
Definition is_space (c : N) : bool :=
  ((9 <=? c) && (c <=? 13)) || (c =? 32) || (c =? 160) || (c =? 0x1680)
  || ((0x2000 <=? c) && (c <=? 0x200a)) || (c =? 0x2028) || (c =? 0x2029)
  || (c =? 0x202f) || (c =? 0x205f) || (c =? 0x3000) || (c =? 0xfeff).

Fixpoint trim_start (s : JsString) : JsString :=
  match s with
  | [] => []
  | c :: rest => if is_space c then trim_start rest else s
  end.

Fixpoint trim_end (s : JsString) : JsString :=
  match s with
  | [] => []
  | c :: rest =>
      match trim_end rest with
      | [] => if is_space c then [] else [c]
      | kept => c :: kept
      end
  end.

(** [s.trim()] *)
Definition trim (s : JsString) : JsString := trim_end (trim_start s).

(** [Boolean(s)] for a string. *)
Definition truthy (s : JsString) : bool :=
  match s with
  | [] => false
  | _ => true
  end.

(** [(process.env.VANITY_PATTERNS || 'SNOW,SB').split(',').map(s => s.trim())
    .filter(Boolean)], given the value of the variable. *)
Definition parse_targets (env_patterns : option JsString) : list JsString :=
  let raw := match env_patterns with
             | None | Some [] => js_of_string "SNOW,SB"
             | Some v => v
             end in
  filter truthy (map trim (split_comma raw)).

(* ===================================================================== *)
(** * The variant of worker.ts with progress logs (src/unnamed/part_000) *)
(* ===================================================================== *)

(** The lines this variant writes, without the rates and times it derives
    from the clock. *)
Inductive LogLine : Type :=
| LogBufferFull (pat : string) (ready : nat)
| LogSearching (pat : string) (ready : nat) (need : JsNumber)
| LogProgress (pat : string) (attempts found : nat)
| LogFound (pub pat : string)
| LogStored (found : nat) (pat : string)
| LogErrorStoring (e : JsError)
| LogDuplicate
| LogCompleted (pat : string) (found attempts : nat).

Record Verbose : Type := mkVerbose
  { v_out : Outcome;
    v_world : World;
    v_attempts : nat;
    v_log : list LogLine }.     (* latest first *)

Fixpoint search_verbose (fuel : nat) (cfg : Config) (pat : string)
    (toGenerate : JsNumber) (found attempts : nat) (w : World)
    (log : list LogLine) : Verbose :=
  if js_lt (js_of_nat found) toGenerate then
    match fuel with
    | O => mkVerbose Running w attempts log
    | S fuel' =>
        let attempts1 := S attempts in
        let (kp, w1) := generate w in
        let pub := kp_pub kp in
        let log1 := if (attempts1 mod 10000 =? 0)%nat
                    then LogProgress pat attempts1 found :: log else log in
        if matches pub pat then
          let log2 := LogFound pub pat :: log1 in
          match seal cfg kp w1 with
          | (Throw e, w2) => mkVerbose (Thrown e) w2 attempts1 log2
          | (Ok enc, w2) =>
              let (uuid, w3) := randomUUID w2 in
              match create (mkRow uuid pub enc pat true "ready") w3 with
              | (Ok _, w4) =>
                  search_verbose fuel' cfg pat toGenerate (S found) attempts1 w4
                                 (LogStored (S found) pat :: log2)
              | (Throw e, w4) =>
                  if not_P2002 e
                  then mkVerbose (Thrown e) w4 attempts1 (LogErrorStoring e :: log2)
                  else search_verbose fuel' cfg pat toGenerate found attempts1 w4
                                      (LogDuplicate :: log2)
              end
          end
        else search_verbose fuel' cfg pat toGenerate found attempts1 w1 log1
    end
  else mkVerbose Returned w attempts
                 (LogCompleted pat found attempts :: log).

Definition ensureBuffer_verbose (fuel : nat) (cfg : Config) (pat : string)
    (w : World) : Verbose :=
  match count pat w with
  | (Throw e, w1) => mkVerbose (Thrown e) w1 0 []
  | (Ok ready, w1) =>
      if js_ge (js_of_nat ready) (MIN_BUFFER cfg)
      then mkVerbose Returned w1 0 [LogBufferFull pat ready]
      else
        let toGenerate :=
          js_max (Finite 0) (js_sub (MIN_BUFFER cfg) (js_of_nat ready)) in
        search_verbose fuel cfg pat toGenerate 0 0 w1
                       [LogSearching pat ready toGenerate]
  end.

(* ===================================================================== *)
(** * The variant of worker.ts whose ensureSchema has no try
      (src/unnamed/part_001) *)
(* ===================================================================== *)

(** One awaited [$executeRawUnsafe]. *)
Definition executeRaw_strict (w : World) : result unit * World :=
  let (f, w1) := request (emit EvRequest w) in
  match f with
  | Some e => (Throw e, w1)
  | None => (Ok tt, w1)
  end.

Definition ensureSchema_strict (w : World) : result unit * World :=
  match executeRaw_strict w with
  | (Throw e, w1) => (Throw e, w1)
  | (Ok _, w1) =>
      match executeRaw_strict w1 with
      | (Throw e, w2) => (Throw e, w2)
      | (Ok _, w2) => executeRaw_strict w2
      end
  end.

(** How [main()] stands after its first [cycles] rounds: still cycling
    ([None] while a fill is searching), or rejected, which
    [main().catch(err => { console.error(err); process.exit(1) })] turns
    into an exit with code 1. *)
Inductive MainState : Type :=
| Cycling (w : option World)
| Exited (code : nat) (e : JsError) (w : World).

Definition main_strict (cycles fuel : nat) (cfg : Config) (w : World) : MainState :=
  match ensureSchema_strict w with
  | (Throw e, w1) => Exited 1 e (emit (EvError e) w1)
  | (Ok _, w1) => Cycling (cycles_of cycles fuel cfg w1)
  end.

(* ===================================================================== *)
(** * Notions used in the statements *)
(* ===================================================================== *)

(** The key material yields a key that AES-256 accepts. *)
Definition key_ok (env_key : option string) : Prop :=
  exists key, getKey env_key = Ok key /\ List.length key = 32%nat.

(** The blob layout: nonce, tag, ciphertext. *)
Definition blob_of (key iv plain : list byte) : list byte :=
  let (enc, tag) := Gcm.encrypt (Aes.encrypt_block key) iv plain in
  iv ++ tag ++ enc.



(** One pass through the body of the while loop. *)
Inductive Step : Type :=
| Continue (found : nat) (w : World)
| Abort (e : JsError) (w : World).

Definition body (cfg : Config) (pat : string) (found : nat) (w : World) : Step :=
  let (kp, w1) := generate w in
  if matches (kp_pub kp) pat then
    match seal cfg kp w1 with
    | (Throw e, w2) => Abort e w2
    | (Ok enc, w2) =>
        let (uuid, w3) := randomUUID w2 in
        match create (mkRow uuid (kp_pub kp) enc pat true "ready") w3 with
        | (Ok _, w4) => Continue (S found) w4
        | (Throw e, w4) => if not_P2002 e then Abort e w4 else Continue found w4
        end
    end
  else Continue found w1.

(** A row as the fill writes it for pattern [pat]. *)
Definition filled_row (pat : string) (r : Row) : Prop :=
  status r = "ready"%string /\ pattern r = pat /\ caseSensitive r = true /\
  matches (publicKey r) pat = true.

(** The patterns counted so far, latest first. *)
Definition counted (t : list Event) : list string :=
  flat_map (fun ev => match ev with EvCount p => [p] | _ => [] end) t.

(** The successful seals and the attempted and completed inserts so far. *)
Definition writes (t : list Event) : list Event :=
  filter (fun ev => match ev with
                    | EvSeal _ | EvInsert _ | EvStored _ => true
                    | _ => false
                    end) t.

Definition pubs (rows : list Row) : list string := map publicKey rows.

(** The candidates among the next [n] that match the pattern and whose
    publicKey is neither stored nor met before. *)
Fixpoint fresh_hits (pat : string) (seen : list string) (n : nat)
    (kg : nat -> Keypair) : nat :=
  match n with
  | O => 0
  | S n' =>
      let pub := kp_pub (kg 0%nat) in
      if matches pub pat && negb (existsb (String.eqb pub) seen)
      then S (fresh_hits pat (seen ++ [pub]) n' (tail_of kg))
      else fresh_hits pat seen n' (tail_of kg)
  end.

(** The store serves every request from now on. *)
Definition store_serves (w : World) : Prop := forall i, faults w i = None.

(** randomUUID never repeats itself nor an id of the table. *)
Definition fresh_uuids (w : World) : Prop :=
  (forall i, ~ In (uuids w i) (map id (table w))) /\
  (forall i j, uuids w i = uuids w j -> i = j).

(** The bytes counter mode xors onto [n] blocks, from counter block [cb]. *)
Fixpoint keystream (E : list byte -> list byte) (n : nat) (cb : list byte)
    : list byte :=
  match n with
  | O => []
  | S n' => E cb ++ keystream E n' (Gcm.inc32 cb)
  end.

(** No two rows share a publicKey or an id: the table's unique constraints. *)
Definition unique_keys (rows : list Row) : Prop :=
  NoDup (pubs rows) /\ NoDup (map id rows).

(** Row [r] was made from candidate [kp] for pattern [pat]: it carries the
    candidate's publicKey, which matches the pattern, and a blob that
    unseals to the candidate's secret key. *)
Definition row_of_candidate (cfg : Config) (pat : string) (kp : Keypair)
    (r : Row) : Prop :=
  publicKey r = kp_pub kp /\ pattern r = pat /\ caseSensitive r = true /\
  status r = "ready"%string /\ matches (kp_pub kp) pat = true /\
  decryptSecret (VANITY_ENCRYPTION_KEY cfg) (encSecret r) = Ok (kp_secretKey kp).

(** From [w] to [w'] the table has grown by the rows [new] and nothing else
    in it has changed; [k] candidates were generated and every new row was
    made from one of them, for one of the patterns [pats]; the unique
    constraints still hold if they held. *)
Definition grown_by (cfg : Config) (pats : list string) (w w' : World)
    (new : list Row) (k : nat) : Prop :=
  table w' = table w ++ new /\
  (forall i, keygen w' i = keygen w (k + i)%nat) /\
  Forall (fun r => exists i pat, (i < k)%nat /\ In pat pats /\
                                 row_of_candidate cfg pat (keygen w i) r) new /\
  (unique_keys (table w) -> unique_keys (table w')).

(** How many schema statements have been sent. *)
Definition requests (t : list Event) : nat :=
  List.length (filter (fun ev => match ev with EvRequest => true | _ => false end) t).

(** The errors caught and logged so far, latest first. *)
Definition logged (t : list Event) : list JsError :=
  flat_map (fun ev => match ev with EvError e => [e] | _ => [] end) t.

(** How many keypairs have been generated. *)
Definition generated (t : list Event) : nat :=
  List.length (filter (fun ev => match ev with EvGenerate _ => true | _ => false end) t).

(** The faults among the next [n] answers of the store, in order. *)
Fixpoint next_faults (n : nat) (f : nat -> option JsError) : list JsError :=
  match n with
  | O => []
  | S n' => match f 0%nat with
            | Some e => e :: next_faults n' (tail_of f)
            | None => next_faults n' (tail_of f)
            end
  end.

(** The text is over the base-58 alphabet. *)
Definition base58_text (s : string) : Prop :=
  Forall (fun c => In c Base58.alphabet) (list_ascii_of_string s).

Definition is_base58 (s : string) : bool :=
  forallb (fun c => existsb (Ascii.eqb c) Base58.alphabet)
          (list_ascii_of_string s).

(** The world after [k] passes of the loop in which the candidate did not
    match: [k] keypairs generated, nothing else. *)
Fixpoint skip (k : nat) (w : World) : World :=
  match k with
  | O => w
  | S k' => skip k' (snd (generate w))
  end.

(** Candidate [k] is the first to come that matches the pattern. *)
Definition first_match (pat : string) (kg : nat -> Keypair) (k : nat) : Prop :=
  (forall i, (i < k)%nat -> matches (kp_pub (kg i)) pat = false) /\
  matches (kp_pub (kg k)) pat = true.

(** From any point of the stream on, one of the next [fuel] candidates
    matches the pattern. *)
Definition matches_within (fuel : nat) (pat : string) (kg : nat -> Keypair)
    : Prop :=
  forall i, exists k, (k < fuel)%nat /\ matches (kp_pub (kg (i + k)%nat)) pat = true.


(* ===================================================================== *)
(** * Concrete inputs *)
(* ===================================================================== *)

Definition passphrase_key : option string := Some "test-passphrase"%string.

Definition counting_rng : Entropy := fun i => n2b (N.of_nat i).

Definition zero_key : option string :=
  Some "0000000000000000000000000000000000000000000000000000000000000000"%string.


Definition zero_rng : Entropy := fun _ => x00.


(** A 16-byte blob: the all-zero nonce and the first four bytes of the tag
    of the empty message under [zero_key]. *)
Definition short_blob : list byte := zeros 12 ++ [x53; x0f; x8a; xfb].

(** A passphrase of 44 letters. *)
Definition passphrase_44 : string :=
  "correcthorsebatterystaplecorrecthorsebattery".

(** A 32-byte public key whose base-58 text ends with the three digits of
    [v], for [v] below 58^3. *)
Definition key_ending (v : N) : list byte := n2be 32 (2 ^ 238 * 58 ^ 3 + v).

(** The digits of 'A' and 'B' are 9 and 10, that of 'S' is 25. *)
Definition key_AB : list byte := key_ending (9 * 58 + 10).
Definition key_SB : list byte := key_ending (25 * 58 + 10).

Definition pub_AB : string := "DpnWcEeNfZFbZLjuXDTPeE6iqJV9ZPoYxqoB3VXoV1AB".
Definition pub_SB : string := "DpnWcEeNfZFbZLjuXDTPeE6iqJV9ZPoYxqoB3VXoV1SB".

Definition empty_world : World :=
  mkWorld [] (fun _ => mkKeypair key_AB (zeros 64)) zero_rng (fun _ => "id"%string)
          (fun _ => None) [].

Definition taken_world : World :=
  mkWorld [mkRow "id0" pub_AB [] "AB" true "ready"]
          (fun _ => mkKeypair key_AB (zeros 64)) zero_rng
          (fun _ => "id1"%string) (fun _ => None) [].

(** Ids that differ by their length. *)
Fixpoint tally (i : nat) : string :=
  match i with
  | O => "id"
  | S j => String "i" (tally j)
  end.

(** Candidates whose text ends with one of A, B, C, then A or B, then B:
    every second one ends with "AB", the others with "BB", all different
    within any six in a row. *)
Definition candidate (i : nat) : Keypair :=
  mkKeypair (key_ending (N.of_nat ((9 + i mod 3) * 58 * 58
                                   + (9 + i mod 2) * 58 + 10)))
            (zeros 64).

Definition fresh_world : World :=
  mkWorld [] candidate counting_rng tally (fun _ => None) [].

Definition three_AB : Config :=
  mkConfig passphrase_key ["AB"%string] (Finite (inject_Z 3)).

Definition lost_connection : JsError := OtherError "connection lost".

Definition failing_world : World :=
  mkWorld [] (fun _ => mkKeypair key_AB (zeros 64)) zero_rng tally
          (fun _ => Some lost_connection) [].

(** The default configuration, without the key. *)
Definition no_key_config : Config :=
  mkConfig None ["SNOW"%string; "SB"%string] (Finite (inject_Z 5)).

(** Candidates that end with "AB" and with "SB" in turn. *)
Definition snow_world : World :=
  mkWorld []
          (fun i => if Nat.even i then mkKeypair key_AB (zeros 64)
                    else mkKeypair key_SB (zeros 64))
          zero_rng tally (fun _ => None) [].

(** MIN_BUFFER set to 2.5. *)
Definition half_config : Config :=
  mkConfig passphrase_key ["AB"%string] (Finite (5 # 2)).

(** MIN_BUFFER set to Infinity. *)
Definition endless_config : Config :=
  mkConfig passphrase_key ["AB"%string] PosInf.

(** The 44-letter passphrase as key material, with the default patterns. *)
Definition passphrase_44_config : Config :=
  mkConfig (Some passphrase_44) ["SNOW"%string; "SB"%string]
           (Finite (inject_Z 5)).

(** Two patterns, one ready key wanted of each. *)
Definition two_patterns : Config :=
  mkConfig passphrase_key ["AB"%string; "BB"%string] (Finite (inject_Z 1)).

(** The world after one round over both patterns. *)
Definition after_round : World :=
  match for_targets 3 two_patterns (TARGETS two_patterns) fresh_world with
  | Some w => w
  | None => fresh_world
  end.

(** A store that rejects the second request only. *)
Definition second_fails_world : World :=
  mkWorld [] candidate counting_rng tally
          (fun i => if (i =? 1)%nat then Some lost_connection else None) [].

(** The default patterns and threshold under a usable key. *)
Definition default_config : Config :=
  mkConfig passphrase_key ["SNOW"%string; "SB"%string] (Finite (inject_Z 5)).

(** Two patterns that public keys can end with, without the key and with a
    usable one. *)
Definition no_key_AB_SB : Config :=
  mkConfig None ["AB"%string; "SB"%string] (Finite (inject_Z 5)).



(** "SNOW", ideographic space, a comma, ideographic space, a comma, a byte
    order mark, "SB", a line separator. *)
Definition spaced_patterns : JsString :=
  js_of_string "SNOW" ++ [0x3000; 44; 0x3000; 44; 0xfeff]
  ++ js_of_string "SB" ++ [0x2028].

(* ===================================================================== *)
(** * Facts about bytes and blocks *)
(* ===================================================================== *)

Section ByteFacts.

Lemma b2n_lt (b : byte) : b2n b < 256.
Proof. unfold b2n. pose proof (Byte.to_N_bounded b). lia. Qed.

Lemma n2b_b2n (b : byte) : n2b (b2n b) = b.
Proof.
  unfold n2b. rewrite N.mod_small by apply b2n_lt.
  unfold b2n. now rewrite Byte.of_to_N.
Qed.

Lemma b2n_n2b (n : N) : b2n (n2b n) = n mod 256.
Proof.
  unfold n2b, b2n.
  destruct (Byte.of_N (n mod 256)) as [b|] eqn:E.
  - now apply Byte.to_of_N.
  - apply Byte.of_N_None_iff in E.
    pose proof (N.mod_upper_bound n 256). lia.
Qed.

Lemma lxor_lt_256 (a b : N) : a < 256 -> b < 256 -> N.lxor a b < 256.
Proof.
  intros Ha Hb.
  destruct (N.eq_dec (N.lxor a b) 0) as [->|Hz]; [lia|].
  apply N.log2_lt_pow2 with (b := 8); [lia|].
  eapply N.le_lt_trans; [apply N.log2_lxor|].
  apply N.max_lub_lt.
  - destruct (N.eq_dec a 0) as [->|]; [cbn; lia|].
    apply N.log2_lt_pow2; [lia|exact Ha].
  - destruct (N.eq_dec b 0) as [->|]; [cbn; lia|].
    apply N.log2_lt_pow2; [lia|exact Hb].
Qed.

Lemma b2n_bxor (a b : byte) : b2n (bxor a b) = N.lxor (b2n a) (b2n b).
Proof.
  unfold bxor. rewrite b2n_n2b.
  apply N.mod_small, lxor_lt_256; apply b2n_lt.
Qed.

Lemma b2n_inj (a b : byte) : b2n a = b2n b -> a = b.
Proof. intros H. rewrite <- (n2b_b2n a), <- (n2b_b2n b). now rewrite H. Qed.

Lemma bxor_cancel (a k : byte) : bxor (bxor a k) k = a.
Proof.
  apply b2n_inj. rewrite !b2n_bxor.
  now rewrite N.lxor_assoc, N.lxor_nilpotent, N.lxor_0_r.
Qed.


Lemma length_xor_bytes (l k : list byte) :
  List.length (xor_bytes l k) = Nat.min (List.length l) (List.length k).
Proof.
  revert k; induction l as [|a l IH]; intros [|b k]; cbn; auto.
Qed.

Lemma xor_bytes_cancel (l k : list byte) :
  (List.length l <= List.length k)%nat -> xor_bytes (xor_bytes l k) k = l.
Proof.
  revert k; induction l as [|a l IH]; intros [|b k] H; cbn in *; try lia; auto.
  rewrite bxor_cancel, IH by lia. reflexivity.
Qed.

Lemma length_n2be (w : nat) (n : N) : List.length (n2be w n) = w.
Proof.
  revert n; induction w as [|w IH]; intros n; cbn; auto.
  rewrite length_app, IH. cbn. lia.
Qed.

Lemma bytes_eqb_eq (a b : list byte) : bytes_eqb a b = true <-> a = b.
Proof.
  unfold bytes_eqb. destruct (list_eq_dec _ a b); split; congruence.
Qed.

Lemma bytes_eqb_refl (a : list byte) : bytes_eqb a a = true.
Proof. now apply bytes_eqb_eq. Qed.

Lemma chunks_nil (fuel size : nat) : chunks fuel size [] = [].
Proof. destruct fuel; reflexivity. Qed.

(** More fuel than bytes makes no difference. *)
Lemma chunks_fuel (size : nat) :
  (0 < size)%nat ->
  forall f1 f2 l, (List.length l <= f1)%nat -> (List.length l <= f2)%nat ->
                  chunks f1 size l = chunks f2 size l.
Proof.
  intros Hs f1. induction f1 as [|f1 IH]; intros f2 l H1 H2.
  - destruct l; [|cbn in H1; lia]. now rewrite !chunks_nil.
  - destruct l as [|a l]; [now rewrite !chunks_nil|].
    destruct f2 as [|f2]; [cbn in H2; lia|].
    cbn [chunks]. f_equal.
    apply IH; rewrite length_skipn; cbn [List.length] in *; lia.
Qed.

Lemma blocks_step (size : nat) (l : list byte) :
  (0 < size)%nat -> l <> [] ->
  blocks size l = firstn size l :: blocks size (skipn size l).
Proof.
  intros Hs Hl. unfold blocks.
  destruct l as [|a l]; [congruence|].
  cbn [List.length chunks]. f_equal.
  apply chunks_fuel; auto; rewrite length_skipn; cbn [List.length]; lia.
Qed.

End ByteFacts.

(* ===================================================================== *)
(** * Facts about the primitives *)
(* ===================================================================== *)

Lemma aes_block_length (key block : list byte) :
  List.length (Aes.encrypt_block key block) = 16%nat.
Proof.
  unfold Aes.encrypt_block, Aes.final_round, Aes.add_round_key.
  cbv zeta. now rewrite !length_map, length_seq.
Qed.

Lemma sha256_length (msg : list byte) : List.length (Sha256.sha256 msg) = 32%nat.
Proof.
  unfold Sha256.sha256, Sha256.digest_of.
  now rewrite !length_app, !length_n2be.
Qed.

(** Known answers: FIPS 180-4 ("abc"), FIPS 197 (appendix C.3) and the
    AES-256 cases of the GCM specification with a 96-bit nonce. *)
Example sha256_abc :
  Sha256.sha256 (list_byte_of_string "abc")
  = Hex.decode (list_byte_of_string
      "ba7816bf8f01cfea414140de5dae2223b00361a396177a9cb410ff61f20015ad").
Proof. vm_compute. reflexivity. Qed.

Example aes256_fips197 :
  Aes.encrypt_block
    (Hex.decode (list_byte_of_string
      "000102030405060708090a0b0c0d0e0f101112131415161718191a1b1c1d1e1f"))
    (Hex.decode (list_byte_of_string "00112233445566778899aabbccddeeff"))
  = Hex.decode (list_byte_of_string "8ea2b7ca516745bfeafc49904b496089").
Proof. vm_compute. reflexivity. Qed.

Example gcm_zero_block :
  Gcm.encrypt (Aes.encrypt_block (zeros 32)) (zeros 12) (zeros 16)
  = (Hex.decode (list_byte_of_string "cea7403d4d606b6e074ec5d3baf39d18"),
     Hex.decode (list_byte_of_string "d0d1c8a799996bf0265b98b5d48ab919")).
Proof. vm_compute. reflexivity. Qed.

Example gcm_four_blocks :
  Gcm.encrypt
    (Aes.encrypt_block (Hex.decode (list_byte_of_string
      "feffe9928665731c6d6a8f9467308308feffe9928665731c6d6a8f9467308308")))
    (Hex.decode (list_byte_of_string "cafebabefacedbaddecaf888"))
    (Hex.decode (list_byte_of_string
      "d9313225f88406e5a55909c5aff5269a86a7a9531534f7da2e4c303d8a318a721c3c0c95956809532fcf0e2449a6b525b16aedf5aa0de657ba637b391aafd255"))
  = (Hex.decode (list_byte_of_string
      "522dc1f099567d07f47f37a32a84427d643a8cdcbfe5c0c97598a2bd2555d1aa8cb08e48590dbb3da7b08b1056828838c5f61e6393ba7a0abcc9f662898015ad"),
     Hex.decode (list_byte_of_string "b094dac5d93471bdec1a502270e3cc6c")).
Proof. vm_compute. reflexivity. Qed.

Section GcmFacts.

Variable E : list byte -> list byte.
Hypothesis E_length : forall b, List.length (E b) = 16%nat.

Lemma gctr_blocks_length (fuel : nat) :
  forall cb l, (List.length l <= fuel)%nat ->
    List.length (Gcm.gctr_blocks E cb (chunks fuel 16 l)) = List.length l.
Proof.
  induction fuel as [|fuel IH]; intros cb l H.
  - destruct l; [reflexivity|cbn in H; lia].
  - destruct l as [|a l]; [reflexivity|].
    cbn [chunks Gcm.gctr_blocks].
    rewrite length_app, length_xor_bytes, E_length, IH
      by (rewrite length_skipn; cbn [List.length] in *; lia).
    rewrite length_firstn, length_skipn. lia.
Qed.

Lemma gctr_length (icb data : list byte) :
  List.length (Gcm.gctr E icb data) = List.length data.
Proof. apply gctr_blocks_length. unfold blocks. lia. Qed.

(** Counter mode is its own inverse. *)
Lemma gctr_involutive (icb data : list byte) :
  Gcm.gctr E icb (Gcm.gctr E icb data) = data.
Proof.
  unfold Gcm.gctr.
  remember (List.length data) as n eqn:Hn.
  assert (Hle : (List.length data <= n)%nat) by lia. clear Hn.
  revert icb data Hle.
  induction n as [|n IH]; intros icb data Hle.
  - destruct data; [reflexivity|cbn in Hle; lia].
  - destruct data as [|a data]; [reflexivity|].
    rewrite (blocks_step 16 (a :: data)) by (try lia; discriminate).
    cbn [Gcm.gctr_blocks].
    set (x := xor_bytes (firstn 16 (a :: data)) (E icb)).
    set (y := Gcm.gctr_blocks E (Gcm.inc32 icb) (blocks 16 (skipn 16 (a :: data)))).
    assert (Hx : List.length x = List.length (firstn 16 (a :: data))).
    { unfold x. rewrite length_xor_bytes, E_length, length_firstn. lia. }
    assert (Hxy : x ++ y <> []).
    { destruct x; [cbn in Hx; discriminate|discriminate]. }
    rewrite (blocks_step 16 (x ++ y)) by (try lia; exact Hxy).
    cbn [Gcm.gctr_blocks].
    assert (Hy : List.length y = List.length (skipn 16 (a :: data))).
    { unfold y. apply gctr_blocks_length. unfold blocks. lia. }
    rewrite length_firstn in Hx. rewrite length_skipn in Hy.
    destruct (Nat.le_gt_cases 16 (List.length (a :: data))) as [Hbig|Hsmall].
    + assert (Hx16 : List.length x = 16%nat) by lia.
      rewrite firstn_app, skipn_app, Hx16, Nat.sub_diag.
      rewrite firstn_all2 by lia. rewrite skipn_all2 by lia.
      cbn [firstn skipn app]. rewrite app_nil_r.
      unfold x at 1. rewrite xor_bytes_cancel
        by (rewrite E_length, length_firstn; lia).
      unfold y. rewrite IH
        by (rewrite length_skipn; cbn [List.length] in *; lia).
      apply firstn_skipn.
    + assert (Hy0 : y = []) by (apply length_zero_iff_nil; lia).
      rewrite Hy0, app_nil_r.
      rewrite firstn_all2 by lia. rewrite skipn_all2 by lia.
      unfold blocks at 1. cbn [List.length chunks Gcm.gctr_blocks].
      rewrite app_nil_r. unfold x.
      rewrite xor_bytes_cancel by (rewrite E_length, length_firstn; lia).
      apply firstn_all2. lia.
Qed.

Lemma tag_length (iv c : list byte) : List.length (Gcm.tag_of E iv c) = 16%nat.
Proof.
  unfold Gcm.tag_of. now rewrite length_xor_bytes, length_n2be, E_length.
Qed.

Lemma gcm_decrypt_encrypt (iv p : list byte) :
  let (c, t) := Gcm.encrypt E iv p in Gcm.decrypt E iv c t = Some p.
Proof.
  unfold Gcm.encrypt, Gcm.decrypt.
  rewrite firstn_all, bytes_eqb_refl, gctr_involutive. reflexivity.
Qed.

(** Plaintext comes out only under a matching tag, and then all of it. *)
Lemma gcm_decrypt_some (iv c t p : list byte) :
  Gcm.decrypt E iv c t = Some p ->
  firstn (List.length t) (Gcm.tag_of E iv c) = t /\
  p = Gcm.gctr E (Gcm.inc32 (Gcm.j0 E iv)) c /\
  List.length p = List.length c.
Proof.
  unfold Gcm.decrypt.
  destruct (bytes_eqb _ t) eqn:Heq; [|discriminate].
  intros [= <-]. apply bytes_eqb_eq in Heq.
  repeat split; auto. apply gctr_length.
Qed.

End GcmFacts.

(* ===================================================================== *)
(** * crypto.ts: sealing and unsealing *)
(* ===================================================================== *)

Lemma randomBytes_length (n : nat) (rng : Entropy) :
  List.length (fst (randomBytes n rng)) = n.
Proof. unfold randomBytes. cbn [fst]. now rewrite length_map, length_seq. Qed.

Lemma createCipheriv_ok (key iv : list byte) :
  List.length key = 32%nat -> iv <> [] ->
  createCipheriv key iv = Ok (Aes.encrypt_block key).
Proof.
  intros Hk Hiv. unfold createCipheriv.
  destruct iv; [congruence|]. now rewrite Hk.
Qed.

Lemma encryptSecret_ok (env_key : option string) (rng : Entropy)
    (plain key : list byte) :
  getKey env_key = Ok key -> List.length key = 32%nat ->
  fst (encryptSecret env_key rng plain)
  = Ok (blob_of key (fst (randomBytes IV_LENGTH rng)) plain).
Proof.
  intros Hk Hlen. unfold encryptSecret. rewrite Hk.
  pose proof (randomBytes_length IV_LENGTH rng) as Hiv.
  destruct (randomBytes IV_LENGTH rng) as [iv rng'].
  cbn [fst] in *.
  assert (Hne : iv <> []) by (intros ->; discriminate).
  rewrite (createCipheriv_ok key iv Hlen Hne).
  unfold bind, blob_of.
  now destruct (Gcm.encrypt (Aes.encrypt_block key) iv plain).
Qed.

(** Slicing a blob with a 12-byte nonce and a 16-byte tag gives the parts. *)
Lemma slices_of_blob (iv tag enc : list byte) :
  List.length iv = 12%nat -> List.length tag = 16%nat ->
  subarray 0 IV_LENGTH (iv ++ tag ++ enc) = iv /\
  subarray IV_LENGTH (IV_LENGTH + 16) (iv ++ tag ++ enc) = tag /\
  subarray_from (IV_LENGTH + 16) (iv ++ tag ++ enc) = enc.
Proof.
  intros Hiv Htag. unfold subarray, subarray_from, IV_LENGTH.
  change (12 - 0)%nat with 12%nat. change (12 + 16 - 12)%nat with 16%nat.
  change (12 + 16)%nat with 28%nat.
  repeat split.
  - rewrite skipn_O, firstn_app, Hiv, Nat.sub_diag, firstn_O, app_nil_r.
    apply firstn_all2. lia.
  - rewrite skipn_app, Hiv, Nat.sub_diag, skipn_O.
    rewrite skipn_all2 by lia. cbn [app].
    rewrite firstn_app, Htag, Nat.sub_diag, firstn_O, app_nil_r.
    apply firstn_all2. lia.
  - rewrite app_assoc, skipn_app, length_app, Hiv, Htag.
    change (28 - (12 + 16))%nat with 0%nat. rewrite skipn_O.
    rewrite skipn_all2 by (rewrite length_app; lia). reflexivity.
Qed.

(** What [decryptSecret] does on a blob with a full-width prefix. *)
Lemma decryptSecret_parts (env_key : option string) (key iv tag enc : list byte) :
  getKey env_key = Ok key -> List.length key = 32%nat ->
  List.length iv = 12%nat -> List.length tag = 16%nat ->
  decryptSecret env_key (iv ++ tag ++ enc)
  = match Gcm.decrypt (Aes.encrypt_block key) iv enc tag with
    | Some plain => Ok plain
    | None => Throw UnableToAuthenticate
    end.
Proof.
  intros Hk Hlen Hiv Htag. unfold decryptSecret. rewrite Hk. unfold bind at 1.
  destruct (slices_of_blob iv tag enc Hiv Htag) as (-> & -> & ->).
  assert (Hne : iv <> []) by (intros ->; discriminate).
  rewrite (createCipheriv_ok key iv Hlen Hne).
  unfold bind, setAuthTag. now rewrite Htag.
Qed.

(** Round trip under a 256-bit key: sealing any byte string succeeds,
    whatever nonce the random source hands out, and unsealing the sealed
    blob under the same key material returns the byte string. *)
Lemma roundtrip_usable_key (env_key : option string) (rng : Entropy)
    (s : list byte) :
  key_ok env_key ->
  exists blob,
    fst (encryptSecret env_key rng s) = Ok blob /\
    decryptSecret env_key blob = Ok s.
Proof.
  intros (key & Hk & Hlen).
  exists (blob_of key (fst (randomBytes IV_LENGTH rng)) s).
  split; [now apply encryptSecret_ok|].
  unfold blob_of.
  pose proof (gcm_decrypt_encrypt (Aes.encrypt_block key) (aes_block_length key)
                (fst (randomBytes IV_LENGTH rng)) s) as Hrt.
  pose proof (tag_length (Aes.encrypt_block key) (aes_block_length key)
                (fst (randomBytes IV_LENGTH rng))
                (fst (Gcm.encrypt (Aes.encrypt_block key)
                        (fst (randomBytes IV_LENGTH rng)) s))) as Htag.
  destruct (Gcm.encrypt _ _ s) as [enc tag] eqn:Henc.
  assert (Htag' : List.length tag = 16%nat).
  { unfold Gcm.encrypt in Henc. injection Henc as <- <-. exact Htag. }
  rewrite (decryptSecret_parts env_key key _ _ _ Hk Hlen
             (randomBytes_length IV_LENGTH rng) Htag').
  now rewrite Hrt.
Qed.

Lemma passphrase_key_ok : key_ok passphrase_key.
Proof.
  exists (Sha256.sha256 (list_byte_of_string "test-passphrase")).
  split; [reflexivity|apply sha256_length].
Qed.

(** Under key material whose derived key is not 256 bits long nothing is
    sealed and nothing unsealed. *)
Lemma unusable_key_refused (env_key : option string) (key : list byte) :
  getKey env_key = Ok key -> List.length key <> 32%nat ->
  (forall rng s, fst (encryptSecret env_key rng s) = Throw InvalidKeyLength) /\
  (forall blob plain, decryptSecret env_key blob <> Ok plain).
Proof.
  intros Hk Hlen. apply Nat.eqb_neq in Hlen. split.
  - intros rng s. unfold encryptSecret. rewrite Hk.
    pose proof (randomBytes_length IV_LENGTH rng) as Hiv.
    destruct (randomBytes IV_LENGTH rng) as [iv rng']. cbn [fst] in *.
    destruct iv as [|b iv]; [discriminate|].
    unfold createCipheriv. rewrite Hlen. reflexivity.
  - intros blob plain. unfold decryptSecret. rewrite Hk. unfold bind at 1.
    unfold createCipheriv.
    destruct (subarray 0 IV_LENGTH blob); [discriminate|].
    rewrite Hlen. discriminate.
Qed.

(** C2 (failing input). Whenever [getKey] derives a key, the round trip
    holds exactly when that key is 256 bits long: then sealing any byte
    string succeeds, whatever the nonce, and unsealing the blob under the
    same key material returns the byte string; otherwise sealing throws the
    invalid-key-length error and no blob is ever unsealed. The second case
    occurs: from the 44-letter passphrase [getKey] derives a key of 33
    bytes. *)
Theorem seal_unseal_roundtrip (env_key : option string) (key : list byte)
    (rng : Entropy) (s : list byte) :
  getKey env_key = Ok key ->
  ((exists blob,
      fst (encryptSecret env_key rng s) = Ok blob /\
      decryptSecret env_key blob = Ok s)
   <-> List.length key = 32%nat) /\
  (List.length key <> 32%nat ->
   fst (encryptSecret env_key rng s) = Throw InvalidKeyLength /\
   forall blob plain, decryptSecret env_key blob <> Ok plain) /\
  (exists k44,
     getKey (Some passphrase_44) = Ok k44 /\ List.length k44 = 33%nat).
Proof.
  intros Hk. split; [|split].
  - split.
    + intros (blob & Hseal & _).
      destruct (Nat.eq_dec (List.length key) 32) as [Hlen|Hlen]; [exact Hlen|].
      destruct (unusable_key_refused env_key key Hk Hlen) as [Hno _].
      rewrite Hno in Hseal. discriminate.
    + intros Hlen. apply roundtrip_usable_key. now exists key.
  - intros Hlen.
    destruct (unusable_key_refused env_key key Hk Hlen) as [Hno Hun].
    split; [apply Hno|exact Hun].
  - exists (Base64.decode (list_byte_of_string passphrase_44)).
    split; vm_compute; reflexivity.
Qed.

(** The failing input: the 44-letter passphrase and a 64-byte secret. *)
Lemma seal_unseal_roundtrip_witness :
  exists k44,
    getKey (Some passphrase_44) = Ok k44 /\ List.length k44 = 33%nat /\
    fst (encryptSecret (Some passphrase_44) counting_rng (zeros 64))
    = Throw InvalidKeyLength /\
    forall blob plain, decryptSecret (Some passphrase_44) blob <> Ok plain.
Proof.
  exists (Base64.decode (list_byte_of_string passphrase_44)).
  assert (Hk : getKey (Some passphrase_44)
               = Ok (Base64.decode (list_byte_of_string passphrase_44)))
    by (vm_compute; reflexivity).
  assert (Hlen : List.length (Base64.decode (list_byte_of_string passphrase_44))
                 = 33%nat) by (vm_compute; reflexivity).
  split; [exact Hk|]. split; [exact Hlen|].
  destruct (seal_unseal_roundtrip (Some passphrase_44) _ counting_rng (zeros 64) Hk)
    as (_ & H & _).
  apply H. rewrite Hlen. discriminate.
Defined.

(* --------------------------------------------------------------------- *)
(** ** Tampering and foreign keys *)









(** The scenario of the specification: what "test-passphrase" sealed does
    not unseal under "wrong-passphrase". *)
Example wrong_passphrase_rejected :
  exists blob,
    fst (encryptSecret passphrase_key counting_rng (zeros 64)) = Ok blob /\
    decryptSecret (Some "wrong-passphrase"%string) blob
    = Throw UnableToAuthenticate.
Proof.
  eexists. split; [vm_compute; reflexivity|]. vm_compute. reflexivity.
Qed.


(* --------------------------------------------------------------------- *)
(** ** Blobs shorter than the 28-byte prefix *)






(* --------------------------------------------------------------------- *)
(** ** Key derivation *)

Lemma hex_decode_length (n : nat) :
  forall l, List.length l = (2 * n)%nat -> forallb is_hex_char l = true ->
            List.length (Hex.decode l) = n.
Proof.
  induction n as [|n IH]; intros l Hl Hall.
  - destruct l; [reflexivity|discriminate].
  - destruct l as [|a [|b l]]; try (cbn in Hl; lia).
    cbn [forallb] in Hall.
    apply andb_prop in Hall as [Ha Hall]. apply andb_prop in Hall as [Hb Hall].
    cbn [Hex.decode]. unfold is_hex_char in Ha, Hb.
    destruct (Hex.digit (b2n a)); [|discriminate].
    destruct (Hex.digit (b2n b)); [|discriminate].
    cbn [List.length]. f_equal. apply IH; auto. cbn [List.length] in Hl. lia.
Qed.

(** A 64-character hex string and a passphrase both give 32 bytes. *)
Lemma getKey_hex_or_hash (key : string) (k : list byte) :
  base64_key_re (list_byte_of_string key) = false ->
  getKey (Some key) = Ok k -> List.length k = 32%nat.
Proof.
  intros Hb64 H. unfold getKey in H. destruct key as [|c key]; [discriminate|].
  remember (list_byte_of_string (String c key)) as kb eqn:Hkb. clear Hkb.
  destruct (hex_key_re kb) eqn:Hhex.
  - assert (Hd : k = Hex.decode kb) by congruence. subst k.
    unfold hex_key_re in Hhex.
    apply andb_prop in Hhex as [Hl Hall]. apply Nat.eqb_eq in Hl.
    apply (hex_decode_length 32); auto.
  - rewrite Hb64 in H.
    assert (Hd : k = Sha256.sha256 kb) by congruence. subst k.
    apply sha256_length.
Qed.

(** C5 (failing input). A 44-letter passphrase is neither a 64-character hex
    string nor a base64 string that decodes to 32 bytes, so it ought to be
    hashed to a 256-bit key; [getKey] takes it for base64 and returns 33
    bytes, which is not its SHA-256 digest, and every seal under it is
    refused for the key length. *)
Theorem getKey_passphrase_44 :
  String.length passphrase_44 = 44%nat /\
  hex_key_re (list_byte_of_string passphrase_44) = false /\
  List.length (Base64.decode (list_byte_of_string passphrase_44)) = 33%nat /\
  getKey (Some passphrase_44)
    = Ok (Base64.decode (list_byte_of_string passphrase_44)) /\
  getKey (Some passphrase_44)
    <> Ok (Sha256.sha256 (list_byte_of_string passphrase_44)) /\
  (forall rng s,
     fst (encryptSecret (Some passphrase_44) rng s) = Throw InvalidKeyLength).
Proof.
  split; [reflexivity|]. split; [vm_compute; reflexivity|].
  split; [vm_compute; reflexivity|]. split; [vm_compute; reflexivity|].
  split.
  - intros H. apply (f_equal (fun r => match r with
                                       | Ok k => List.length k
                                       | Throw _ => 0%nat
                                       end)) in H.
    rewrite sha256_length in H. vm_compute in H. discriminate.
  - intros rng s. unfold encryptSecret.
    replace (getKey (Some passphrase_44))
      with (Ok (Base64.decode (list_byte_of_string passphrase_44)))
      by (vm_compute; reflexivity).
    unfold randomBytes, createCipheriv, IV_LENGTH.
    cbn [seq map fst bind].
    replace (List.length (Base64.decode (list_byte_of_string passphrase_44)) =? 32)%nat
      with false by (vm_compute; reflexivity).
    reflexivity.
Qed.

(* ===================================================================== *)
(** * worker.ts: the pattern matcher *)
(* ===================================================================== *)

Section StringFacts.

Local Open Scope string_scope.

Lemma length_append (a b : string) :
  String.length (a ++ b) = (String.length a + String.length b)%nat.
Proof. induction a as [|c a IH]; cbn; auto. Qed.

Lemma substring_whole (s : string) : substring 0 (String.length s) s = s.
Proof. induction s as [|c s IH]; cbn; [reflexivity|now rewrite IH]. Qed.

Lemma substring_append (a b : string) (m : nat) :
  substring (String.length a) m (a ++ b) = substring 0 m b.
Proof. induction a as [|c a IH]; cbn; auto. Qed.

Lemma substring_split (n : nat) :
  forall s, (n <= String.length s)%nat ->
    s = substring 0 n s ++ substring n (String.length s - n) s.
Proof.
  induction n as [|n IH]; intros s H.
  - rewrite Nat.sub_0_r, substring_whole. now destruct s.
  - destruct s as [|c s]; cbn in H; [lia|].
    cbn. f_equal. apply IH. lia.
Qed.

End StringFacts.

(** A string that [endsWith] accepts is some prefix followed by the
    search string. *)
Lemma endsWith_suffix (s p : string) :
  endsWith s p = true -> exists pre, s = (pre ++ p)%string.
Proof.
  unfold endsWith.
  destruct (String.length p <=? String.length s)%nat eqn:Hle; [|discriminate].
  apply Nat.leb_le in Hle. intros Heq. apply String.eqb_eq in Heq.
  exists (substring 0 (String.length s - String.length p) s).
  etransitivity;
    [apply (substring_split (String.length s - String.length p)); lia|].
  f_equal.
  replace (String.length s - (String.length s - String.length p))%nat
    with (String.length p) by lia.
  exact Heq.
Qed.

(** C6. [matches(id, p)], which compares case-sensitively, is true exactly
    when [id] ends with the characters of [p]; being a function of its two
    arguments only, it reads and changes nothing else. *)
Theorem matches_iff_suffix (pub pat : string) :
  matches pub pat = true <-> exists pre, pub = (pre ++ pat)%string.
Proof.
  unfold matches. split; [apply endsWith_suffix|].
  intros (pre & ->). unfold endsWith. rewrite length_append.
  replace (String.length pat <=? String.length pre + String.length pat)%nat
    with true by (symmetry; apply Nat.leb_le; lia).
  replace (String.length pre + String.length pat - String.length pat)%nat
    with (String.length pre) by lia.
  rewrite substring_append, substring_whole. apply String.eqb_refl.
Qed.

(* ===================================================================== *)
(** * worker.ts: the fill loop *)
(* ===================================================================== *)

Arguments encryptSecret : simpl never.
Arguments conflicts : simpl never.

(** Refutes [H : run = None] for a closed run by evaluating whether the run
    has a result, without printing the state it reaches. *)
Ltac still_none H :=
  apply (f_equal (fun o => match o with Some _ => true | None => false end)) in H;
  vm_compute in H; discriminate.

Lemma search_stop (fuel : nat) (cfg : Config) (pat : string)
    (toGenerate : JsNumber) (found : nat) (w : World) :
  js_lt (js_of_nat found) toGenerate = false ->
  search fuel cfg pat toGenerate found w = (Returned, w).
Proof. intros H. destruct fuel; cbn [search]; now rewrite H. Qed.

Lemma search_O (cfg : Config) (pat : string) (toGenerate : JsNumber)
    (found : nat) (w : World) :
  js_lt (js_of_nat found) toGenerate = true ->
  search 0 cfg pat toGenerate found w = (Running, w).
Proof. intros H. cbn [search]. now rewrite H. Qed.

Lemma search_S (fuel : nat) (cfg : Config) (pat : string)
    (toGenerate : JsNumber) (found : nat) (w : World) :
  js_lt (js_of_nat found) toGenerate = true ->
  search (S fuel) cfg pat toGenerate found w =
    match body cfg pat found w with
    | Continue found' w' => search fuel cfg pat toGenerate found' w'
    | Abort e w' => (Thrown e, w')
    end.
Proof.
  intros H. cbn [search]. rewrite H. unfold body.
  destruct (generate w) as [kp w1].
  destruct (matches (kp_pub kp) pat); [|reflexivity].
  destruct (seal cfg kp w1) as [[enc|e] w2]; [|reflexivity].
  destruct (randomUUID w2) as [uuid w3].
  destruct (create _ w3) as [[u|e] w4]; [reflexivity|].
  destruct (not_P2002 e); reflexivity.
Qed.

(** C10. When MIN_BUFFER is NaN, [ensureBuffer] sends its count request and
    nothing else: whatever the pattern, the table and the fuel, it generates
    no keypair and attempts no insert, and it returns normally as soon as the
    store has answered the count (a rejected count request is the only error
    it can pass on). *)
Theorem ensureBuffer_NaN (cfg : Config) (fuel : nat) (pat : string) (w : World) :
  MIN_BUFFER cfg = NaN ->
  let (out, w') := ensureBuffer fuel cfg pat w in
  out = match faults w 0%nat with None => Returned | Some e => Thrown e end /\
  trace w' = EvCount pat :: trace w /\
  table w' = table w /\
  keygen w' = keygen w.
Proof.
  intros HNaN. unfold ensureBuffer, count, request, emit. cbn.
  destruct (faults w 0%nat) as [e|]; [repeat split|].
  rewrite HNaN. cbn.
  rewrite search_stop by reflexivity. repeat split.
Qed.

Lemma ensureBuffer_NaN_witness :
  let (out, w') :=
    ensureBuffer 7 (mkConfig passphrase_key ["AB"%string] NaN) "AB" empty_world in
  out = Returned /\ trace w' = [EvCount "AB"] /\ table w' = [] /\
  keygen w' = keygen empty_world.
Proof.
  exact (ensureBuffer_NaN (mkConfig passphrase_key ["AB"%string] NaN) 7 "AB"
           empty_world eq_refl).
Defined.

(* --------------------------------------------------------------------- *)
(** ** One pass through the loop body *)

Lemma conflicts_pub (r : Row) (rows : list Row) :
  In (publicKey r) (pubs rows) -> conflicts r rows = true.
Proof.
  intros H. unfold conflicts. apply existsb_exists.
  apply in_map_iff in H as (r' & Heq & Hin).
  exists r'. split; [exact Hin|].
  rewrite Heq, String.eqb_refl. apply orb_true_r.
Qed.

Lemma conflicts_false (r : Row) (rows : list Row) :
  conflicts r rows = false ->
  ~ In (publicKey r) (pubs rows) /\ ~ In (id r) (map id rows).
Proof.
  intros H. unfold conflicts in H.
  split; intros Hin; apply in_map_iff in Hin as (r' & Heq & Hin);
    (assert (Ht : existsb (fun r' => String.eqb (id r') (id r)
                            || String.eqb (publicKey r') (publicKey r)) rows = true);
     [apply existsb_exists; exists r'; split; [exact Hin|];
      rewrite Heq, String.eqb_refl; auto using orb_true_r
     |congruence]).
Qed.

(** The unique constraint on "publicKey" is kept by [create]. *)
Lemma create_keeps_unique (r : Row) (w : World) :
  NoDup (pubs (table w)) -> NoDup (pubs (table (snd (create r w)))).
Proof.
  intros H. unfold create, request, emit.
  cbn [table keygen entropy uuids faults trace].
  destruct (faults w 0%nat); [exact H|].
  destruct (conflicts r (table w)) eqn:Hc; [exact H|].
  cbn [snd table]. unfold pubs. rewrite map_app. cbn [map].
  apply conflicts_false in Hc as [Hc _].
  apply Permutation_NoDup with (l := publicKey r :: pubs (table w)).
  - apply Permutation_cons_append.
  - now constructor.
Qed.

Lemma seal_ok (cfg : Config) (kp : Keypair) (w : World) :
  key_ok (VANITY_ENCRYPTION_KEY cfg) ->
  exists enc rng,
    seal cfg kp w =
      (Ok enc, mkWorld (table w) (keygen w) rng (uuids w) (faults w)
                       (EvSeal (kp_pub kp) :: trace w)).
Proof.
  intros (key & Hk & Hlen). unfold seal.
  pose proof (encryptSecret_ok _ (entropy w) (kp_secretKey kp) key Hk Hlen) as H.
  destruct (encryptSecret _ (entropy w) (kp_secretKey kp)) as [r rng].
  cbn [fst] in H. subst r. eauto.
Qed.

Lemma seal_no_key (cfg : Config) (kp : Keypair) (w : World) :
  getKey (VANITY_ENCRYPTION_KEY cfg) = Throw KeyNotSet ->
  seal cfg kp w = (Throw KeyNotSet, w).
Proof.
  intros Hk. unfold seal, encryptSecret. rewrite Hk. now destruct w.
Qed.

(** What a pass can do to the table and to the count of found rows: nothing,
    or one more row of the pattern. A pass never sends a count request. *)
Lemma body_spec (cfg : Config) (pat : string) (found : nat) (w : World) :
  match body cfg pat found w with
  | Continue found' w' =>
      counted (trace w') = counted (trace w) /\
      ((found' = found /\ table w' = table w) \/
       (found' = S found /\
        exists r, table w' = table w ++ [r] /\ filled_row pat r))
  | Abort e w' =>
      counted (trace w') = counted (trace w) /\ table w' = table w
  end.
Proof.
  unfold body, generate.
  destruct (matches (kp_pub (keygen w 0%nat)) pat) eqn:Hm; [|cbn; auto].
  unfold seal. cbn [table keygen entropy uuids faults trace].
  destruct (encryptSecret _ _ _) as [[enc|e] rng]; [|cbn; auto].
  unfold randomUUID, create, request, emit. cbn.
  destruct (faults w 0%nat) as [e|].
  - destruct (not_P2002 e); cbn; auto.
  - match goal with
    | |- context [conflicts ?r ?t] => destruct (conflicts r t)
    end; cbn; [auto|].
    split; [reflexivity|]. right. split; [reflexivity|].
    eexists. split; [reflexivity|]. repeat split. exact Hm.
Qed.

(* --------------------------------------------------------------------- *)
(** ** Duplicates and store failures *)

(** C8. When the candidate of a pass matches, is sealed, and its insert is
    served by the store but meets a row with the same publicKey, [create]
    rejects with Prisma's code P2002, told apart from every other rejection
    by that code. The pass then counts nothing as found and does not abort:
    the loop goes on searching with the same count, the table is as before,
    and it holds exactly one row for that publicKey. *)
Theorem duplicate_is_skipped (fuel : nat) (cfg : Config) (pat : string)
    (toGenerate : JsNumber) (found : nat) (w : World) :
  let pub := kp_pub (keygen w 0%nat) in
  js_lt (js_of_nat found) toGenerate = true ->
  matches pub pat = true ->
  key_ok (VANITY_ENCRYPTION_KEY cfg) ->
  faults w 0%nat = None ->
  In pub (pubs (table w)) ->
  NoDup (pubs (table w)) ->
  exists row w3 w',
    publicKey row = pub /\
    create row w3 = (Throw (PrismaError "P2002"), w') /\
    not_P2002 (PrismaError "P2002") = false /\
    body cfg pat found w = Continue found w' /\
    search (S fuel) cfg pat toGenerate found w
      = search fuel cfg pat toGenerate found w' /\
    table w' = table w /\
    trace w' = EvInsert pub :: EvSeal pub :: EvGenerate pub :: trace w /\
    count_occ string_dec (pubs (table w')) pub = 1%nat.
Proof.
  intros pub Hlt Hm Hkey Hf Hin Hnd.
  destruct (seal_ok cfg (keygen w 0%nat) (snd (generate w)) Hkey)
    as (enc & rng & Hseal).
  unfold generate in Hseal.
  cbn [snd table keygen entropy uuids faults trace] in Hseal. fold pub in Hseal.
  set (row := mkRow (uuids w 0%nat) pub enc pat true "ready").
  set (w3 := mkWorld (table w) (tail_of (keygen w)) rng (tail_of (uuids w))
                     (faults w) (EvSeal pub :: EvGenerate pub :: trace w)).
  set (w' := mkWorld (table w) (tail_of (keygen w)) rng (tail_of (uuids w))
                     (tail_of (faults w))
                     (EvInsert pub :: EvSeal pub :: EvGenerate pub :: trace w)).
  assert (Hc : conflicts row (table w) = true) by now apply conflicts_pub.
  assert (Hcreate : create row w3 = (Throw (PrismaError "P2002"), w')).
  { unfold create, request, emit, w3, w'.
    cbn [table keygen entropy uuids faults trace]. rewrite Hf, Hc. reflexivity. }
  assert (Hbody : body cfg pat found w = Continue found w').
  { unfold body, generate. fold pub. rewrite Hm, Hseal.
    unfold randomUUID. cbn [table keygen entropy uuids faults trace].
    match goal with
    | |- context [create ?r ?x] => change (create r x) with (create row w3)
    end.
    rewrite Hcreate. reflexivity. }
  exists row, w3, w'.
  split; [reflexivity|]. split; [exact Hcreate|]. split; [reflexivity|].
  split; [exact Hbody|].
  split; [rewrite (search_S fuel cfg pat toGenerate found w Hlt), Hbody;
          reflexivity|].
  split; [reflexivity|]. split; [reflexivity|].
  cbn [table w']. now apply NoDup_count_occ'.
Qed.

Lemma duplicate_is_skipped_witness :
  exists row w3 w',
    publicKey row = pub_AB /\
    create row w3 = (Throw (PrismaError "P2002"), w') /\
    not_P2002 (PrismaError "P2002") = false /\
    body (mkConfig passphrase_key ["AB"%string] (Finite 3)) "AB" 0 taken_world
      = Continue 0 w' /\
    search 5 (mkConfig passphrase_key ["AB"%string] (Finite 3)) "AB" (Finite 2)
           0 taken_world
      = search 4 (mkConfig passphrase_key ["AB"%string] (Finite 3)) "AB"
               (Finite 2) 0 w' /\
    table w' = table taken_world /\
    trace w' = [EvInsert pub_AB; EvSeal pub_AB; EvGenerate pub_AB] /\
    count_occ string_dec (pubs (table w')) pub_AB = 1%nat.
Proof.
  apply (duplicate_is_skipped 4 (mkConfig passphrase_key ["AB"%string] (Finite 3))
           "AB" (Finite 2) 0 taken_world).
  - reflexivity.
  - reflexivity.
  - exact passphrase_key_ok.
  - reflexivity.
  - left. vm_compute. reflexivity.
  - unfold taken_world, pubs. cbn [table map].
    constructor; [intros []|constructor].
Defined.

Lemma search_counted (fuel : nat) (cfg : Config) (pat : string)
    (toGenerate : JsNumber) :
  forall found w,
    counted (trace (snd (search fuel cfg pat toGenerate found w)))
    = counted (trace w).
Proof.
  induction fuel as [|fuel IH]; intros found w;
    destruct (js_lt (js_of_nat found) toGenerate) eqn:Hlt.
  - now rewrite search_O.
  - now rewrite search_stop.
  - rewrite search_S by exact Hlt.
    pose proof (body_spec cfg pat found w) as Hb.
    destruct (body cfg pat found w) as [found' w'|e w'].
    + rewrite IH. tauto.
    + cbn [snd]. tauto.
  - now rewrite search_stop.
Qed.

Lemma ensureBuffer_counted (fuel : nat) (cfg : Config) (pat : string) (w : World) :
  counted (trace (snd (ensureBuffer fuel cfg pat w))) = pat :: counted (trace w).
Proof.
  unfold ensureBuffer, count, request, emit.
  cbn [table keygen entropy uuids faults trace].
  destruct (faults w 0%nat); [reflexivity|].
  destruct (js_ge _ _); [reflexivity|].
  now rewrite search_counted.
Qed.

Lemma for_targets_counted (fuel : nat) (cfg : Config) (ps : list string) :
  forall w w', for_targets fuel cfg ps w = Some w' ->
               counted (trace w') = rev ps ++ counted (trace w).
Proof.
  induction ps as [|p ps IH]; intros w w' H; cbn [for_targets] in H.
  - now injection H as <-.
  - pose proof (ensureBuffer_counted fuel cfg p w) as Hc.
    destruct (ensureBuffer fuel cfg p w) as [[| e |] w1]; cbn [snd] in Hc.
    + apply IH in H. rewrite H, Hc. cbn [rev]. now rewrite <- app_assoc.
    + apply IH in H. cbn [emit trace counted flat_map app] in H.
      fold (counted (trace w1)) in H.
      rewrite H, Hc. cbn [rev]. now rewrite <- app_assoc.
    + discriminate.
Qed.

Lemma cycles_counted (cycles fuel : nat) (cfg : Config) :
  forall w w', cycles_of cycles fuel cfg w = Some w' ->
    counted (trace w')
    = rev (List.concat (repeat (TARGETS cfg) cycles)) ++ counted (trace w).
Proof.
  induction cycles as [|n IH]; intros w w' H; cbn [cycles_of] in H.
  - now injection H as <-.
  - destruct (for_targets fuel cfg (TARGETS cfg) w) as [w1|] eqn:Hf;
      [|discriminate].
    apply IH in H. apply for_targets_counted in Hf.
    rewrite H, Hf. cbn [repeat List.concat]. rewrite rev_app_distr.
    now rewrite <- app_assoc.
Qed.

Lemma executeRaw_counted (w : World) :
  counted (trace (executeRaw w)) = counted (trace w).
Proof.
  unfold executeRaw, request, emit.
  cbn [table keygen entropy uuids faults trace].
  destruct (faults w 0%nat); reflexivity.
Qed.

Lemma ensureSchema_counted (w : World) :
  counted (trace (ensureSchema w)) = counted (trace w).
Proof. unfold ensureSchema. now rewrite !executeRaw_counted. Qed.

Lemma for_targets_running (fuel : nat) (cfg : Config) (ps : list string) :
  forall w, for_targets fuel cfg ps w = None ->
            exists p w1, In p ps /\ fst (ensureBuffer fuel cfg p w1) = Running.
Proof.
  induction ps as [|p ps IH]; intros w H; cbn [for_targets] in H.
  - discriminate.
  - destruct (ensureBuffer fuel cfg p w) as [[| e |] w1] eqn:He.
    + destruct (IH _ H) as (q & w2 & Hin & Hr). exists q, w2. split; [now right|auto].
    + destruct (IH _ H) as (q & w2 & Hin & Hr). exists q, w2. split; [now right|auto].
    + exists p, w. split; [now left|now rewrite He].
Qed.

(* --------------------------------------------------------------------- *)
(** ** Filling the buffer *)

Section IntegerThreshold.

Lemma js_lt_int (a b : Z) :
  js_lt (Finite (inject_Z a)) (Finite (inject_Z b)) = (a <? b)%Z.
Proof.
  unfold js_lt, Qltb, Qle_bool. cbn [inject_Z Qnum Qden].
  rewrite !Z.mul_1_r. symmetry. apply Z.ltb_antisym.
Qed.

Lemma js_ge_int (a b : Z) :
  js_ge (Finite (inject_Z a)) (Finite (inject_Z b)) = (b <=? a)%Z.
Proof.
  unfold js_ge. rewrite js_lt_int, Z.ltb_antisym. apply negb_involutive.
Qed.

(** [Math.max(0, MIN_BUFFER - ready)] for an integer threshold above [ready]. *)
Lemma toGenerate_int (n : Z) (r : nat) :
  (Z.of_nat r < n)%Z ->
  js_max (Finite 0) (js_sub (Finite (inject_Z n)) (js_of_nat r))
  = Finite (inject_Z (n - Z.of_nat r)).
Proof.
  intros H. unfold js_sub, js_of_nat, Qminus.
  rewrite <- inject_Z_opp, <- inject_Z_plus, Z.add_opp_r.
  unfold js_max. change 0%Q with (inject_Z 0). rewrite js_lt_int.
  replace (0 <? n - Z.of_nat r)%Z with true; [reflexivity|].
  symmetry. apply Z.ltb_lt. lia.
Qed.

End IntegerThreshold.

Lemma countReady_app (pat : string) (rows new : list Row) :
  Forall (filled_row pat) new ->
  countReady pat (rows ++ new) = (countReady pat rows + List.length new)%nat.
Proof.
  intros H. unfold countReady. rewrite filter_app, length_app. f_equal.
  induction H as [|r new (Hs & Hp & Hc & _) _ IH]; [reflexivity|].
  cbn [filter]. unfold is_ready at 1.
  rewrite Hs, Hp, Hc, !String.eqb_refl. cbn [andb List.length]. now rewrite IH.
Qed.

(** A fill that returns has added exactly the rows that were missing. *)
Lemma search_returned (cfg : Config) (pat : string) (k : Z) (fuel : nat) :
  forall found w w',
    search fuel cfg pat (Finite (inject_Z k)) found w = (Returned, w') ->
    (Z.of_nat found <= k)%Z ->
    exists new,
      table w' = table w ++ new /\ Forall (filled_row pat) new /\
      Z.of_nat (found + List.length new) = k.
Proof.
  induction fuel as [|fuel IH]; intros found w w' H Hle;
    destruct (js_lt (js_of_nat found) (Finite (inject_Z k))) eqn:Hlt.
  - rewrite search_O in H by exact Hlt. discriminate.
  - rewrite search_stop in H by exact Hlt. injection H as <-.
    unfold js_of_nat in Hlt. rewrite js_lt_int in Hlt.
    apply Z.ltb_ge in Hlt.
    exists []. rewrite app_nil_r. cbn [List.length].
    repeat split; [constructor|lia].
  - rewrite search_S in H by exact Hlt.
    unfold js_of_nat in Hlt. rewrite js_lt_int in Hlt. apply Z.ltb_lt in Hlt.
    pose proof (body_spec cfg pat found w) as Hb.
    destruct (body cfg pat found w) as [found' w1|e w1]; [|discriminate].
    destruct Hb as [_ [[-> Ht]|[-> (r & Ht & Hr)]]].
    + destruct (IH _ _ _ H Hle) as (new & Hn & Hall & Hk).
      exists new. rewrite <- Ht. auto.
    + destruct (IH _ _ _ H ltac:(lia)) as (new & Hn & Hall & Hk).
      exists (r :: new). rewrite Hn, Ht, <- app_assoc.
      repeat split; [now constructor|].
      cbn [List.length]. lia.
  - rewrite search_stop in H by exact Hlt. injection H as <-.
    unfold js_of_nat in Hlt. rewrite js_lt_int in Hlt.
    apply Z.ltb_ge in Hlt.
    exists []. rewrite app_nil_r. cbn [List.length].
    repeat split; [constructor|lia].
Qed.

Lemma seen_spec (pub : string) (seen : list string) :
  existsb (String.eqb pub) seen = true <-> In pub seen.
Proof.
  rewrite existsb_exists. split.
  - intros (x & Hin & Heq). apply String.eqb_eq in Heq. now subst.
  - intros Hin. exists pub. split; [exact Hin|apply String.eqb_refl].
Qed.

Lemma conflicts_fresh (r : Row) (rows : list Row) :
  ~ In (publicKey r) (pubs rows) -> ~ In (id r) (map id rows) ->
  conflicts r rows = false.
Proof.
  intros Hp Hi. unfold conflicts.
  destruct (existsb _ rows) eqn:He; [|reflexivity]. exfalso.
  apply existsb_exists in He as (r' & Hin & Hor).
  apply orb_prop in Hor as [Heq|Heq]; apply String.eqb_eq in Heq.
  - apply Hi. rewrite <- Heq. now apply in_map.
  - apply Hp. rewrite <- Heq. now apply in_map.
Qed.

(** With enough fresh matching candidates ahead, a working key and a store
    that serves, the loop comes to its end. *)
Lemma search_terminates (cfg : Config) (pat : string) (k : Z) :
  key_ok (VANITY_ENCRYPTION_KEY cfg) ->
  forall n found w,
    store_serves w -> fresh_uuids w ->
    (k - Z.of_nat found
     <= Z.of_nat (fresh_hits pat (pubs (table w)) n (keygen w)))%Z ->
    exists w', search n cfg pat (Finite (inject_Z k)) found w = (Returned, w').
Proof.
  intros Hkey. induction n as [|n IH]; intros found w Hs Hu Hhits;
    destruct (js_lt (js_of_nat found) (Finite (inject_Z k))) eqn:Hlt;
    try (eexists; apply search_stop; exact Hlt).
  - unfold js_of_nat in Hlt. rewrite js_lt_int in Hlt. apply Z.ltb_lt in Hlt.
    cbn [fresh_hits] in Hhits. lia.
  - rewrite search_S by exact Hlt.
    unfold js_of_nat in Hlt. rewrite js_lt_int in Hlt. apply Z.ltb_lt in Hlt.
    cbn [fresh_hits] in Hhits.
    set (pub := kp_pub (keygen w 0%nat)) in *.
    destruct (matches pub pat) eqn:Hm.
    + destruct (seal_ok cfg (keygen w 0%nat) (snd (generate w)) Hkey)
        as (enc & rng & Hseal).
      unfold generate in Hseal.
      cbn [snd table keygen entropy uuids faults trace] in Hseal.
      fold pub in Hseal.
      unfold body, generate. fold pub. rewrite Hm, Hseal.
      unfold randomUUID, create, request, emit.
      cbn [table keygen entropy uuids faults trace]. rewrite (Hs 0%nat).
      destruct Hu as [Hu1 Hu2].
      destruct (existsb (String.eqb pub) (pubs (table w))) eqn:Hseen;
        cbn [andb negb] in Hhits.
      * rewrite conflicts_pub by (now apply seen_spec).
        cbn [not_P2002 error_code String.eqb Ascii.eqb Bool.eqb negb].
        apply IH.
        -- intros i. apply (Hs (S i)).
        -- split; cbn [table uuids]; unfold tail_of;
             [intros i; apply Hu1|intros i j H; apply Hu2 in H; lia].
        -- exact Hhits.
      * rewrite conflicts_fresh.
        -- apply IH.
           ++ intros i. apply (Hs (S i)).
           ++ split; cbn [table uuids]; unfold tail_of.
              ** intros i. rewrite map_app. cbn [map id]. intros Hin.
                 apply in_app_or in Hin as [Hin|[Hin|[]]].
                 --- now apply (Hu1 (S i)).
                 --- apply Hu2 in Hin. lia.
              ** intros i j H. apply Hu2 in H. lia.
           ++ cbn [table keygen]. unfold pubs in *. rewrite map_app.
              cbn [map publicKey]. lia.
        -- cbn [publicKey]. intros Hin. apply seen_spec in Hin. congruence.
        -- cbn [id]. apply Hu1.
    + unfold body, generate. fold pub. rewrite Hm.
      cbn [andb] in Hhits.
      apply IH; [exact Hs|exact Hu|exact Hhits].
Qed.

(** A fill that finds the buffer full only counts. *)
Lemma ensureBuffer_full (fuel : nat) (cfg : Config) (pat : string) (w : World)
    (n : Z) :
  MIN_BUFFER cfg = Finite (inject_Z n) ->
  faults w 0%nat = None ->
  (n <= Z.of_nat (countReady pat (table w)))%Z ->
  ensureBuffer fuel cfg pat w
  = (Returned, mkWorld (table w) (keygen w) (entropy w) (uuids w)
                       (tail_of (faults w)) (EvCount pat :: trace w)).
Proof.
  intros Hmin Hf Hle. unfold ensureBuffer, count, request, emit.
  cbn [table keygen entropy uuids faults trace]. rewrite Hf, Hmin.
  unfold js_of_nat. rewrite js_ge_int.
  replace (n <=? Z.of_nat (countReady pat (table w)))%Z with true;
    [reflexivity|].
  symmetry. now apply Z.leb_le.
Qed.

Lemma tally_injective (i j : nat) : tally i = tally j -> i = j.
Proof.
  intros H. apply (f_equal String.length) in H.
  assert (Hl : forall k, String.length (tally k) = (k + 2)%nat)
    by (induction k; cbn; auto).
  rewrite !Hl in H. lia.
Qed.

(* --------------------------------------------------------------------- *)
(** ** Running without the encryption key *)

Lemma body_no_key (cfg : Config) (pat : string) (found : nat) (w : World) :
  getKey (VANITY_ENCRYPTION_KEY cfg) = Throw KeyNotSet ->
  let pub := kp_pub (keygen w 0%nat) in
  body cfg pat found w =
    if matches pub pat
    then Abort KeyNotSet (snd (generate w))
    else Continue found (snd (generate w)).
Proof.
  intros Hk pub. unfold body.
  destruct (generate w) as [kp w1] eqn:Hg.
  assert (Hkp : kp = keygen w 0%nat) by (unfold generate in Hg; congruence).
  subst kp. fold pub. cbn [snd].
  destruct (matches pub pat); [|reflexivity].
  now rewrite seal_no_key.
Qed.

Lemma search_no_key (cfg : Config) (pat : string) (toGenerate : JsNumber) :
  getKey (VANITY_ENCRYPTION_KEY cfg) = Throw KeyNotSet ->
  forall fuel found w,
    let (out, w') := search fuel cfg pat toGenerate found w in
    table w' = table w /\ writes (trace w') = writes (trace w) /\
    forall e, out = Thrown e -> e = KeyNotSet.
Proof.
  intros Hk. induction fuel as [|fuel IH]; intros found w;
    destruct (js_lt (js_of_nat found) toGenerate) eqn:Hlt;
    try (rewrite search_stop by exact Hlt; repeat split; discriminate).
  - rewrite search_O by exact Hlt. repeat split; discriminate.
  - rewrite search_S by exact Hlt. rewrite body_no_key by exact Hk.
    destruct (matches _ pat).
    + unfold generate. cbn [snd table trace writes filter].
      repeat split. now intros e [= <-].
    + specialize (IH found (snd (generate w))).
      destruct (search fuel cfg pat toGenerate found (snd (generate w)))
        as [out w'].
      unfold generate in IH. cbn [snd table trace writes filter] in IH.
      exact IH.
Qed.

Lemma ensureBuffer_no_key (cfg : Config) (fuel : nat) (pat : string) (w : World) :
  getKey (VANITY_ENCRYPTION_KEY cfg) = Throw KeyNotSet ->
  let (out, w') := ensureBuffer fuel cfg pat w in
  table w' = table w /\ writes (trace w') = writes (trace w) /\
  forall e, out = Thrown e -> e = KeyNotSet \/ faults w 0%nat = Some e.
Proof.
  intros Hk. unfold ensureBuffer, count, request, emit.
  cbn [table keygen entropy uuids faults trace].
  destruct (faults w 0%nat) as [e|].
  - repeat split. intros e' [= <-]. now right.
  - destruct (js_ge _ _); [repeat split; discriminate|].
    match goal with
    | |- context [search fuel cfg pat ?tg 0 ?w1] =>
        pose proof (search_no_key cfg pat tg Hk fuel 0%nat w1) as H;
        destruct (search fuel cfg pat tg 0 w1) as [out w']
    end.
    cbn [table trace writes filter] in H.
    destruct H as (Ht & Hw & He). repeat split; auto.
Qed.

Lemma for_targets_no_key (cfg : Config) (fuel : nat) (ps : list string) :
  getKey (VANITY_ENCRYPTION_KEY cfg) = Throw KeyNotSet ->
  forall w w', for_targets fuel cfg ps w = Some w' ->
               table w' = table w /\ writes (trace w') = writes (trace w).
Proof.
  intros Hk. induction ps as [|p ps IH]; intros w w' H; cbn [for_targets] in H.
  - injection H as <-. auto.
  - pose proof (ensureBuffer_no_key cfg fuel p w Hk) as Hb.
    destruct (ensureBuffer fuel cfg p w) as [[| e |] w1];
      destruct Hb as (Ht & Hw & _); [| |discriminate];
      apply IH in H as [Ht' Hw'].
    + split; congruence.
    + change (table (emit (EvError e) w1)) with (table w1) in Ht'.
      change (writes (trace (emit (EvError e) w1))) with (writes (trace w1))
        in Hw'.
      split; congruence.
Qed.

Lemma ensureSchema_no_writes (w : World) :
  table (ensureSchema w) = table w /\
  writes (trace (ensureSchema w)) = writes (trace w).
Proof.
  assert (H : forall v, table (executeRaw v) = table v /\
                        writes (trace (executeRaw v)) = writes (trace v)).
  { intros v. unfold executeRaw, request, emit.
    cbn [table keygen entropy uuids faults trace].
    destruct (faults v 0%nat); split; reflexivity. }
  unfold ensureSchema.
  destruct (H w), (H (executeRaw w)), (H (executeRaw (executeRaw w))).
  split; congruence.
Qed.

(* ===================================================================== *)
(** * Further properties of crypto.ts *)
(* ===================================================================== *)

Lemma getKey_throws (env_key : option string) (e : JsError) :
  getKey env_key = Throw e ->
  e = KeyNotSet /\ (env_key = None \/ env_key = Some EmptyString).
Proof.
  unfold getKey. destruct env_key as [[|c key]|].
  - intros [= <-]. auto.
  - destruct (hex_key_re _); [discriminate|].
    destruct (base64_key_re _); discriminate.
  - intros [= <-]. auto.
Qed.

(** What [encryptSecret] returns, by the outcome of [getKey]. *)
Lemma encryptSecret_cases (env_key : option string) (rng : Entropy)
    (plain : list byte) :
  encryptSecret env_key rng plain =
    match getKey env_key with
    | Throw e => (Throw e, rng)
    | Ok key =>
        (if (List.length key =? 32)%nat
         then Ok (blob_of key (fst (randomBytes IV_LENGTH rng)) plain)
         else Throw InvalidKeyLength,
         snd (randomBytes IV_LENGTH rng))
    end.
Proof.
  unfold encryptSecret. destruct (getKey env_key) as [key|e]; [|reflexivity].
  pose proof (randomBytes_length IV_LENGTH rng) as Hiv.
  destruct (randomBytes IV_LENGTH rng) as [iv rng']. cbn [fst snd] in *.
  f_equal. unfold createCipheriv.
  destruct iv as [|b iv]; [discriminate|].
  destruct (List.length key =? 32)%nat; [|reflexivity].
  unfold bind, blob_of.
  now destruct (Gcm.encrypt (Aes.encrypt_block key) (b :: iv) plain).
Qed.

Lemma blob_of_length (key iv plain : list byte) :
  List.length (blob_of key iv plain)
  = (List.length iv + 16 + List.length plain)%nat.
Proof.
  unfold blob_of, Gcm.encrypt.
  rewrite !length_app, (tag_length _ (aes_block_length key)),
    (gctr_length _ (aes_block_length key)).
  lia.
Qed.

(** A blob that [encryptSecret] returned unseals to what was sealed. *)
Lemma unseal_of_sealed (env_key : option string) (rng : Entropy)
    (plain blob : list byte) :
  fst (encryptSecret env_key rng plain) = Ok blob ->
  key_ok env_key /\ decryptSecret env_key blob = Ok plain.
Proof.
  rewrite encryptSecret_cases.
  destruct (getKey env_key) as [key|e] eqn:Hk; [|discriminate].
  cbn [fst]. destruct (List.length key =? 32)%nat eqn:Hlen; [|discriminate].
  apply Nat.eqb_eq in Hlen. intros Hb.
  assert (Hblob : blob = blob_of key (fst (randomBytes IV_LENGTH rng)) plain)
    by congruence.
  subst blob. clear Hb.
  split; [now exists key|].
  set (iv := fst (randomBytes IV_LENGTH rng)).
  assert (Hiv : List.length iv = 12%nat) by apply randomBytes_length.
  unfold blob_of.
  pose proof (gcm_decrypt_encrypt (Aes.encrypt_block key) (aes_block_length key)
                iv plain) as Hrt.
  pose proof (tag_length (Aes.encrypt_block key) (aes_block_length key) iv
                (fst (Gcm.encrypt (Aes.encrypt_block key) iv plain))) as Htag.
  destruct (Gcm.encrypt (Aes.encrypt_block key) iv plain) as [enc tag] eqn:Henc.
  assert (Htag' : List.length tag = 16%nat).
  { unfold Gcm.encrypt in Henc. injection Henc as <- <-. exact Htag. }
  rewrite (decryptSecret_parts env_key key iv tag enc Hk Hlen Hiv Htag').
  now rewrite Hrt.
Qed.

(** X1. A sealed blob is 28 bytes longer than the secret, starts with the
    12 bytes the random source handed out, and sealing uses up exactly those
    12 bytes. *)
Theorem sealed_blob_layout (env_key : option string) (rng : Entropy)
    (s blob : list byte) :
  fst (encryptSecret env_key rng s) = Ok blob ->
  List.length blob = (28 + List.length s)%nat /\
  firstn 12 blob = map rng (seq 0 12) /\
  (forall i, snd (encryptSecret env_key rng s) i = rng (12 + i)%nat).
Proof.
  rewrite encryptSecret_cases.
  destruct (getKey env_key) as [key|e]; [|discriminate].
  cbn [fst snd]. destruct (List.length key =? 32)%nat; [|discriminate].
  intros Hb.
  assert (Hblob : blob = blob_of key (fst (randomBytes IV_LENGTH rng)) s)
    by congruence.
  subst blob. clear Hb. split; [|split].
  - rewrite blob_of_length, randomBytes_length. unfold IV_LENGTH. lia.
  - unfold blob_of.
    set (iv := fst (randomBytes IV_LENGTH rng)).
    assert (Hiv : List.length iv = 12%nat) by apply randomBytes_length.
    destruct (Gcm.encrypt (Aes.encrypt_block key) iv s) as [enc tag].
    transitivity iv; [|reflexivity].
    rewrite <- Hiv, <- (Nat.add_0_r (List.length iv)), firstn_app_2.
    cbn [firstn]. apply app_nil_r.
  - intros i. reflexivity.
Qed.

Lemma sealed_blob_layout_witness :
  exists blob,
    fst (encryptSecret passphrase_key counting_rng (zeros 64)) = Ok blob /\
    List.length blob = 92%nat.
Proof.
  destruct (encryptSecret passphrase_key counting_rng (zeros 64))
    as [[blob|e] rng'] eqn:Henc.
  - exists blob. split; [reflexivity|].
    apply (sealed_blob_layout passphrase_key counting_rng (zeros 64) blob).
    now rewrite Henc.
  - exfalso. vm_compute in Henc. discriminate.
Defined.

(** X2. [encryptSecret] fails in two ways only. Without key material it
    throws 'VANITY_ENCRYPTION_KEY not set' before drawing any random byte;
    with material whose derived key is not 32 bytes long it draws the nonce
    and then throws node's invalid-key-length error. It returns a blob
    exactly when the derived key has 32 bytes. *)
Theorem encryptSecret_failures (env_key : option string) (rng : Entropy)
    (s : list byte) :
  (env_key = None \/ env_key = Some EmptyString ->
   encryptSecret env_key rng s = (Throw KeyNotSet, rng)) /\
  (forall key, getKey env_key = Ok key -> List.length key <> 32%nat ->
     encryptSecret env_key rng s
     = (Throw InvalidKeyLength, snd (randomBytes IV_LENGTH rng))) /\
  (forall e, fst (encryptSecret env_key rng s) = Throw e ->
     (e = KeyNotSet /\ (env_key = None \/ env_key = Some EmptyString)) \/
     (e = InvalidKeyLength /\
      exists key, getKey env_key = Ok key /\ List.length key <> 32%nat)) /\
  ((exists blob, fst (encryptSecret env_key rng s) = Ok blob) <-> key_ok env_key).
Proof.
  rewrite encryptSecret_cases. repeat split.
  - intros [-> | ->]; reflexivity.
  - intros key Hk Hlen. rewrite Hk.
    apply Nat.eqb_neq in Hlen. now rewrite Hlen.
  - intros e. destruct (getKey env_key) as [key|e'] eqn:Hk; cbn [fst].
    + destruct (List.length key =? 32)%nat eqn:Hlen; [discriminate|].
      intros [= <-]. right. split; [reflexivity|].
      exists key. split; [reflexivity|]. now apply Nat.eqb_neq.
    + intros [= <-]. left. now apply getKey_throws.
  - intros (blob & H). destruct (getKey env_key) as [key|e] eqn:Hk;
      cbn [fst] in H; [|discriminate].
    destruct (List.length key =? 32)%nat eqn:Hlen; [|discriminate].
    exists key. split; [exact Hk|]. now apply Nat.eqb_eq.
  - intros (key & Hk & Hlen). rewrite Hk, Hlen. cbn [fst Nat.eqb]. eauto.
Qed.

(** X3. Whenever [decryptSecret] returns, the key material derives a
    32-byte key, the blob has at least 16 bytes, and the plaintext is 28
    bytes shorter than the blob (empty for a blob of 16 to 28 bytes). *)
Theorem unseal_success_shape (env_key : option string) (blob plain : list byte) :
  decryptSecret env_key blob = Ok plain ->
  key_ok env_key /\
  (16 <= List.length blob)%nat /\
  List.length plain = (List.length blob - 28)%nat.
Proof.
  unfold decryptSecret. destruct (getKey env_key) as [key|e] eqn:Hk;
    [|discriminate].
  unfold bind at 1. unfold createCipheriv.
  destruct (subarray 0 IV_LENGTH blob) as [|b iv] eqn:Hiv; [discriminate|].
  destruct (List.length key =? 32)%nat eqn:Hlen; [|discriminate].
  unfold bind at 1. unfold setAuthTag.
  destruct (valid_tag_length _) eqn:Hvalid; [|discriminate].
  unfold bind.
  destruct (Gcm.decrypt _ _ _ _) as [p|] eqn:Hd; [|discriminate].
  intros [= <-].
  apply (gcm_decrypt_some _ (aes_block_length key)) in Hd as (_ & _ & Hp).
  split; [exists key; split; [exact Hk|now apply Nat.eqb_eq]|].
  unfold subarray, subarray_from, IV_LENGTH in *.
  rewrite length_firstn, length_skipn in Hvalid.
  rewrite length_skipn in Hp. split; [|exact Hp].
  unfold valid_tag_length in Hvalid.
  destruct (Nat.le_gt_cases 16 (List.length blob)) as [|Hs]; [assumption|].
  exfalso.
  replace (Nat.min (12 + 16 - 12) (List.length blob - 12))
    with (List.length blob - 12)%nat in Hvalid by lia.
  apply orb_prop in Hvalid as [Hv|Hv];
    [apply orb_prop in Hv as [Hv|Hv]; apply Nat.eqb_eq in Hv; lia|].
  apply andb_prop in Hv as [Hv _]. apply Nat.leb_le in Hv. lia.
Qed.

Lemma unseal_success_shape_witness :
  key_ok zero_key /\ (16 <= List.length short_blob)%nat /\
  List.length (@nil byte) = (List.length short_blob - 28)%nat.
Proof.
  apply (unseal_success_shape zero_key short_blob []).
  vm_compute. reflexivity.
Defined.

Lemma groups_length (q : nat) :
  forall r l fuel,
    List.length l = (4 * q + r)%nat -> (r < 4)%nat ->
    (List.length l <= fuel)%nat ->
    List.length (Base64.groups fuel l) = (3 * q + r * 3 / 4)%nat.
Proof.
  induction q as [|q IH]; intros r l fuel Hl Hr Hf.
  - assert (Hrl : r = List.length l) by lia. subst r. clear Hl.
    destruct l as [|a [|b [|c [|d l]]]]; cbn [List.length] in *; try lia;
      destruct fuel as [|fuel]; try lia; reflexivity.
  - destruct l as [|a [|b [|c [|d l]]]]; cbn [List.length] in *; try lia.
    destruct fuel as [|fuel]; [lia|].
    cbn [Base64.groups List.length].
    rewrite (IH r l fuel) by lia. lia.
Qed.

Lemma sextets_length (l : list byte) :
  (List.length (Base64.sextets l) <= List.length l)%nat.
Proof.
  induction l as [|c l IH]; cbn [Base64.sextets List.length]; [lia|].
  destruct (b2n c =? 61); [cbn; lia|].
  destruct (Base64.unbase64 (b2n c)); cbn [List.length]; lia.
Qed.

(** The number of bytes that base64 text decodes to: three for every four
    alphabet characters before the first padding character, and one or two
    for two or three left over. *)
Lemma base64_decode_length (l : list byte) :
  let n := List.length (Base64.sextets l) in
  List.length (Base64.decode l) = (3 * (n / 4) + (n mod 4) * 3 / 4)%nat.
Proof.
  cbv zeta. unfold Base64.decode.
  apply groups_length.
  - apply Nat.div_mod_eq.
  - apply Nat.mod_upper_bound. lia.
  - lia.
Qed.

(** X4. The key [getKey] derives is 32 bytes long for a 64-character hex
    string and for everything it hashes. For material it takes for base64
    (43 to 45 characters of the alphabet or '=') the key has at most 33
    bytes, and 32 exactly when 43 alphabet characters come before the first
    '='; only then can anything be sealed under it. *)
Theorem getKey_lengths (key : string) (k : list byte) :
  getKey (Some key) = Ok k ->
  let b := list_byte_of_string key in
  if hex_key_re b || negb (base64_key_re b)
  then List.length k = 32%nat
  else (List.length k <= 33)%nat /\
       (List.length k = 32%nat <-> List.length (Base64.sextets b) = 43%nat) /\
       (key_ok (Some key) <-> List.length (Base64.sextets b) = 43%nat).
Proof.
  intros Hk b.
  assert (Hget : getKey (Some key) =
                 if hex_key_re b then Ok (Hex.decode b)
                 else if base64_key_re b then Ok (Base64.decode b)
                 else Ok (Sha256.sha256 b)).
  { unfold getKey. destruct key; [discriminate|reflexivity]. }
  destruct (hex_key_re b) eqn:Hhex; cbn [orb].
  - rewrite Hget in Hk. injection Hk as <-.
    unfold hex_key_re in Hhex. apply andb_prop in Hhex as [Hl Hall].
    apply Nat.eqb_eq in Hl. now apply (hex_decode_length 32).
  - destruct (base64_key_re b) eqn:Hb64; cbn [negb].
    + rewrite Hget in Hk.
      assert (Hd : k = Base64.decode b) by congruence. subst k. clear Hk.
      pose proof (base64_decode_length b) as Hlen. cbv zeta in Hlen.
      pose proof (sextets_length b) as Hs.
      unfold base64_key_re in Hb64.
      apply andb_prop in Hb64 as [Hb64 _]. apply andb_prop in Hb64 as [_ Hmax].
      apply Nat.leb_le in Hmax.
      set (n := List.length (Base64.sextets b)) in *.
      pose proof (Nat.div_mod_eq n 4) as Hdm.
      pose proof (Nat.mod_upper_bound n 4 ltac:(lia)) as Hm.
      remember (n / 4)%nat as q eqn:Hq. remember (n mod 4)%nat as m eqn:Hmm.
      clear Hq Hmm.
      assert (Ht : (m * 3 / 4)%nat
                   = match m with 0 | 1 => 0 | 2 => 1 | _ => 2 end%nat)
        by (destruct m as [|[|[|[|m]]]]; try reflexivity; lia).
      remember (m * 3 / 4)%nat as t eqn:Htt. clear Htt.
      assert (H32 : List.length (Base64.decode b) = 32%nat <-> n = 43%nat)
        by (destruct m as [|[|[|[|m]]]]; lia).
      assert (Hbound : (List.length (Base64.decode b) <= 33)%nat)
        by (destruct m as [|[|[|[|m]]]]; lia).
      split; [lia|]. split; [exact H32|].
      rewrite <- H32. unfold key_ok. rewrite Hget. split.
      * intros (k' & Hk' & Hl'). congruence.
      * intros H. eauto.
    + rewrite Hget in Hk. injection Hk as <-. apply sha256_length.
Qed.

Lemma getKey_lengths_witness :
  key_ok (Some "AAAAAAAAAAAAAAAAAAAAAAAAAAAAAAAAAAAAAAAAAAA="%string).
Proof.
  pose proof (getKey_lengths "AAAAAAAAAAAAAAAAAAAAAAAAAAAAAAAAAAAAAAAAAAA="
                (zeros 32) ltac:(vm_compute; reflexivity)) as H.
  cbv zeta in H.
  replace (hex_key_re _ || negb (base64_key_re _)) with false in H
    by (vm_compute; reflexivity).
  apply H. vm_compute. reflexivity.
Defined.

Lemma xor_bytes_app (k1 k2 : list byte) :
  forall l,
    xor_bytes l (k1 ++ k2)
    = xor_bytes (firstn (List.length k1) l) k1
      ++ xor_bytes (skipn (List.length k1) l) k2.
Proof.
  induction k1 as [|b k1 IH]; intros l; cbn [app List.length firstn skipn].
  - reflexivity.
  - destruct l as [|a l]; [reflexivity|].
    cbn [xor_bytes firstn skipn app]. now rewrite IH.
Qed.

Lemma bxor_same_key (a b k : byte) : bxor (bxor a k) (bxor b k) = bxor a b.
Proof.
  apply b2n_inj. rewrite !b2n_bxor.
  rewrite (N.lxor_comm (b2n b) (b2n k)).
  rewrite N.lxor_assoc, <- (N.lxor_assoc (b2n k)).
  now rewrite N.lxor_nilpotent, N.lxor_0_l.
Qed.

Lemma xor_bytes_same_key (k : list byte) :
  forall a b,
    List.length a = List.length b -> (List.length a <= List.length k)%nat ->
    xor_bytes (xor_bytes a k) (xor_bytes b k) = xor_bytes a b.
Proof.
  induction k as [|x k IH]; intros [|a l] [|b m] Hl Hk;
    cbn [List.length] in *; try lia; try reflexivity.
  cbn [xor_bytes]. rewrite bxor_same_key. f_equal. apply IH; lia.
Qed.

Section KeystreamFacts.

Variable E : list byte -> list byte.
Hypothesis E_length : forall b, List.length (E b) = 16%nat.

Lemma keystream_length (n : nat) :
  forall cb, List.length (keystream E n cb) = (16 * n)%nat.
Proof.
  induction n as [|n IH]; intros cb; cbn [keystream]; [reflexivity|].
  rewrite length_app, E_length, IH. lia.
Qed.

(** Counter mode xors the data onto a key stream that depends on the key
    and the nonce only. *)
Lemma gctr_keystream (icb data : list byte) :
  Gcm.gctr E icb data = xor_bytes data (keystream E (List.length data) icb).
Proof.
  unfold Gcm.gctr, blocks.
  remember (List.length data) as n eqn:Hn.
  assert (Hle : (List.length data <= n)%nat) by lia. clear Hn.
  revert icb data Hle.
  induction n as [|n IH]; intros icb data Hle.
  - destruct data; [reflexivity|cbn in Hle; lia].
  - destruct data as [|a data]; [reflexivity|].
    cbn [chunks Gcm.gctr_blocks keystream].
    rewrite xor_bytes_app, E_length. f_equal.
    apply IH. rewrite length_skipn. cbn [List.length] in *. lia.
Qed.

End KeystreamFacts.

(** X5. [encryptSecret] takes its nonce from the random source and keeps no
    record of it. If the source hands out the same 12 bytes for two secrets
    of equal length under the same key material, the two blobs carry the
    same nonce and the xor of their ciphertexts is the xor of the secrets. *)
Theorem nonce_reuse_leaks_xor (env_key : option string) (rng : Entropy)
    (s1 s2 blob1 blob2 : list byte) :
  List.length s1 = List.length s2 ->
  fst (encryptSecret env_key rng s1) = Ok blob1 ->
  fst (encryptSecret env_key rng s2) = Ok blob2 ->
  firstn 12 blob1 = firstn 12 blob2 /\
  xor_bytes (skipn 28 blob1) (skipn 28 blob2) = xor_bytes s1 s2.
Proof.
  intros Hlen H1 H2.
  rewrite encryptSecret_cases in H1, H2.
  destruct (getKey env_key) as [key|e]; [|discriminate].
  cbn [fst] in H1, H2.
  destruct (List.length key =? 32)%nat; [|discriminate].
  set (iv := fst (randomBytes IV_LENGTH rng)) in *.
  assert (Hiv : List.length iv = 12%nat) by apply randomBytes_length.
  assert (Hb1 : blob1 = blob_of key iv s1) by congruence.
  assert (Hb2 : blob2 = blob_of key iv s2) by congruence.
  clear H1 H2. subst blob1 blob2.
  set (E := Aes.encrypt_block key).
  assert (Hnonce : forall s, firstn 12 (blob_of key iv s) = iv).
  { intros s. unfold blob_of.
    destruct (Gcm.encrypt (Aes.encrypt_block key) iv s) as [enc tag].
    rewrite <- Hiv, <- (Nat.add_0_r (List.length iv)), firstn_app_2.
    cbn [firstn]. apply app_nil_r. }
  split; [now rewrite !Hnonce|].
  assert (Hskip : forall s,
            skipn 28 (blob_of key iv s)
            = Gcm.gctr E (Gcm.inc32 (Gcm.j0 E iv)) s).
  { intros s. unfold blob_of, Gcm.encrypt. fold E.
    pose proof (tag_length E (aes_block_length key) iv
                  (Gcm.gctr E (Gcm.inc32 (Gcm.j0 E iv)) s)) as Htag.
    destruct (slices_of_blob iv _ (Gcm.gctr E (Gcm.inc32 (Gcm.j0 E iv)) s)
                Hiv Htag) as (_ & _ & H).
    exact H. }
  rewrite !Hskip.
  rewrite !(gctr_keystream E (aes_block_length key)), <- Hlen.
  apply xor_bytes_same_key; [exact Hlen|].
  rewrite (keystream_length E (aes_block_length key)). lia.
Qed.

Lemma nonce_reuse_leaks_xor_witness :
  exists blob1 blob2,
    fst (encryptSecret passphrase_key counting_rng (zeros 64)) = Ok blob1 /\
    fst (encryptSecret passphrase_key counting_rng (repeat xff 64)) = Ok blob2 /\
    xor_bytes (skipn 28 blob1) (skipn 28 blob2)
    = xor_bytes (zeros 64) (repeat xff 64).
Proof.
  destruct (encryptSecret passphrase_key counting_rng (zeros 64))
    as [[blob1|e1] r1] eqn:H1; [|exfalso; vm_compute in H1; discriminate].
  destruct (encryptSecret passphrase_key counting_rng (repeat xff 64))
    as [[blob2|e2] r2] eqn:H2; [|exfalso; vm_compute in H2; discriminate].
  exists blob1, blob2. split; [reflexivity|]. split; [reflexivity|].
  apply (nonce_reuse_leaks_xor passphrase_key counting_rng (zeros 64)
           (repeat xff 64) blob1 blob2).
  - reflexivity.
  - now rewrite H1.
  - now rewrite H2.
Defined.

(* ===================================================================== *)
(** * Further properties of worker.ts: what a run writes *)
(* ===================================================================== *)

Lemma NoDup_snoc {A : Type} (l : list A) (x : A) :
  NoDup l -> ~ In x l -> NoDup (l ++ [x]).
Proof.
  intros Hl Hx.
  apply Permutation_NoDup with (l := x :: l);
    [apply Permutation_cons_append|now constructor].
Qed.

(** One pass, with what the new row records. *)
Lemma body_rows (cfg : Config) (pat : string) (found : nat) (w : World) :
  match body cfg pat found w with
  | Continue found' w' =>
      keygen w' = tail_of (keygen w) /\
      ((found' = found /\ table w' = table w) \/
       (found' = S found /\
        exists r, table w' = table w ++ [r] /\
                  row_of_candidate cfg pat (keygen w 0%nat) r /\
                  ~ In (publicKey r) (pubs (table w)) /\
                  ~ In (id r) (map id (table w))))
  | Abort e w' => keygen w' = tail_of (keygen w) /\ table w' = table w
  end.
Proof.
  unfold body, generate.
  destruct (matches (kp_pub (keygen w 0%nat)) pat) eqn:Hm; [|cbn; auto].
  unfold seal. cbn [table keygen entropy uuids faults trace].
  destruct (encryptSecret (VANITY_ENCRYPTION_KEY cfg) (entropy w)
              (kp_secretKey (keygen w 0%nat))) as [[enc|e] rng] eqn:Henc;
    [|cbn; auto].
  assert (Hun : decryptSecret (VANITY_ENCRYPTION_KEY cfg) enc
                = Ok (kp_secretKey (keygen w 0%nat))).
  { apply (unseal_of_sealed _ (entropy w)). now rewrite Henc. }
  unfold randomUUID, create, request, emit. cbn.
  destruct (faults w 0%nat) as [e|].
  - destruct (not_P2002 e); cbn; auto.
  - match goal with
    | |- context [conflicts ?r ?t] => destruct (conflicts r t) eqn:Hc
    end; cbn; [auto|].
    split; [reflexivity|]. right. split; [reflexivity|].
    apply conflicts_false in Hc as [Hp Hi].
    eexists. split; [reflexivity|]. split; [|split; [exact Hp|exact Hi]].
    repeat split; auto.
Qed.

Lemma grown_refl (cfg : Config) (pats : list string) (w w' : World) :
  table w' = table w -> keygen w' = keygen w -> grown_by cfg pats w w' [] 0.
Proof.
  intros Ht Hk. unfold grown_by. rewrite Ht, Hk, app_nil_r.
  split; [reflexivity|]. split; [reflexivity|]. split; [constructor|auto].
Qed.

Lemma grown_trans (cfg : Config) (pats : list string) (w w1 w2 : World)
    (new1 new2 : list Row) (k1 k2 : nat) :
  grown_by cfg pats w w1 new1 k1 -> grown_by cfg pats w1 w2 new2 k2 ->
  grown_by cfg pats w w2 (new1 ++ new2) (k1 + k2).
Proof.
  intros (Ht1 & Hk1 & Hr1 & Hu1) (Ht2 & Hk2 & Hr2 & Hu2).
  unfold grown_by. split; [|split; [|split]].
  - now rewrite Ht2, Ht1, app_assoc.
  - intros i. rewrite Hk2, Hk1. f_equal. lia.
  - apply Forall_app. split.
    + eapply Forall_impl; [|exact Hr1].
      intros r (i & pat & Hi & Hin & Hrow). exists i, pat.
      split; [lia|]. split; [exact Hin|exact Hrow].
    + eapply Forall_impl; [|exact Hr2].
      intros r (i & pat & Hi & Hin & Hrow). exists (k1 + i)%nat, pat.
      rewrite <- Hk1. split; [lia|]. split; [exact Hin|exact Hrow].
  - auto.
Qed.

Lemma grown_more_patterns (cfg : Config) (pats pats' : list string)
    (w w' : World) (new : list Row) (k : nat) :
  (forall p, In p pats -> In p pats') ->
  grown_by cfg pats w w' new k -> grown_by cfg pats' w w' new k.
Proof.
  intros Hsub (Ht & Hk & Hr & Hu). unfold grown_by.
  split; [exact Ht|]. split; [exact Hk|]. split; [|exact Hu].
  eapply Forall_impl; [|exact Hr].
  intros r (i & pat & Hi & Hin & Hrow). exists i, pat. auto.
Qed.

Lemma body_grown (cfg : Config) (pat : string) (found : nat) (w : World) :
  exists new,
    grown_by cfg [pat] w
      (match body cfg pat found w with Continue _ w' | Abort _ w' => w' end)
      new 1.
Proof.
  pose proof (body_rows cfg pat found w) as H.
  destruct (body cfg pat found w) as [found' w'|e w'].
  - destruct H as [Hk [[_ Ht]|[_ (r & Ht & Hrow & Hp & Hi)]]].
    + exists []. unfold grown_by. rewrite Ht, Hk, app_nil_r.
      split; [reflexivity|]. split; [reflexivity|]. split; [constructor|auto].
    + exists [r]. unfold grown_by. rewrite Ht, Hk.
      split; [reflexivity|]. split; [reflexivity|]. split.
      * constructor; [|constructor]. exists 0%nat, pat.
        split; [lia|]. split; [now left|exact Hrow].
      * intros [Hu1 Hu2]. unfold unique_keys, pubs in *.
        rewrite !map_app. cbn [map].
        split; apply NoDup_snoc; auto.
  - destruct H as [Hk Ht]. exists []. unfold grown_by.
    rewrite Ht, Hk, app_nil_r.
    split; [reflexivity|]. split; [reflexivity|]. split; [constructor|auto].
Qed.

Lemma search_grown (cfg : Config) (pat : string) (toGenerate : JsNumber)
    (fuel : nat) :
  forall found w,
    exists new k,
      grown_by cfg [pat] w (snd (search fuel cfg pat toGenerate found w)) new k.
Proof.
  induction fuel as [|fuel IH]; intros found w;
    destruct (js_lt (js_of_nat found) toGenerate) eqn:Hlt.
  - rewrite search_O by exact Hlt. exists [], 0%nat. now apply grown_refl.
  - rewrite search_stop by exact Hlt. exists [], 0%nat. now apply grown_refl.
  - rewrite search_S by exact Hlt.
    destruct (body_grown cfg pat found w) as (new1 & H1).
    destruct (body cfg pat found w) as [found' w'|e w'].
    + destruct (IH found' w') as (new2 & k2 & H2).
      exists (new1 ++ new2), (1 + k2)%nat. eapply grown_trans; eauto.
    + exists new1, 1%nat. exact H1.
  - rewrite search_stop by exact Hlt. exists [], 0%nat. now apply grown_refl.
Qed.

Lemma ensureBuffer_grown (cfg : Config) (fuel : nat) (pat : string) (w : World) :
  exists new k,
    grown_by cfg [pat] w (snd (ensureBuffer fuel cfg pat w)) new k.
Proof.
  unfold ensureBuffer, count, request, emit.
  cbn [table keygen entropy uuids faults trace].
  destruct (faults w 0%nat); [exists [], 0%nat; now apply grown_refl|].
  destruct (js_ge _ _); [exists [], 0%nat; now apply grown_refl|].
  match goal with
  | |- context [search fuel cfg pat ?tg 0 ?w1] =>
      destruct (search_grown cfg pat tg fuel 0%nat w1) as (new & k & H)
  end.
  exists new, k. exact H.
Qed.

(** X6. Whatever its outcome (returned, thrown, still searching), a fill
    only appends to the table, and every row it appends was made from a
    generated candidate whose publicKey matches the pattern: the row carries
    that publicKey, the pattern, status 'ready', and a blob that unseals
    under the same key material to that candidate's secret key. *)
Theorem fill_stores_sealed_matches (cfg : Config) (fuel : nat) (pat : string)
    (w : World) :
  exists new,
    table (snd (ensureBuffer fuel cfg pat w)) = table w ++ new /\
    Forall (fun r => exists i,
              publicKey r = kp_pub (keygen w i) /\
              pattern r = pat /\ caseSensitive r = true /\
              status r = "ready"%string /\
              matches (publicKey r) pat = true /\
              decryptSecret (VANITY_ENCRYPTION_KEY cfg) (encSecret r)
              = Ok (kp_secretKey (keygen w i))) new.
Proof.
  destruct (ensureBuffer_grown cfg fuel pat w) as (new & k & Ht & _ & Hr & _).
  exists new. split; [exact Ht|].
  eapply Forall_impl; [|exact Hr].
  intros r (i & p & _ & [<-|[]] & (Hp & Hpat & Hc & Hs & Hm & Hd)).
  exists i. rewrite Hp. repeat split; auto.
Qed.

(* --------------------------------------------------------------------- *)
(** ** Thresholds that are not integers *)

Lemma Qltb_lt (x y : Q) : Qltb x y = true <-> (x < y)%Q.
Proof.
  unfold Qltb. rewrite negb_true_iff. split.
  - intros H. apply Qnot_le_lt. intros Hle.
    apply Qle_bool_iff in Hle. congruence.
  - intros H. destruct (Qle_bool y x) eqn:Hb; [|reflexivity].
    apply Qle_bool_iff in Hb. exfalso. now apply (Qlt_not_le x y).
Qed.

(** An integer is below a rational exactly when it is below its ceiling. *)
Lemma js_lt_ceiling (f : Z) (t : Q) :
  js_lt (Finite (inject_Z f)) (Finite t) = (f <? Qceiling t)%Z.
Proof.
  unfold js_lt. destruct (Z.ltb_spec f (Qceiling t)) as [H|H].
  - apply Qltb_lt. apply Qnot_le_lt. intros Hle.
    apply Qceiling_resp_le in Hle. rewrite Qceiling_Z in Hle. lia.
  - destruct (Qltb (inject_Z f) t) eqn:Hb; [|reflexivity].
    apply Qltb_lt in Hb. exfalso.
    apply (Qlt_not_le _ _ Hb).
    eapply Qle_trans; [apply Qle_ceiling|]. now rewrite <- Zle_Qle.
Qed.

(** The loop condition once [ready] rows are taken off the threshold. *)
Lemma js_lt_need (f r : nat) (q : Q) :
  js_lt (js_of_nat f) (Finite (q - inject_Z (Z.of_nat r)))
  = (Z.of_nat f <? Qceiling q - Z.of_nat r)%Z.
Proof.
  transitivity (js_lt (Finite (inject_Z (Z.of_nat f + Z.of_nat r))) (Finite q)).
  - unfold js_lt, js_of_nat. rewrite inject_Z_plus.
    destruct (Qltb (inject_Z (Z.of_nat f) + inject_Z (Z.of_nat r)) q) eqn:Hb.
    + apply Qltb_lt. apply Qltb_lt in Hb. lra.
    + destruct (Qltb (inject_Z (Z.of_nat f)) (q - inject_Z (Z.of_nat r)))
        eqn:Hc; [|reflexivity].
      apply Qltb_lt in Hc.
      assert (Ht : Qltb (inject_Z (Z.of_nat f) + inject_Z (Z.of_nat r)) q = true)
        by (apply Qltb_lt; lra).
      congruence.
  - rewrite js_lt_ceiling.
    destruct (Z.ltb_spec (Z.of_nat f + Z.of_nat r) (Qceiling q));
      destruct (Z.ltb_spec (Z.of_nat f) (Qceiling q - Z.of_nat r)); lia.
Qed.

Lemma toGenerate_finite (q : Q) (r : nat) :
  js_ge (js_of_nat r) (Finite q) = false ->
  js_max (Finite 0) (js_sub (Finite q) (js_of_nat r))
  = Finite (q - inject_Z (Z.of_nat r)).
Proof.
  unfold js_ge, js_of_nat, js_sub, js_max, js_lt. intros H.
  apply negb_false_iff in H. apply Qltb_lt in H.
  replace (Qltb 0 (q - inject_Z (Z.of_nat r))) with true; [reflexivity|].
  symmetry. apply Qltb_lt. lra.
Qed.

Section CountedLoop.

Variables (cfg : Config) (pat : string) (toGenerate : JsNumber) (k : Z).
Hypothesis threshold :
  forall f, js_lt (js_of_nat f) toGenerate = (Z.of_nat f <? k)%Z.

(** The loop never finds more than it was asked for. *)
Lemma search_count (fuel : nat) :
  forall found w,
    (Z.of_nat found <= k)%Z ->
    exists new,
      table (snd (search fuel cfg pat toGenerate found w)) = table w ++ new /\
      (Z.of_nat (found + List.length new) <= k)%Z /\
      (fst (search fuel cfg pat toGenerate found w) = Returned ->
       Z.of_nat (found + List.length new) = k).
Proof.
  induction fuel as [|fuel IH]; intros found w Hle;
    destruct (js_lt (js_of_nat found) toGenerate) eqn:Hlt.
  - rewrite search_O by exact Hlt. exists []. cbn [fst snd List.length].
    rewrite app_nil_r. split; [reflexivity|]. split; [lia|discriminate].
  - rewrite search_stop by exact Hlt. exists []. cbn [fst snd List.length].
    rewrite threshold in Hlt. apply Z.ltb_ge in Hlt.
    rewrite app_nil_r. split; [reflexivity|]. split; lia.
  - rewrite search_S by exact Hlt.
    rewrite threshold in Hlt. apply Z.ltb_lt in Hlt.
    pose proof (body_spec cfg pat found w) as Hb.
    destruct (body cfg pat found w) as [found' w1|e w1].
    + destruct Hb as [_ [[-> Ht]|[-> (r & Ht & _)]]].
      * destruct (IH found w1 Hle) as (new & Hn & Hk & Hr).
        exists new. rewrite Hn, Ht. auto.
      * destruct (IH (S found) w1 ltac:(lia)) as (new & Hn & Hk & Hr).
        exists (r :: new). rewrite Hn, Ht, <- app_assoc.
        cbn [List.length app]. split; [reflexivity|].
        split; [lia|]. intros H. specialize (Hr H). lia.
    + destruct Hb as [_ Ht]. exists []. cbn [fst snd List.length].
      rewrite Ht, app_nil_r. split; [reflexivity|]. split; [lia|discriminate].
  - rewrite search_stop by exact Hlt. exists []. cbn [fst snd List.length].
    rewrite threshold in Hlt. apply Z.ltb_ge in Hlt.
    rewrite app_nil_r. split; [reflexivity|]. split; lia.
Qed.

End CountedLoop.

Lemma grown_rows_filled (cfg : Config) (pat : string) (w w' : World)
    (new : list Row) (k : nat) :
  grown_by cfg [pat] w w' new k -> Forall (filled_row pat) new.
Proof.
  intros (_ & _ & Hr & _). eapply Forall_impl; [|exact Hr].
  intros r (i & p & _ & [<-|[]] & (Hp & Hpat & Hc & Hs & Hm & _)).
  unfold filled_row. rewrite Hp. auto.
Qed.

(** X7. For a finite MIN_BUFFER [q], integer or not, let [r] be the ready
    count of the pattern. Whatever its outcome, a fill appends at most
    max(0, ceil(q) - r) rows, and exactly as many when it returns; the ready
    count of the pattern rises by the number of rows appended. *)
Theorem fill_never_overfills (cfg : Config) (fuel : nat) (pat : string)
    (w : World) (q : Q) :
  MIN_BUFFER cfg = Finite q ->
  let r := countReady pat (table w) in
  let need := Z.max 0 (Qceiling q - Z.of_nat r) in
  let (out, w') := ensureBuffer fuel cfg pat w in
  exists new,
    table w' = table w ++ new /\
    (Z.of_nat (List.length new) <= need)%Z /\
    (out = Returned -> Z.of_nat (List.length new) = need) /\
    countReady pat (table w') = (r + List.length new)%nat.
Proof.
  intros Hmin r need.
  destruct (ensureBuffer_grown cfg fuel pat w) as (new0 & k0 & Hg).
  pose proof (grown_rows_filled _ _ _ _ _ _ Hg) as Hfilled.
  destruct Hg as (Hg & _).
  assert (Hfinish : forall new,
            table (snd (ensureBuffer fuel cfg pat w)) = table w ++ new ->
            countReady pat (table (snd (ensureBuffer fuel cfg pat w)))
            = (r + List.length new)%nat).
  { intros new Hn. rewrite Hn in Hg. apply app_inv_head in Hg. subst new0.
    rewrite Hn. now apply countReady_app. }
  clear Hg Hfilled new0 k0.
  unfold ensureBuffer, count, request, emit in *.
  cbn [table keygen entropy uuids faults trace] in *.
  destruct (faults w 0%nat).
  { exists []. cbn [snd table List.length] in *. rewrite app_nil_r.
    split; [reflexivity|]. split; [lia|]. split; [discriminate|].
    apply (Hfinish []). now rewrite app_nil_r. }
  rewrite Hmin in *. fold r in Hfinish |- *.
  destruct (js_ge (js_of_nat r) (Finite q)) eqn:Hge.
  - exists []. cbn [snd table List.length] in *. rewrite app_nil_r.
    assert (Hle : (Qceiling q - Z.of_nat r <= 0)%Z).
    { unfold js_ge, js_of_nat in Hge. rewrite js_lt_ceiling in Hge.
      apply negb_true_iff, Z.ltb_ge in Hge. lia. }
    split; [reflexivity|]. split; [lia|]. split; [lia|].
    apply (Hfinish []). now rewrite app_nil_r.
  - rewrite toGenerate_finite in * by exact Hge.
    assert (Hpos : (0 < Qceiling q - Z.of_nat r)%Z).
    { unfold js_ge, js_of_nat in Hge. rewrite js_lt_ceiling in Hge.
      apply negb_false_iff, Z.ltb_lt in Hge. lia. }
    match goal with
    | |- context [search fuel cfg pat ?tg 0 ?w1] =>
        destruct (search_count cfg pat tg (Qceiling q - Z.of_nat r)
                    (fun f => js_lt_need f r q) fuel 0%nat w1 ltac:(lia))
          as (new & Hn & Hk & Hr);
        destruct (search fuel cfg pat tg 0 w1) as [out w'] eqn:Hs
    end.
    cbn [fst snd table] in *. exists new.
    split; [exact Hn|]. split; [lia|]. split; [intros H; specialize (Hr H); lia|].
    now apply Hfinish.
Qed.

Lemma fill_never_overfills_witness :
  let (out, w') := ensureBuffer 5 half_config "AB" fresh_world in
  exists new,
    table w' = table fresh_world ++ new /\
    (Z.of_nat (List.length new) <= 3)%Z /\
    (out = Returned -> Z.of_nat (List.length new) = 3%Z) /\
    countReady "AB" (table w') = (0 + List.length new)%nat.
Proof.
  exact (fill_never_overfills half_config 5 "AB" fresh_world (5 # 2) eq_refl).
Defined.

(* --------------------------------------------------------------------- *)
(** ** MIN_BUFFER set to Infinity *)

Lemma search_endless_not_returned (cfg : Config) (pat : string) (fuel : nat) :
  forall found w, fst (search fuel cfg pat PosInf found w) <> Returned.
Proof.
  induction fuel as [|fuel IH]; intros found w.
  - rewrite search_O by reflexivity. discriminate.
  - rewrite search_S by reflexivity.
    destruct (body cfg pat found w) as [found' w'|e w'];
      [apply IH|discriminate].
Qed.

(** With a working key and a store that serves, the endless loop stores
    every fresh matching candidate it meets. *)
Lemma search_endless_stores (cfg : Config) (pat : string) :
  key_ok (VANITY_ENCRYPTION_KEY cfg) ->
  forall n found w,
    store_serves w -> fresh_uuids w ->
    exists w',
      search n cfg pat PosInf found w = (Running, w') /\
      List.length (table w')
      = (List.length (table w) + fresh_hits pat (pubs (table w)) n (keygen w))%nat.
Proof.
  intros Hkey. induction n as [|n IH]; intros found w Hs Hu.
  - rewrite search_O by reflexivity. exists w. cbn [fresh_hits]. split; [reflexivity|lia].
  - rewrite search_S by reflexivity. cbn [fresh_hits].
    set (pub := kp_pub (keygen w 0%nat)) in *.
    destruct (matches pub pat) eqn:Hm.
    + destruct (seal_ok cfg (keygen w 0%nat) (snd (generate w)) Hkey)
        as (enc & rng & Hseal).
      unfold generate in Hseal.
      cbn [snd table keygen entropy uuids faults trace] in Hseal.
      fold pub in Hseal.
      unfold body, generate. fold pub. rewrite Hm, Hseal.
      unfold randomUUID, create, request, emit.
      cbn [table keygen entropy uuids faults trace]. rewrite (Hs 0%nat).
      destruct Hu as [Hu1 Hu2].
      destruct (existsb (String.eqb pub) (pubs (table w))) eqn:Hseen;
        cbn [andb negb].
      * rewrite conflicts_pub by (now apply seen_spec).
        cbn [not_P2002 error_code String.eqb Ascii.eqb Bool.eqb negb].
        match goal with
        | |- context [search n cfg pat PosInf found ?w1] =>
            destruct (IH found w1) as (w' & Hw' & Hlen)
        end.
        -- intros i. apply (Hs (S i)).
        -- split; cbn [table uuids]; unfold tail_of;
             [intros i; apply Hu1|intros i j H; apply Hu2 in H; lia].
        -- exists w'. split; [exact Hw'|exact Hlen].
      * rewrite conflicts_fresh.
        -- match goal with
           | |- context [search n cfg pat PosInf (S found) ?w1] =>
               destruct (IH (S found) w1) as (w' & Hw' & Hlen)
           end.
           ++ intros i. apply (Hs (S i)).
           ++ split; cbn [table uuids]; unfold tail_of.
              ** intros i. rewrite map_app. cbn [map id]. intros Hin.
                 apply in_app_or in Hin as [Hin|[Hin|[]]].
                 --- now apply (Hu1 (S i)).
                 --- apply Hu2 in Hin. lia.
              ** intros i j H. apply Hu2 in H. lia.
           ++ exists w'. split; [exact Hw'|].
              rewrite Hlen. cbn [table keygen]. unfold pubs.
              rewrite map_app, length_app. cbn [map publicKey List.length]. lia.
        -- cbn [publicKey]. intros Hin. apply seen_spec in Hin. congruence.
        -- cbn [id]. apply Hu1.
    + unfold body, generate. fold pub. rewrite Hm. cbn [andb].
      match goal with
      | |- context [search n cfg pat PosInf found ?w1] =>
          destruct (IH found w1 Hs Hu) as (w' & Hw' & Hlen)
      end.
      exists w'. split; [exact Hw'|exact Hlen].
Qed.

(** X8. With MIN_BUFFER set to Infinity a fill never returns: it ends with
    an error or goes on searching. With a key that AES accepts, a store that
    serves and fresh ids it goes on for ever, and after any number of passes
    it has stored every candidate so far that matches the pattern and whose
    publicKey was new: the pool grows without bound. *)
Theorem endless_fill (cfg : Config) (fuel : nat) (pat : string) (w : World) :
  MIN_BUFFER cfg = PosInf ->
  fst (ensureBuffer fuel cfg pat w) <> Returned /\
  (key_ok (VANITY_ENCRYPTION_KEY cfg) -> store_serves w -> fresh_uuids w ->
   exists w',
     ensureBuffer fuel cfg pat w = (Running, w') /\
     List.length (table w')
     = (List.length (table w)
        + fresh_hits pat (pubs (table w)) fuel (keygen w))%nat).
Proof.
  intros Hmin. unfold ensureBuffer, count, request, emit.
  cbn [table keygen entropy uuids faults trace]. rewrite Hmin. split.
  - destruct (faults w 0%nat); [discriminate|].
    cbn [js_ge js_of_nat js_lt negb js_sub js_max].
    apply search_endless_not_returned.
  - intros Hkey Hs Hu. rewrite (Hs 0%nat).
    cbn [js_ge js_of_nat js_lt negb js_sub js_max].
    match goal with
    | |- context [search fuel cfg pat PosInf 0 ?w1] =>
        destruct (search_endless_stores cfg pat Hkey fuel 0%nat w1)
          as (w' & Hw' & Hlen)
    end.
    + intros i. apply (Hs (S i)).
    + exact Hu.
    + exists w'. split; [exact Hw'|exact Hlen].
Qed.

Lemma endless_fill_witness :
  fst (ensureBuffer 6 endless_config "AB" fresh_world) <> Returned /\
  exists w',
    ensureBuffer 6 endless_config "AB" fresh_world = (Running, w') /\
    List.length (table w') = 3%nat.
Proof.
  destruct (endless_fill endless_config 6 "AB" fresh_world eq_refl)
    as [Hnot Hrun].
  split; [exact Hnot|].
  destruct (Hrun passphrase_key_ok) as (w' & Hw' & Hlen).
  - intros i. reflexivity.
  - split; [intros i []|apply tally_injective].
  - exists w'. split; [exact Hw'|]. rewrite Hlen. reflexivity.
Defined.

(* --------------------------------------------------------------------- *)
(** ** What the controller writes *)

Lemma for_targets_grown (cfg : Config) (fuel : nat) (pats ps : list string) :
  (forall p, In p ps -> In p pats) ->
  forall w w', for_targets fuel cfg ps w = Some w' ->
               exists new k, grown_by cfg pats w w' new k.
Proof.
  induction ps as [|p ps IH]; intros Hsub w w' H; cbn [for_targets] in H.
  - injection H as <-. exists [], 0%nat. now apply grown_refl.
  - destruct (ensureBuffer_grown cfg fuel p w) as (new1 & k1 & H1).
    apply (grown_more_patterns cfg [p] pats) in H1;
      [|intros q [<-|[]]; apply Hsub; now left].
    assert (Hsub' : forall q, In q ps -> In q pats)
      by (intros q Hq; apply Hsub; now right).
    destruct (ensureBuffer fuel cfg p w) as [[| e |] w1]; cbn [snd] in H1.
    + destruct (IH Hsub' _ _ H) as (new2 & k2 & H2).
      exists (new1 ++ new2), (k1 + k2)%nat. eapply grown_trans; eauto.
    + destruct (IH Hsub' _ _ H) as (new2 & k2 & H2).
      exists (new1 ++ new2), (k1 + k2)%nat.
      eapply grown_trans; [exact H1|].
      destruct H2 as (Ht & Hk & Hr & Hu).
      unfold grown_by. auto.
    + discriminate.
Qed.

Lemma cycles_grown (cfg : Config) (fuel cycles : nat) :
  forall w w', cycles_of cycles fuel cfg w = Some w' ->
               exists new k, grown_by cfg (TARGETS cfg) w w' new k.
Proof.
  induction cycles as [|n IH]; intros w w' H; cbn [cycles_of] in H.
  - injection H as <-. exists [], 0%nat. now apply grown_refl.
  - destruct (for_targets fuel cfg (TARGETS cfg) w) as [w1|] eqn:Hf;
      [|discriminate].
    apply (for_targets_grown cfg fuel (TARGETS cfg)) in Hf as (new1 & k1 & H1);
      [|auto].
    destruct (IH _ _ H) as (new2 & k2 & H2).
    exists (new1 ++ new2), (k1 + k2)%nat. eapply grown_trans; eauto.
Qed.

Lemma ensureSchema_same (w : World) :
  table (ensureSchema w) = table w /\ keygen (ensureSchema w) = keygen w.
Proof.
  assert (H : forall v, table (executeRaw v) = table v /\
                        keygen (executeRaw v) = keygen v).
  { intros v. unfold executeRaw, request, emit.
    cbn [table keygen entropy uuids faults trace].
    destruct (faults v 0%nat); split; reflexivity. }
  unfold ensureSchema.
  destruct (H w), (H (executeRaw w)), (H (executeRaw (executeRaw w))).
  split; congruence.
Qed.

(** X9. After any number of completed rounds of [main] the table is the
    table it started from with rows appended: nothing was deleted or
    changed. If no two rows shared a publicKey or an id at the start, none
    do at the end. Every appended row has one of the configured patterns, a
    publicKey that matches it, status 'ready', and a blob that unseals to
    the secret key of the generated candidate with that publicKey. *)
Theorem main_appends_unique_rows (cycles fuel : nat) (cfg : Config)
    (w w' : World) :
  main cycles fuel cfg w = Some w' ->
  unique_keys (table w) ->
  exists new,
    table w' = table w ++ new /\
    unique_keys (table w') /\
    Forall (fun r =>
              In (pattern r) (TARGETS cfg) /\ status r = "ready"%string /\
              caseSensitive r = true /\
              matches (publicKey r) (pattern r) = true /\
              exists i,
                publicKey r = kp_pub (keygen w i) /\
                decryptSecret (VANITY_ENCRYPTION_KEY cfg) (encSecret r)
                = Ok (kp_secretKey (keygen w i))) new.
Proof.
  intros H Hu. unfold main in H.
  destruct (ensureSchema_same w) as [Ht Hk].
  apply cycles_grown in H as (new & k & Hg & _ & Hr & Huu).
  rewrite Ht in Hg. exists new. split; [exact Hg|]. split.
  - apply Huu. now rewrite Ht.
  - eapply Forall_impl; [|exact Hr].
    intros r (i & p & _ & Hin & (Hp & Hpat & Hc & Hs & Hm & Hd)).
    rewrite Hk in Hp, Hm, Hd. rewrite Hpat, Hp.
    split; [exact Hin|]. split; [exact Hs|]. split; [exact Hc|].
    split; [exact Hm|]. exists i. auto.
Qed.

Lemma main_appends_unique_rows_witness :
  exists w' new,
    main 2 5 three_AB fresh_world = Some w' /\
    table w' = table fresh_world ++ new /\
    unique_keys (table w') /\
    List.length new = 3%nat.
Proof.
  destruct (main 2 5 three_AB fresh_world) as [w'|] eqn:Hmain;
    [|exfalso; still_none Hmain].
  destruct (main_appends_unique_rows 2 5 three_AB fresh_world w' Hmain)
    as (new & Ht & Hu & _).
  - split; constructor.
  - exists w', new. split; [reflexivity|]. split; [exact Ht|].
    split; [exact Hu|].
    assert (Hlen : List.length (table w') = 3%nat).
    { apply (f_equal (option_map (fun v => List.length (table v)))) in Hmain.
      vm_compute in Hmain. now injection Hmain. }
    rewrite Ht in Hlen. exact Hlen.
Defined.

(* --------------------------------------------------------------------- *)
(** ** Key material that cannot be used *)

Lemma seal_unusable (cfg : Config) (kp : Keypair) (w : World) :
  ~ key_ok (VANITY_ENCRYPTION_KEY cfg) ->
  exists e rng,
    seal cfg kp w = (Throw e, mkWorld (table w) (keygen w) rng (uuids w)
                                      (faults w) (trace w)) /\
    (e = KeyNotSet \/ e = InvalidKeyLength).
Proof.
  intros Hno. unfold seal. rewrite encryptSecret_cases.
  destruct (getKey (VANITY_ENCRYPTION_KEY cfg)) as [key|e] eqn:Hk.
  - destruct (List.length key =? 32)%nat eqn:Hlen.
    + exfalso. apply Hno. exists key. split; [exact Hk|now apply Nat.eqb_eq].
    + eauto.
  - apply getKey_throws in Hk as [-> _]. eauto.
Qed.

Lemma search_unusable (cfg : Config) (pat : string) (toGenerate : JsNumber) :
  ~ key_ok (VANITY_ENCRYPTION_KEY cfg) ->
  forall fuel found w,
    let (out, w') := search fuel cfg pat toGenerate found w in
    table w' = table w /\ writes (trace w') = writes (trace w) /\
    forall e, out = Thrown e -> e = KeyNotSet \/ e = InvalidKeyLength.
Proof.
  intros Hno. induction fuel as [|fuel IH]; intros found w;
    destruct (js_lt (js_of_nat found) toGenerate) eqn:Hlt;
    try (rewrite search_stop by exact Hlt; repeat split; discriminate).
  - rewrite search_O by exact Hlt. repeat split; discriminate.
  - rewrite search_S by exact Hlt. unfold body.
    destruct (generate w) as [kp w1] eqn:Hg.
    assert (Hw1 : table w1 = table w /\ writes (trace w1) = writes (trace w))
      by (unfold generate in Hg; injection Hg as <- <-; split; reflexivity).
    destruct Hw1 as [Ht1 Hw1].
    destruct (matches (kp_pub kp) pat).
    + destruct (seal_unusable cfg kp w1 Hno) as (e & rng & Hseal & He).
      rewrite Hseal. cbn [table trace].
      split; [exact Ht1|]. split; [exact Hw1|]. now intros e' [= <-].
    + specialize (IH found w1).
      destruct (search fuel cfg pat toGenerate found w1) as [out w'].
      destruct IH as (Ht & Hw & He). split; [congruence|]. split; [congruence|].
      exact He.
Qed.

Lemma ensureBuffer_unusable (cfg : Config) (fuel : nat) (pat : string)
    (w : World) :
  ~ key_ok (VANITY_ENCRYPTION_KEY cfg) ->
  let (out, w') := ensureBuffer fuel cfg pat w in
  table w' = table w /\ writes (trace w') = writes (trace w) /\
  forall e, out = Thrown e ->
            e = KeyNotSet \/ e = InvalidKeyLength \/ faults w 0%nat = Some e.
Proof.
  intros Hno. unfold ensureBuffer, count, request, emit.
  cbn [table keygen entropy uuids faults trace].
  destruct (faults w 0%nat) as [e|].
  - repeat split. intros e' [= <-]. auto.
  - destruct (js_ge _ _); [repeat split; discriminate|].
    match goal with
    | |- context [search fuel cfg pat ?tg 0 ?w1] =>
        pose proof (search_unusable cfg pat tg Hno fuel 0%nat w1) as H;
        destruct (search fuel cfg pat tg 0 w1) as [out w']
    end.
    cbn [table trace writes filter] in H.
    destruct H as (Ht & Hw & He). split; [exact Ht|]. split; [exact Hw|].
    intros e Hout. destruct (He e Hout); auto.
Qed.

(** X10. When the key material is missing or derives a key that is not 32
    bytes long (as a 44-letter passphrase does), the worker never writes:
    whatever a fill does, it leaves the table as it was and neither seals
    nor sends an insert, and the only errors it throws are the missing key,
    node's invalid key length, or a rejection of its count query. The same
    holds for any number of completed rounds of [main]. *)
Theorem unusable_key_never_writes (cfg : Config) :
  ~ key_ok (VANITY_ENCRYPTION_KEY cfg) ->
  (forall fuel pat w,
     let (out, w') := ensureBuffer fuel cfg pat w in
     table w' = table w /\ writes (trace w') = writes (trace w) /\
     forall e, out = Thrown e ->
               e = KeyNotSet \/ e = InvalidKeyLength \/ faults w 0%nat = Some e) /\
  (forall cycles fuel w w',
     main cycles fuel cfg w = Some w' ->
     table w' = table w /\ writes (trace w') = writes (trace w)).
Proof.
  intros Hno. split.
  - intros fuel pat w. now apply ensureBuffer_unusable.
  - assert (Hfor : forall fuel ps v v', for_targets fuel cfg ps v = Some v' ->
                   table v' = table v /\ writes (trace v') = writes (trace v)).
    { intros fuel. induction ps as [|p ps IH]; intros v v' H;
        cbn [for_targets] in H.
      - injection H as <-. auto.
      - pose proof (ensureBuffer_unusable cfg fuel p v Hno) as Hb.
        destruct (ensureBuffer fuel cfg p v) as [[| e |] v1];
          destruct Hb as (Ht & Hw & _); [| |discriminate];
          apply IH in H as [Ht' Hw'].
        + split; congruence.
        + change (table (emit (EvError e) v1)) with (table v1) in Ht'.
          change (writes (trace (emit (EvError e) v1)))
            with (writes (trace v1)) in Hw'.
          split; congruence. }
    intros cycles fuel w w' H. unfold main in H.
    destruct (ensureSchema_no_writes w) as [Ht Hw].
    assert (Hc : forall c v v', cycles_of c fuel cfg v = Some v' ->
                 table v' = table v /\ writes (trace v') = writes (trace v)).
    { induction c as [|c IH]; intros v v' Hv; cbn [cycles_of] in Hv.
      - injection Hv as <-. auto.
      - destruct (for_targets fuel cfg (TARGETS cfg) v) as [v1|] eqn:Hf;
          [|discriminate].
        apply Hfor in Hf as [? ?]. apply IH in Hv as [? ?].
        split; congruence. }
    destruct (Hc _ _ _ H). split; congruence.
Qed.

Lemma passphrase_44_unusable : ~ key_ok (Some passphrase_44).
Proof.
  intros (key & Hk & Hlen). vm_compute in Hk. injection Hk as <-.
  vm_compute in Hlen. discriminate.
Qed.

Lemma unusable_key_never_writes_witness :
  let (out, w') := ensureBuffer 2 passphrase_44_config "SB" snow_world in
  table w' = [] /\ writes (trace w') = [] /\
  forall e, out = Thrown e ->
            e = KeyNotSet \/ e = InvalidKeyLength \/ None = Some e.
Proof.
  exact (proj1 (unusable_key_never_writes passphrase_44_config
                  passphrase_44_unusable) 2%nat "SB"%string snow_world).
Defined.

(* ===================================================================== *)
(** * Further properties of worker.ts: the list of patterns *)
(* ===================================================================== *)

Section PatternList.

Lemma split_comma_no_comma (s : JsString) :
  forall p, In p (split_comma s) -> ~ In 44 p.
Proof.
  induction s as [|c s IH]; intros p Hin; cbn [split_comma] in Hin.
  - destruct Hin as [<-|[]]. intros [].
  - destruct (c =? 44) eqn:Hc.
    + destruct Hin as [<-|Hin]; [intros []|now apply IH].
    + apply N.eqb_neq in Hc.
      destruct (split_comma s) as [|piece more] eqn:Hs.
      * destruct Hin as [<-|[]]. intros [->|[]]. now apply Hc.
      * destruct Hin as [<-|Hin].
        -- intros [->|Hin]; [now apply Hc|].
           apply (IH piece); [now left|exact Hin].
        -- apply IH. now right.
Qed.

Lemma trim_start_chars (s : JsString) (c : N) :
  In c (trim_start s) -> In c s.
Proof.
  induction s as [|a s IH]; cbn [trim_start]; [auto|].
  destruct (is_space a); [|auto].
  intros H. right. now apply IH.
Qed.

Lemma trim_end_chars (s : JsString) (c : N) :
  In c (trim_end s) -> In c s.
Proof.
  induction s as [|a s IH]; cbn [trim_end]; [auto|].
  destruct (trim_end s) as [|b kept].
  - destruct (is_space a); [intros []|].
    intros [->|[]]. now left.
  - intros [->|H]; [now left|]. right. apply IH. exact H.
Qed.

Lemma trim_start_head (s : JsString) (c : N) (rest : JsString) :
  trim_start s = c :: rest -> is_space c = false.
Proof.
  induction s as [|a s IH]; cbn [trim_start]; [discriminate|].
  destruct (is_space a) eqn:Ha; [exact IH|].
  intros [= <- _]. exact Ha.
Qed.

Lemma trim_end_idempotent (s : JsString) : trim_end (trim_end s) = trim_end s.
Proof.
  induction s as [|a s IH]; cbn [trim_end]; [reflexivity|].
  destruct (trim_end s) as [|b kept] eqn:Hs.
  - destruct (is_space a) eqn:Ha; [reflexivity|].
    cbn [trim_end]. now rewrite Ha.
  - change (match trim_end (b :: kept) with
            | [] => if is_space a then [] else [a]
            | x :: k => a :: x :: k
            end = a :: b :: kept).
    now rewrite IH.
Qed.

Lemma trim_end_head (s : JsString) (c : N) (rest : JsString) :
  trim_end s = c :: rest -> exists rest', s = c :: rest'.
Proof.
  destruct s as [|a s]; cbn [trim_end]; [discriminate|].
  destruct (trim_end s); [destruct (is_space a); [discriminate|]|];
    intros [= <- _]; eauto.
Qed.

(** What [trim_end] keeps does not end with white space. *)
Lemma trim_end_last (s : JsString) :
  forall init c, trim_end s = init ++ [c] -> is_space c = false.
Proof.
  induction s as [|a s IH]; intros init c; cbn [trim_end].
  - destruct init; discriminate.
  - destruct (trim_end s) as [|b kept] eqn:Hs.
    + destruct (is_space a) eqn:Ha; [destruct init; discriminate|].
      destruct init as [|i [|j init]]; [|discriminate|discriminate].
      intros [= <-]. exact Ha.
    + destruct init as [|i init]; [discriminate|].
      intros [= _ H]. now apply (IH init c).
Qed.

Lemma trim_idempotent (s : JsString) : trim (trim s) = trim s.
Proof.
  unfold trim.
  destruct (trim_end (trim_start s)) as [|c rest] eqn:Ht; [reflexivity|].
  destruct (trim_end_head _ _ _ Ht) as (rest' & Hs).
  apply trim_start_head in Hs.
  cbn [trim_start]. rewrite Hs. rewrite <- Ht. apply trim_end_idempotent.
Qed.

End PatternList.

(** X11. Whatever code units VANITY_PATTERNS holds, every pattern of
    TARGETS is non-empty, contains no comma, and neither begins nor ends
    with white space or a line terminator; an unset or empty variable gives
    the two default patterns. So the worker never fills the empty pattern,
    which every publicKey would match. *)
Theorem targets_well_formed (env_patterns : option JsString) (p : JsString) :
  In p (parse_targets env_patterns) ->
  p <> [] /\
  ~ In 44 p /\
  trim p = p /\
  (forall c rest, p = c :: rest -> is_space c = false) /\
  (forall init c, p = init ++ [c] -> is_space c = false) /\
  parse_targets None = [js_of_string "SNOW"; js_of_string "SB"] /\
  parse_targets (Some []) = [js_of_string "SNOW"; js_of_string "SB"] /\
  (forall pub, matches pub EmptyString = true).
Proof.
  unfold parse_targets at 1. intros Hin.
  apply filter_In in Hin as [Hin Htruthy].
  apply in_map_iff in Hin as (piece & <- & Hpiece).
  split; [intros H; rewrite H in Htruthy; discriminate|].
  split.
  { intros Hc. apply (split_comma_no_comma _ _ Hpiece).
    unfold trim in Hc. now apply trim_start_chars, trim_end_chars. }
  split; [apply trim_idempotent|].
  split.
  { intros c rest H. unfold trim in H.
    destruct (trim_end_head _ _ _ H) as (rest' & Hs).
    now apply trim_start_head in Hs. }
  split; [intros init c H; now apply (trim_end_last _ init c H)|].
  split; [reflexivity|]. split; [reflexivity|].
  intros pub. unfold matches, endsWith. cbn [String.length Nat.leb].
  rewrite Nat.sub_0_r.
  assert (H : forall n s, substring n 0 s = EmptyString)
    by (induction n; destruct s; cbn; auto).
  now rewrite H.
Qed.

Lemma targets_well_formed_witness :
  parse_targets (Some spaced_patterns)
  = [js_of_string "SNOW"; js_of_string "SB"] /\
  js_of_string "SB" <> [] /\
  ~ In 44 (js_of_string "SB") /\
  trim (js_of_string "SB") = js_of_string "SB".
Proof.
  split; [reflexivity|].
  destruct (targets_well_formed (Some spaced_patterns) (js_of_string "SB"))
    as (H1 & H2 & H3 & _).
  - change (In (js_of_string "SB") [js_of_string "SNOW"; js_of_string "SB"]).
    right. now left.
  - auto.
Defined.

(* ===================================================================== *)
(** * Further properties of worker.ts: the schema statements *)
(* ===================================================================== *)

(** One statement: a request, whose failure is logged. *)
Lemma executeRaw_step (w : World) :
  table (executeRaw w) = table w /\
  keygen (executeRaw w) = keygen w /\
  faults (executeRaw w) = tail_of (faults w) /\
  trace (executeRaw w) = match faults w 0%nat with
                         | Some e => EvError e :: EvRequest :: trace w
                         | None => EvRequest :: trace w
                         end.
Proof.
  unfold executeRaw, request, emit.
  cbn [table keygen entropy uuids faults trace].
  destruct (faults w 0%nat); repeat split.
Qed.

(** X12. [ensureSchema] sends its three statements whatever the store
    answers: a statement that fails is logged and the next one is sent all
    the same. It never throws, it leaves the table and the key generator
    alone, and it logs exactly the failures of those three statements, in
    order. *)
Theorem ensureSchema_sends_all (w : World) :
  requests (trace (ensureSchema w)) = (3 + requests (trace w))%nat /\
  logged (trace (ensureSchema w)) = rev (next_faults 3 (faults w)) ++ logged (trace w) /\
  (forall i, faults (ensureSchema w) i = faults w (3 + i)%nat) /\
  table (ensureSchema w) = table w /\
  keygen (ensureSchema w) = keygen w /\
  counted (trace (ensureSchema w)) = counted (trace w).
Proof.
  unfold ensureSchema.
  destruct (executeRaw_step w) as (T1 & K1 & F1 & R1).
  destruct (executeRaw_step (executeRaw w)) as (T2 & K2 & F2 & R2).
  destruct (executeRaw_step (executeRaw (executeRaw w))) as (T3 & K3 & F3 & R3).
  rewrite T3, T2, T1, K3, K2, K1, R3, F3, F2, R2, F1, R1.
  unfold tail_of. cbn [next_faults]. unfold tail_of.
  destruct (faults w 0%nat), (faults w 1%nat), (faults w 2%nat);
    repeat split.
Qed.

(* ===================================================================== *)
(** * The variant without a try around the schema statements *)
(* ===================================================================== *)

Lemma executeRaw_strict_ok (w : World) :
  faults w 0%nat = None -> executeRaw_strict w = (Ok tt, executeRaw w).
Proof.
  intros H. unfold executeRaw_strict, executeRaw, request, emit.
  cbn [table keygen entropy uuids faults trace]. now rewrite H.
Qed.

(** The state a rejected statement leaves is, once the error is logged, the
    state the tolerant statement leaves. *)
Lemma executeRaw_strict_throw (w : World) (e : JsError) :
  faults w 0%nat = Some e ->
  exists w1, executeRaw_strict w = (Throw e, w1) /\
             emit (EvError e) w1 = executeRaw w.
Proof.
  intros H. unfold executeRaw_strict, executeRaw, request, emit.
  cbn [table keygen entropy uuids faults trace]. rewrite H.
  eexists. split; reflexivity.
Qed.

(** X13. In the variant whose [ensureSchema] awaits its statements without a
    try, the first statement the store rejects ends the process: [main]
    rejects with that error and exits with code 1, having sent no further
    statement, counted no pattern and generated no key. When the store
    serves the three statements the variant runs exactly as worker.ts. *)
Theorem strict_schema_stops_main (cycles fuel : nat) (cfg : Config) (w : World) :
  ((forall i, (i < 3)%nat -> faults w i = None) ->
   main_strict cycles fuel cfg w = Cycling (main cycles fuel cfg w)) /\
  (forall j e,
     (j < 3)%nat -> faults w j = Some e ->
     (forall i, (i < j)%nat -> faults w i = None) ->
     exists w',
       main_strict cycles fuel cfg w = Exited 1 e w' /\
       requests (trace w') = (S j + requests (trace w))%nat /\
       logged (trace w') = e :: logged (trace w) /\
       counted (trace w') = counted (trace w) /\
       generated (trace w') = generated (trace w) /\
       table w' = table w).
Proof.
  destruct (executeRaw_step w) as (T1 & K1 & F1 & R1).
  destruct (executeRaw_step (executeRaw w)) as (T2 & K2 & F2 & R2).
  destruct (executeRaw_step (executeRaw (executeRaw w))) as (T3 & K3 & F3 & R3).
  rewrite F2, F1 in R3. rewrite F1 in R2. unfold tail_of in R2, R3.
  assert (H1 : faults (executeRaw w) 0%nat = faults w 1%nat)
    by now rewrite F1.
  assert (H2 : faults (executeRaw (executeRaw w)) 0%nat = faults w 2%nat)
    by now rewrite F2, F1.
  unfold main_strict, main, ensureSchema_strict, ensureSchema.
  split.
  - intros Hnone.
    rewrite (executeRaw_strict_ok w) by (apply Hnone; lia).
    rewrite (executeRaw_strict_ok (executeRaw w))
      by (rewrite H1; apply Hnone; lia).
    rewrite (executeRaw_strict_ok (executeRaw (executeRaw w)))
      by (rewrite H2; apply Hnone; lia).
    reflexivity.
  - intros j e Hj Hf Hbefore.
    destruct j as [|[|[|j]]]; [| | |lia].
    + destruct (executeRaw_strict_throw w e Hf) as (v & -> & Hv).
      exists (emit (EvError e) v). split; [reflexivity|].
      rewrite Hv, T1, R1, Hf. repeat split.
    + rewrite (executeRaw_strict_ok w) by (apply Hbefore; lia).
      rewrite <- H1 in Hf.
      destruct (executeRaw_strict_throw _ e Hf) as (v & -> & Hv).
      exists (emit (EvError e) v). split; [reflexivity|].
      rewrite Hv, T2, T1, R2, R1. rewrite H1 in Hf. rewrite Hf.
      rewrite (Hbefore 0%nat) by lia. repeat split.
    + rewrite (executeRaw_strict_ok w) by (apply Hbefore; lia).
      rewrite (executeRaw_strict_ok (executeRaw w))
        by (rewrite H1; apply Hbefore; lia).
      rewrite <- H2 in Hf.
      destruct (executeRaw_strict_throw _ e Hf) as (v & -> & Hv).
      exists (emit (EvError e) v). split; [reflexivity|].
      rewrite Hv, T3, T2, T1, R3, R2, R1. rewrite H2 in Hf. rewrite Hf.
      rewrite (Hbefore 0%nat), (Hbefore 1%nat) by lia. repeat split.
Qed.

Lemma strict_schema_stops_main_witness :
  exists w',
    main_strict 2 5 three_AB second_fails_world = Exited 1 lost_connection w' /\
    requests (trace w') = 2%nat /\
    logged (trace w') = [lost_connection] /\
    counted (trace w') = [] /\
    generated (trace w') = 0%nat /\
    table w' = [].
Proof.
  apply (proj2 (strict_schema_stops_main 2 5 three_AB second_fails_world)
           1%nat lost_connection).
  - lia.
  - reflexivity.
  - intros i Hi. assert (i = 0%nat) by lia. subst i. reflexivity.
Defined.

(* ===================================================================== *)
(** * The variant with progress logs *)
(* ===================================================================== *)

Lemma search_verbose_agrees (cfg : Config) (pat : string)
    (toGenerate : JsNumber) (fuel : nat) :
  forall found attempts w log,
    let v := search_verbose fuel cfg pat toGenerate found attempts w log in
    (v_out v, v_world v) = search fuel cfg pat toGenerate found w /\
    (v_attempts v + generated (trace w)
     = attempts + generated (trace (v_world v)))%nat.
Proof.
  induction fuel as [|fuel IH]; intros found attempts w log; cbv zeta;
    cbn [search_verbose search];
    destruct (js_lt (js_of_nat found) toGenerate);
    try (cbn [v_out v_world v_attempts]; split; [reflexivity|lia]).
  unfold generate.
  set (pub := kp_pub (keygen w 0%nat)).
  set (w1 := mkWorld (table w) (tail_of (keygen w)) (entropy w) (uuids w)
                     (faults w) (EvGenerate pub :: trace w)).
  assert (Hgen : generated (trace w1) = S (generated (trace w))) by reflexivity.
  destruct (matches pub pat).
  - destruct (seal cfg (keygen w 0%nat) w1) as [[enc|e] w2] eqn:Hseal.
    + assert (Hw2 : generated (trace w2) = generated (trace w1)).
      { unfold seal in Hseal.
        destruct (encryptSecret _ _ _) as [[b|e] rng];
          injection Hseal as _ <-; reflexivity. }
      unfold randomUUID.
      match goal with
      | |- context [create ?r ?w3] =>
          assert (Hw4 : generated (trace (snd (create r w3)))
                        = generated (trace w2));
          [unfold create, request, emit;
           cbn [table keygen entropy uuids faults trace];
           destruct (faults w2 0%nat); [reflexivity|];
           match goal with
           | |- context [conflicts ?a ?b] => destruct (conflicts a b)
           end; reflexivity
          |destruct (create r w3) as [[u|e] w4]]
      end; cbn [snd] in Hw4.
      * match goal with
        | |- context [search_verbose fuel cfg pat toGenerate ?f ?a w4 ?l] =>
            destruct (IH f a w4 l) as [H1 H2]
        end.
        split; [exact H1|]. lia.
      * destruct (not_P2002 e).
        -- cbn [v_out v_world v_attempts]. split; [reflexivity|]. lia.
        -- match goal with
           | |- context [search_verbose fuel cfg pat toGenerate ?f ?a w4 ?l] =>
               destruct (IH f a w4 l) as [H1 H2]
           end.
           split; [exact H1|]. lia.
    + assert (Hw2 : generated (trace w2) = generated (trace w1)).
      { unfold seal in Hseal.
        destruct (encryptSecret _ _ _) as [[b|e'] rng];
          injection Hseal as _ <-; reflexivity. }
      cbn [v_out v_world v_attempts]. split; [reflexivity|]. lia.
  - match goal with
    | |- context [search_verbose fuel cfg pat toGenerate ?f ?a w1 ?l] =>
        destruct (IH f a w1 l) as [H1 H2]
    end.
    split; [exact H1|]. lia.
Qed.

(** X14. The variant with progress logs does to the world exactly what
    worker.ts does: for every configuration, pattern and state its fill ends
    with the same outcome in the same state, table included. Its attempt
    counter is the number of keypairs the fill has generated. *)
Theorem verbose_fill_agrees (fuel : nat) (cfg : Config) (pat : string)
    (w : World) :
  let v := ensureBuffer_verbose fuel cfg pat w in
  (v_out v, v_world v) = ensureBuffer fuel cfg pat w /\
  (v_attempts v + generated (trace w) = generated (trace (v_world v)))%nat.
Proof.
  cbv zeta. unfold ensureBuffer_verbose, ensureBuffer, count, request, emit.
  cbn [table keygen entropy uuids faults trace].
  destruct (faults w 0%nat); [split; reflexivity|].
  destruct (js_ge _ _); [split; reflexivity|].
  match goal with
  | |- context [search_verbose fuel cfg pat ?tg 0 0 ?w1 ?l] =>
      destruct (search_verbose_agrees cfg pat tg fuel 0%nat 0%nat w1 l)
        as [H1 H2]
  end.
  split; [exact H1|]. exact H2.
Qed.

(* ===================================================================== *)
(** * Further properties of worker.ts: a full round, then an idle one *)
(* ===================================================================== *)

Lemma body_logged (cfg : Config) (pat : string) (found : nat) (w : World) :
  logged (trace (match body cfg pat found w with
                 | Continue _ w' | Abort _ w' => w'
                 end)) = logged (trace w).
Proof.
  unfold body, generate.
  destruct (matches (kp_pub (keygen w 0%nat)) pat); [|reflexivity].
  unfold seal. cbn [table keygen entropy uuids faults trace].
  destruct (encryptSecret _ _ _) as [[enc|e] rng]; [|reflexivity].
  unfold randomUUID, create, request, emit.
  cbn [table keygen entropy uuids faults trace].
  destruct (faults w 0%nat) as [e|].
  - destruct (not_P2002 e); reflexivity.
  - match goal with
    | |- context [conflicts ?r ?t] => destruct (conflicts r t)
    end; reflexivity.
Qed.

Lemma search_logged (cfg : Config) (pat : string) (toGenerate : JsNumber)
    (fuel : nat) :
  forall found w,
    logged (trace (snd (search fuel cfg pat toGenerate found w)))
    = logged (trace w).
Proof.
  induction fuel as [|fuel IH]; intros found w;
    destruct (js_lt (js_of_nat found) toGenerate) eqn:Hlt.
  - now rewrite search_O.
  - now rewrite search_stop.
  - rewrite search_S by exact Hlt.
    pose proof (body_logged cfg pat found w) as Hb.
    destruct (body cfg pat found w) as [found' w'|e w'].
    + now rewrite IH.
    + exact Hb.
  - now rewrite search_stop.
Qed.

Lemma ensureBuffer_logged (cfg : Config) (fuel : nat) (pat : string) (w : World) :
  logged (trace (snd (ensureBuffer fuel cfg pat w))) = logged (trace w).
Proof.
  unfold ensureBuffer, count, request, emit.
  cbn [table keygen entropy uuids faults trace].
  destruct (faults w 0%nat); [reflexivity|].
  destruct (js_ge _ _); [reflexivity|].
  now rewrite search_logged.
Qed.

(** The log of caught errors only grows. *)
Lemma for_targets_logged (cfg : Config) (fuel : nat) (ps : list string) :
  forall w w', for_targets fuel cfg ps w = Some w' ->
               exists more, logged (trace w') = more ++ logged (trace w).
Proof.
  induction ps as [|p ps IH]; intros w w' H; cbn [for_targets] in H.
  - injection H as <-. now exists [].
  - pose proof (ensureBuffer_logged cfg fuel p w) as Hl.
    destruct (ensureBuffer fuel cfg p w) as [[| e |] w1]; cbn [snd] in Hl;
      [| |discriminate]; destruct (IH _ _ H) as (more & Hm).
    + exists more. now rewrite Hm, Hl.
    + exists (more ++ [e]). rewrite Hm. cbn [emit trace logged flat_map app].
      fold (logged (trace w1)). rewrite Hl, <- app_assoc. reflexivity.
Qed.

Lemma countReady_grows (pat : string) (rows more : list Row) :
  (countReady pat rows <= countReady pat (rows ++ more))%nat.
Proof. unfold countReady. rewrite filter_app, length_app. lia. Qed.

(** A fill that returns leaves the pattern with a full buffer. *)
Lemma ensureBuffer_returned_full (cfg : Config) (fuel : nat) (pat : string)
    (w w' : World) (n : Z) :
  MIN_BUFFER cfg = Finite (inject_Z n) ->
  ensureBuffer fuel cfg pat w = (Returned, w') ->
  (n <= Z.of_nat (countReady pat (table w')))%Z.
Proof.
  intros Hmin H. unfold ensureBuffer, count, request, emit in H.
  cbn [table keygen entropy uuids faults trace] in H.
  destruct (faults w 0%nat); [discriminate|].
  rewrite Hmin in H. unfold js_of_nat at 1 in H. rewrite js_ge_int in H.
  destruct (n <=? Z.of_nat (countReady pat (table w)))%Z eqn:Hle.
  - apply Z.leb_le in Hle. now injection H as <-.
  - apply Z.leb_gt in Hle. rewrite toGenerate_int in H by exact Hle.
    apply search_returned in H; [|lia].
    destruct H as (new & Ht & Hall & Hk). cbn [table] in Ht.
    rewrite Ht, countReady_app by exact Hall. lia.
Qed.

Lemma round_without_errors_fills (cfg : Config) (fuel : nat) (n : Z)
    (ps : list string) :
  MIN_BUFFER cfg = Finite (inject_Z n) ->
  forall w w',
    for_targets fuel cfg ps w = Some w' ->
    logged (trace w') = logged (trace w) ->
    forall p, In p ps -> (n <= Z.of_nat (countReady p (table w')))%Z.
Proof.
  intros Hmin. induction ps as [|p ps IH]; intros w w' H Hlog q Hq;
    [destruct Hq|].
  cbn [for_targets] in H.
  pose proof (ensureBuffer_logged cfg fuel p w) as Hl.
  destruct (ensureBuffer fuel cfg p w) as [[| e |] w1] eqn:Hfill;
    cbn [snd] in Hl; [| |discriminate].
  - assert (Hlog1 : logged (trace w') = logged (trace w1)) by congruence.
    destruct Hq as [<-|Hq]; [|now apply (IH w1 w')].
    pose proof (ensureBuffer_returned_full cfg fuel p w w1 n Hmin Hfill) as Hfull.
    destruct (for_targets_grown cfg fuel ps ps (fun _ h => h) _ _ H)
      as (new & k & Ht & _).
    rewrite Ht. pose proof (countReady_grows p (table w1) new). lia.
  - exfalso. destruct (for_targets_logged _ _ _ _ _ H) as (more & Hm).
    cbn [emit trace logged flat_map app] in Hm.
    fold (logged (trace w1)) in Hm. rewrite Hl, Hlog in Hm.
    apply (f_equal (@List.length JsError)) in Hm.
    rewrite length_app in Hm. cbn [List.length] in Hm. lia.
Qed.

Lemma idle_round (cfg : Config) (fuel : nat) (n : Z) (ps : list string) :
  MIN_BUFFER cfg = Finite (inject_Z n) ->
  forall w,
    store_serves w ->
    (forall p, In p ps -> (n <= Z.of_nat (countReady p (table w)))%Z) ->
    exists w',
      for_targets fuel cfg ps w = Some w' /\
      table w' = table w /\ keygen w' = keygen w /\
      generated (trace w') = generated (trace w) /\
      logged (trace w') = logged (trace w) /\
      counted (trace w') = rev ps ++ counted (trace w).
Proof.
  intros Hmin. induction ps as [|p ps IH]; intros w Hs Hfull.
  - exists w. cbn [for_targets rev app]. auto 10.
  - cbn [for_targets].
    rewrite (ensureBuffer_full fuel cfg p w n Hmin (Hs 0%nat))
      by (apply Hfull; now left).
    match goal with
    | |- context [for_targets fuel cfg ps ?w1] =>
        destruct (IH w1) as (w' & Hw' & Ht & Hk & Hg & Hl & Hc)
    end.
    + intros i. apply (Hs (S i)).
    + intros q Hq. cbn [table]. apply Hfull. now right.
    + exists w'. split; [exact Hw'|].
      cbn [table keygen trace] in *.
      split; [exact Ht|]. split; [exact Hk|]. split; [exact Hg|].
      split; [exact Hl|].
      rewrite Hc. cbn [counted flat_map app rev].
      now rewrite <- app_assoc.
Qed.

(** X15. Let MIN_BUFFER be an integer. After a round over all the patterns
    in which no fill threw, every pattern has at least MIN_BUFFER ready
    rows, whatever the other fills appended; and if the store serves, the
    next round only counts: it completes, generates no keypair, logs no
    error and leaves the table as it is. *)
Theorem full_round_then_idle (cfg : Config) (fuel fuel2 : nat) (n : Z)
    (w w1 : World) :
  MIN_BUFFER cfg = Finite (inject_Z n) ->
  for_targets fuel cfg (TARGETS cfg) w = Some w1 ->
  logged (trace w1) = logged (trace w) ->
  (forall p, In p (TARGETS cfg) ->
             (n <= Z.of_nat (countReady p (table w1)))%Z) /\
  (store_serves w1 ->
   exists w2,
     for_targets fuel2 cfg (TARGETS cfg) w1 = Some w2 /\
     table w2 = table w1 /\
     generated (trace w2) = generated (trace w1) /\
     logged (trace w2) = logged (trace w1) /\
     counted (trace w2) = rev (TARGETS cfg) ++ counted (trace w1)).
Proof.
  intros Hmin Hround Hlog.
  pose proof (round_without_errors_fills cfg fuel n (TARGETS cfg) Hmin
                w w1 Hround Hlog) as Hfull.
  split; [exact Hfull|].
  intros Hs.
  destruct (idle_round cfg fuel2 n (TARGETS cfg) Hmin w1 Hs Hfull)
    as (w2 & H2 & Ht & _ & Hg & Hl & Hc).
  exists w2. auto 10.
Qed.

Lemma full_round_then_idle_witness :
  (forall p, In p (TARGETS two_patterns) ->
             (1 <= Z.of_nat (countReady p (table after_round)))%Z) /\
  exists w2,
    for_targets 0 two_patterns (TARGETS two_patterns) after_round = Some w2 /\
    table w2 = table after_round /\
    generated (trace w2) = generated (trace after_round) /\
    logged (trace w2) = logged (trace after_round) /\
    counted (trace w2)
    = rev (TARGETS two_patterns) ++ counted (trace after_round).
Proof.
  assert (Hround : for_targets 3 two_patterns (TARGETS two_patterns)
                     fresh_world = Some after_round).
  { unfold after_round.
    destruct (for_targets 3 two_patterns (TARGETS two_patterns) fresh_world)
      eqn:H; [reflexivity|]. still_none H. }
  assert (Hlog : logged (trace after_round) = logged (trace fresh_world))
    by (vm_compute; reflexivity).
  assert (Hserves : store_serves after_round)
    by (intros i; vm_compute; reflexivity).
  destruct (full_round_then_idle two_patterns 3 0 1 fresh_world after_round
              eq_refl Hround Hlog) as [Hfull Hidle].
  split; [exact Hfull|exact (Hidle Hserves)].
Defined.

(* ===================================================================== *)
(** * Base-58 text *)
(* ===================================================================== *)

Section Base58Facts.

Lemma digit_in_alphabet (d : N) : In (Base58.digit d) Base58.alphabet.
Proof.
  unfold Base58.digit.
  destruct (nth_in_or_default (N.to_nat d) Base58.alphabet "1"%char) as [H| ->].
  - exact H.
  - now left.
Qed.

Lemma digits_in_alphabet (fuel : nat) :
  forall n acc,
    Forall (fun c => In c Base58.alphabet) acc ->
    Forall (fun c => In c Base58.alphabet) (Base58.digits fuel n acc).
Proof.
  induction fuel as [|fuel IH]; intros n acc Hacc; cbn [Base58.digits].
  - exact Hacc.
  - destruct (n =? 0); [exact Hacc|].
    apply IH. constructor; [apply digit_in_alphabet|exact Hacc].
Qed.

Lemma list_ascii_of_string_of_list (l : list ascii) :
  list_ascii_of_string (string_of_list_ascii l) = l.
Proof. induction l as [|c l IH]; cbn; [reflexivity|now rewrite IH]. Qed.

(** Whatever the bytes, their base-58 text is over the alphabet. *)
Lemma encode_base58 (l : list byte) : base58_text (Base58.encode l).
Proof.
  unfold base58_text, Base58.encode. rewrite list_ascii_of_string_of_list.
  apply Forall_app. split.
  - apply Forall_forall. intros c Hc. apply repeat_spec in Hc. subst c. now left.
  - apply digits_in_alphabet. constructor.
Qed.

Lemma list_ascii_of_append (a b : string) :
  list_ascii_of_string (a ++ b)%string
  = list_ascii_of_string a ++ list_ascii_of_string b.
Proof. induction a as [|c a IH]; cbn; [reflexivity|now rewrite IH]. Qed.

Lemma is_base58_spec (s : string) : is_base58 s = true <-> base58_text s.
Proof.
  unfold is_base58, base58_text. rewrite forallb_forall, Forall_forall.
  split; intros H c Hc; specialize (H c Hc).
  - apply existsb_exists in H as (a & Ha & Heq).
    apply Ascii.eqb_eq in Heq. now subst.
  - apply existsb_exists. exists c. split; [exact H|apply Ascii.eqb_refl].
Qed.

(** A pattern that some base-58 text ends with is base-58 text itself. *)
Lemma matched_is_base58 (l : list byte) (pat : string) :
  matches (Base58.encode l) pat = true -> base58_text pat.
Proof.
  intros H. apply endsWith_suffix in H as (pre & Hpre).
  pose proof (encode_base58 l) as Hb. unfold base58_text in *.
  rewrite Hpre, list_ascii_of_append in Hb.
  now apply Forall_app in Hb.
Qed.

Lemma never_matches (pat : string) :
  is_base58 pat = false -> forall kp, matches (kp_pub kp) pat = false.
Proof.
  intros Hno kp. destruct (matches (kp_pub kp) pat) eqn:Hm; [|reflexivity].
  apply matched_is_base58, is_base58_spec in Hm. congruence.
Qed.

End Base58Facts.

(* ===================================================================== *)
(** * Passes that find no match *)
(* ===================================================================== *)

Lemma skip_fields (k : nat) :
  forall w,
    table (skip k w) = table w /\ entropy (skip k w) = entropy w /\
    uuids (skip k w) = uuids w /\ faults (skip k w) = faults w /\
    (forall i, keygen (skip k w) i = keygen w (k + i)%nat) /\
    trace (skip k w)
    = rev (map (fun i => EvGenerate (kp_pub (keygen w i))) (seq 0 k)) ++ trace w.
Proof.
  induction k as [|k IH]; intros w; cbn [skip].
  - repeat split.
  - destruct (IH (snd (generate w))) as (Ht & He & Hu & Hf & Hk & Hr).
    rewrite Ht, He, Hu, Hf, Hr. unfold generate.
    cbn [snd table entropy uuids faults keygen trace].
    split; [reflexivity|]. split; [reflexivity|]. split; [reflexivity|].
    split; [reflexivity|]. split.
    + intros i. rewrite Hk. unfold generate. cbn [snd keygen].
      unfold tail_of. reflexivity.
    + cbn [seq map rev]. rewrite <- seq_shift, map_map.
      unfold tail_of. rewrite <- app_assoc. reflexivity.
Qed.

Lemma skip_succ (k : nat) :
  forall w, snd (generate (skip k w)) = skip (S k) w.
Proof.
  induction k as [|k IH]; intros w; [reflexivity|].
  change (skip (S k) w) with (skip k (snd (generate w))).
  rewrite IH. reflexivity.
Qed.

Lemma body_miss (cfg : Config) (pat : string) (found : nat) (w : World) :
  matches (kp_pub (keygen w 0%nat)) pat = false ->
  body cfg pat found w = Continue found (snd (generate w)).
Proof. intros H. unfold body, generate. cbn [snd]. now rewrite H. Qed.

(** The loop passes over candidates that do not match. *)
Lemma search_skip (cfg : Config) (pat : string) (toGenerate : JsNumber)
    (found : nat) (k : nat) :
  js_lt (js_of_nat found) toGenerate = true ->
  forall fuel w,
    (forall i, (i < k)%nat -> matches (kp_pub (keygen w i)) pat = false) ->
    search (k + fuel) cfg pat toGenerate found w
    = search fuel cfg pat toGenerate found (skip k w).
Proof.
  intros Hlt. induction k as [|k IH]; intros fuel w Hmiss; [reflexivity|].
  cbn [Nat.add skip]. rewrite search_S by exact Hlt.
  rewrite body_miss by (apply Hmiss; lia).
  apply IH. intros i Hi. unfold generate. cbn [snd keygen]. unfold tail_of.
  apply Hmiss. lia.
Qed.

Lemma search_no_match (cfg : Config) (pat : string) (toGenerate : JsNumber)
    (found : nat) (fuel : nat) (w : World) :
  js_lt (js_of_nat found) toGenerate = true ->
  (forall i, (i < fuel)%nat -> matches (kp_pub (keygen w i)) pat = false) ->
  search fuel cfg pat toGenerate found w = (Running, skip fuel w).
Proof.
  intros Hlt Hmiss.
  rewrite <- (Nat.add_0_r fuel) at 1.
  rewrite (search_skip cfg pat toGenerate found fuel Hlt 0%nat w Hmiss).
  now apply search_O.
Qed.

(* ===================================================================== *)
(** * A pass under a usable key and a store that serves *)
(* ===================================================================== *)

(** Under a usable key, a store that serves and fresh ids, a pass stores the
    candidate exactly when it matches and its publicKey is new. *)
Lemma body_serves (cfg : Config) (pat : string) (found : nat) (w : World) :
  key_ok (VANITY_ENCRYPTION_KEY cfg) -> store_serves w -> fresh_uuids w ->
  let pub := kp_pub (keygen w 0%nat) in
  let hit := matches pub pat && negb (existsb (String.eqb pub) (pubs (table w))) in
  exists w',
    body cfg pat found w = Continue (if hit then S found else found) w' /\
    store_serves w' /\ fresh_uuids w' /\
    keygen w' = tail_of (keygen w) /\
    pubs (table w') = (if hit then pubs (table w) ++ [pub] else pubs (table w)).
Proof.
  intros Hkey Hs Hu pub hit. unfold hit.
  destruct (matches pub pat) eqn:Hm.
  - destruct (seal_ok cfg (keygen w 0%nat) (snd (generate w)) Hkey)
      as (enc & rng & Hseal).
    unfold generate in Hseal.
    cbn [snd table keygen entropy uuids faults trace] in Hseal.
    fold pub in Hseal.
    unfold body, generate. fold pub. rewrite Hm, Hseal.
    unfold randomUUID, create, request, emit.
    cbn [table keygen entropy uuids faults trace]. rewrite (Hs 0%nat).
    destruct Hu as [Hu1 Hu2].
    destruct (existsb (String.eqb pub) (pubs (table w))) eqn:Hseen;
      cbn [andb negb].
    + rewrite conflicts_pub by (now apply seen_spec).
      cbn [not_P2002 error_code String.eqb Ascii.eqb Bool.eqb negb].
      eexists. split; [reflexivity|]. cbn [table keygen uuids faults].
      split; [intros i; apply (Hs (S i))|].
      split; [|split; reflexivity].
      split; cbn [table uuids]; unfold tail_of;
        [intros i; apply Hu1|intros i j H; apply Hu2 in H; lia].
    + rewrite conflicts_fresh.
      * eexists. split; [reflexivity|]. cbn [table keygen uuids faults].
        split; [intros i; apply (Hs (S i))|].
        split; [|split; [reflexivity|]].
        -- split; cbn [table uuids]; unfold tail_of.
           ++ intros i. rewrite map_app. cbn [map id]. intros Hin.
              apply in_app_or in Hin as [Hin|[Hin|[]]].
              ** now apply (Hu1 (S i)).
              ** apply Hu2 in Hin. lia.
           ++ intros i j H. apply Hu2 in H. lia.
        -- unfold pubs. rewrite map_app. reflexivity.
      * cbn [publicKey]. intros Hin. apply seen_spec in Hin. congruence.
      * cbn [id]. apply Hu1.
  - cbn [andb]. unfold body, generate. fold pub. rewrite Hm.
    eexists. split; [reflexivity|]. cbn [table keygen uuids faults].
    split; [exact Hs|]. split; [exact Hu|]. split; reflexivity.
Qed.

(** With too few fresh matching candidates among the next [n], the loop is
    still searching after [n] passes. *)
Lemma search_short (cfg : Config) (pat : string) (k : Z) :
  key_ok (VANITY_ENCRYPTION_KEY cfg) ->
  forall n found w,
    store_serves w -> fresh_uuids w ->
    (Z.of_nat (fresh_hits pat (pubs (table w)) n (keygen w))
     < k - Z.of_nat found)%Z ->
    exists w', search n cfg pat (Finite (inject_Z k)) found w = (Running, w').
Proof.
  intros Hkey. induction n as [|n IH]; intros found w Hs Hu Hhits;
    assert (Hlt : js_lt (js_of_nat found) (Finite (inject_Z k)) = true)
      by (unfold js_of_nat; rewrite js_lt_int; apply Z.ltb_lt; lia).
  - exists w. now apply search_O.
  - rewrite search_S by exact Hlt.
    destruct (body_serves cfg pat found w Hkey Hs Hu)
      as (w' & Hb & Hs' & Hu' & Hk' & Hp').
    rewrite Hb. cbn [fresh_hits] in Hhits.
    destruct (matches _ pat && negb _).
    + apply IH; [exact Hs'|exact Hu'|]. rewrite Hk', Hp'. lia.
    + apply IH; [exact Hs'|exact Hu'|]. rewrite Hk', Hp'. exact Hhits.
Qed.

Lemma writes_skipped (l : list nat) (kg : nat -> Keypair) (t : list Event) :
  writes (rev (map (fun i => EvGenerate (kp_pub (kg i))) l) ++ t) = writes t.
Proof.
  unfold writes. rewrite filter_app.
  replace (filter _ (rev _)) with (@nil Event); [reflexivity|].
  symmetry. induction l as [|i l IH]; [reflexivity|].
  cbn [map rev]. rewrite filter_app, IH. reflexivity.
Qed.

Lemma generated_skipped (l : list nat) (kg : nat -> Keypair) (t : list Event) :
  generated (rev (map (fun i => EvGenerate (kp_pub (kg i))) l) ++ t)
  = (List.length l + generated t)%nat.
Proof.
  unfold generated. rewrite filter_app, length_app. f_equal.
  induction l as [|i l IH]; [reflexivity|].
  cbn [map rev List.length]. rewrite filter_app, length_app, IH.
  cbn [filter List.length]. lia.
Qed.

(** A fill that finds the buffer short and meets no matching candidate. *)
Lemma ensureBuffer_no_match (cfg : Config) (fuel : nat) (pat : string)
    (w : World) (n : Z) :
  MIN_BUFFER cfg = Finite (inject_Z n) ->
  faults w 0%nat = None ->
  (Z.of_nat (countReady pat (table w)) < n)%Z ->
  (forall i, (i < fuel)%nat -> matches (kp_pub (keygen w i)) pat = false) ->
  exists w',
    ensureBuffer fuel cfg pat w = (Running, w') /\
    table w' = table w /\ writes (trace w') = writes (trace w) /\
    generated (trace w') = (fuel + generated (trace w))%nat.
Proof.
  intros Hmin Hf Hlt Hmiss. unfold ensureBuffer, count, request, emit.
  cbn [table keygen entropy uuids faults trace].
  rewrite Hf, Hmin. unfold js_of_nat at 1. rewrite js_ge_int.
  replace (n <=? Z.of_nat (countReady pat (table w)))%Z with false
    by (symmetry; apply Z.leb_gt; exact Hlt).
  rewrite toGenerate_int by exact Hlt.
  rewrite search_no_match;
    [|unfold js_of_nat; rewrite js_lt_int; apply Z.ltb_lt; cbn; lia
     |exact Hmiss].
  eexists. split; [reflexivity|].
  match goal with
  | |- context [skip fuel ?w1] =>
      destruct (skip_fields fuel w1) as (Ht & _ & _ & _ & _ & Hr)
  end.
  rewrite Ht, Hr. cbn [table keygen trace].
  split; [reflexivity|].
  rewrite writes_skipped, generated_skipped, length_seq.
  split; reflexivity.
Qed.

(** C7 (amended). Let MIN_BUFFER be an integer [n] and [r] the ready count
    of the pattern. A fill that returns has appended exactly max(0, n - r)
    rows, each 'ready', of the pattern and with a publicKey that ends with
    it, and the ready count is then at least [n]; with [r >= n] it has only
    counted, and so does the next fill after one that returned. A fill need
    not return. Under a usable key, a store that serves and fresh ids it has
    returned after [N] passes exactly when at least [n - r] of the next [N]
    candidates match the pattern with a publicKey not met before. For a
    pattern with a character outside the base-58 alphabet no candidate ever
    matches: a fill that finds the buffer short searches for ever and
    writes nothing. *)
Theorem ensureBuffer_fills (cfg : Config) (pat : string) (w : World) (n : Z) :
  MIN_BUFFER cfg = Finite (inject_Z n) ->
  let r := countReady pat (table w) in
  (forall fuel w',
     ensureBuffer fuel cfg pat w = (Returned, w') ->
     exists new,
       table w' = table w ++ new /\
       Z.of_nat (List.length new) = Z.max 0 (n - Z.of_nat r) /\
       Forall (fun row => status row = "ready"%string /\ pattern row = pat /\
                          exists pre, publicKey row = (pre ++ pat)%string) new /\
       (n <= Z.of_nat (countReady pat (table w')))%Z /\
       ((n <= Z.of_nat r)%Z ->
        table w' = table w /\ trace w' = EvCount pat :: trace w) /\
       (forall fuel2,
          faults w' 0%nat = None ->
          exists w'',
            ensureBuffer fuel2 cfg pat w' = (Returned, w'') /\
            table w'' = table w' /\ trace w'' = EvCount pat :: trace w')) /\
  (key_ok (VANITY_ENCRYPTION_KEY cfg) -> store_serves w -> fresh_uuids w ->
   forall fuel,
     (exists w', ensureBuffer fuel cfg pat w = (Returned, w')) <->
     (n - Z.of_nat r
      <= Z.of_nat (fresh_hits pat (pubs (table w)) fuel (keygen w)))%Z) /\
  (is_base58 pat = false -> faults w 0%nat = None -> (Z.of_nat r < n)%Z ->
   forall fuel,
     exists w',
       ensureBuffer fuel cfg pat w = (Running, w') /\
       table w' = table w /\ writes (trace w') = writes (trace w) /\
       generated (trace w') = (fuel + generated (trace w))%nat).
Proof.
  intros Hmin r. split; [|split].
  - intros fuel w' H.
    assert (Hnext : forall new,
              table w' = table w ++ new ->
              (n <= Z.of_nat (countReady pat (table w')))%Z ->
              forall fuel2, faults w' 0%nat = None ->
                exists w'',
                  ensureBuffer fuel2 cfg pat w' = (Returned, w'') /\
                  table w'' = table w' /\ trace w'' = EvCount pat :: trace w').
    { intros new _ Hge fuel2 Hf. eexists. split;
        [apply (ensureBuffer_full fuel2 cfg pat w' n Hmin Hf Hge)|].
      split; reflexivity. }
    unfold ensureBuffer, count, request, emit in H.
    cbn [table keygen entropy uuids faults trace] in H.
    destruct (faults w 0%nat); [discriminate|].
    rewrite Hmin in H. unfold js_of_nat at 1 in H. rewrite js_ge_int in H.
    fold r in H.
    destruct (n <=? Z.of_nat r)%Z eqn:Hle.
    + apply Z.leb_le in Hle. injection H as <-.
      exists []. cbn [table trace]. rewrite app_nil_r.
      split; [reflexivity|]. split; [cbn [List.length]; lia|].
      split; [constructor|]. split; [exact Hle|]. split; [auto|].
      apply (Hnext []); cbn [table]; [now rewrite app_nil_r|exact Hle].
    + apply Z.leb_gt in Hle.
      rewrite toGenerate_int in H by exact Hle.
      apply search_returned in H; [|lia].
      destruct H as (new & Ht & Hall & Hk). cbn [table] in Ht.
      assert (Hcount : (n <= Z.of_nat (countReady pat (table w')))%Z).
      { rewrite Ht, countReady_app by exact Hall. fold r. lia. }
      exists new. split; [exact Ht|]. split; [lia|]. split.
      { eapply Forall_impl; [|exact Hall].
        intros row (Hs & Hp & _ & Hm). repeat split; auto.
        now apply endsWith_suffix. }
      split; [exact Hcount|]. split; [lia|].
      now apply (Hnext new).
  - intros Hkey Hs Hu fuel.
    unfold ensureBuffer, count, request, emit.
    cbn [table keygen entropy uuids faults trace].
    rewrite (Hs 0%nat), Hmin. unfold js_of_nat at 1. rewrite js_ge_int.
    fold r.
    destruct (n <=? Z.of_nat r)%Z eqn:Hle.
    { apply Z.leb_le in Hle. split; [intros _; lia|eauto]. }
    apply Z.leb_gt in Hle. rewrite toGenerate_int by exact Hle.
    set (w1 := mkWorld _ _ _ _ _ _).
    assert (Hs1 : store_serves w1) by (intros i; apply (Hs (S i))).
    assert (Hu1 : fresh_uuids w1) by exact Hu.
    split.
    + intros (w' & Hret).
      destruct (Z_lt_le_dec
                  (Z.of_nat (fresh_hits pat (pubs (table w)) fuel (keygen w)))
                  (n - Z.of_nat r)) as [Hshort|Hok]; [|exact Hok].
      destruct (search_short cfg pat (n - Z.of_nat r) Hkey fuel 0%nat w1 Hs1 Hu1)
        as (w'' & Hrun); [unfold w1; cbn [table keygen Z.of_nat]; lia|].
      rewrite Hrun in Hret. discriminate.
    + intros Hhits.
      apply (search_terminates cfg pat (n - Z.of_nat r) Hkey); [exact Hs1|exact Hu1|].
      unfold w1. cbn [table keygen Z.of_nat]. lia.
  - intros Hno Hf Hlt fuel.
    apply (ensureBuffer_no_match cfg fuel pat w n Hmin Hf Hlt).
    intros i _. now apply never_matches.
Qed.

(** The spec's scenario: with MIN_BUFFER 3, no row and the pattern "AB", the
    fill has returned after five candidates, of which three end with "AB". *)
Lemma ensureBuffer_fills_witness :
  exists w',
    ensureBuffer 5 three_AB "AB" fresh_world = (Returned, w') /\
    exists new,
      table w' = new /\ Z.of_nat (List.length new) = 3%Z /\
      Forall (fun row => status row = "ready"%string /\
                         pattern row = "AB"%string /\
                         exists pre, publicKey row = (pre ++ "AB")%string) new /\
      (3 <= Z.of_nat (countReady "AB" (table w')))%Z.
Proof.
  destruct (ensureBuffer_fills three_AB "AB" fresh_world 3 eq_refl)
    as (Hret & Hterm & _).
  destruct (proj2 (Hterm passphrase_key_ok
                     (fun i => eq_refl)
                     (conj (fun i (H : In _ []) => H) tally_injective) 5%nat))
    as (w' & Hw').
  - vm_compute. discriminate.
  - exists w'. split; [exact Hw'|].
    destruct (Hret _ _ Hw') as (new & Ht & Hlen & Hall & Hcount & _).
    exists new. repeat split; assumption.
Defined.

(** C7 as stated fails for the first of the default patterns: whatever
    keypairs are generated and however long the fill runs, no publicKey
    ends with "SNOW", so from an empty pool the fill for "SNOW" has not
    returned and has stored none of the five rows. *)
Lemma SNOW_is_never_filled :
  MIN_BUFFER default_config = Finite (inject_Z 5) /\
  TARGETS default_config = ["SNOW"%string; "SB"%string] /\
  forall (kg : nat -> Keypair) (fuel : nat),
    exists w',
      ensureBuffer fuel default_config "SNOW"
        (mkWorld [] kg counting_rng tally (fun _ => None) [])
      = (Running, w') /\
      table w' = [].
Proof.
  split; [reflexivity|]. split; [reflexivity|]. intros kg fuel.
  destruct (ensureBuffer_no_match default_config fuel "SNOW"
              (mkWorld [] kg counting_rng tally (fun _ => None) []) 5
              eq_refl eq_refl) as (w' & Hw' & Ht & _).
  - cbn. lia.
  - intros i _. apply never_matches. reflexivity.
  - exists w'. split; [exact Hw'|exact Ht].
Qed.

(* ===================================================================== *)
(** * Fills that end at their first matching candidate *)
(* ===================================================================== *)

(** The least matching candidate among those within reach. *)
Lemma first_match_exists (pat : string) (kg : nat -> Keypair) (fuel : nat) :
  (exists k, (k < fuel)%nat /\ matches (kp_pub (kg k)) pat = true) ->
  exists k, (k < fuel)%nat /\ first_match pat kg k.
Proof.
  intros (k & Hk & Hm). revert kg fuel Hk Hm.
  induction k as [|k IH]; intros kg fuel Hk Hm.
  - exists 0%nat. split; [exact Hk|]. split; [intros i Hi; lia|exact Hm].
  - destruct (matches (kp_pub (kg 0%nat)) pat) eqn:H0.
    + exists 0%nat. split; [lia|]. split; [intros i Hi; lia|exact H0].
    + destruct (IH (tail_of kg) (fuel - 1)%nat) as (j & Hj & Hmiss & Hhit);
        [lia|exact Hm|].
      exists (S j). split; [lia|]. split; [|exact Hhit].
      intros [|i] Hi; [exact H0|]. apply (Hmiss i). lia.
Qed.

(** A fill that finds the buffer short goes into the loop. *)
Lemma ensureBuffer_short (cfg : Config) (fuel : nat) (pat : string)
    (w : World) (n : Z) :
  MIN_BUFFER cfg = Finite (inject_Z n) ->
  faults w 0%nat = None ->
  (Z.of_nat (countReady pat (table w)) < n)%Z ->
  ensureBuffer fuel cfg pat w
  = search fuel cfg pat
      (Finite (inject_Z (n - Z.of_nat (countReady pat (table w))))) 0
      (mkWorld (table w) (keygen w) (entropy w) (uuids w) (tail_of (faults w))
               (EvCount pat :: trace w)) /\
  js_lt (js_of_nat 0)
        (Finite (inject_Z (n - Z.of_nat (countReady pat (table w))))) = true.
Proof.
  intros Hmin Hf Hlt. split.
  - unfold ensureBuffer, count, request, emit.
    cbn [table keygen entropy uuids faults trace].
    rewrite Hf, Hmin. unfold js_of_nat at 1. rewrite js_ge_int.
    replace (n <=? Z.of_nat (countReady pat (table w)))%Z with false
      by (symmetry; apply Z.leb_gt; exact Hlt).
    now rewrite toGenerate_int by exact Hlt.
  - unfold js_of_nat. rewrite js_lt_int. apply Z.ltb_lt. cbn [Z.of_nat]. lia.
Qed.

(** Without the key the loop ends at its first matching candidate, before
    which it has only generated. *)
Lemma search_no_key_first_match (cfg : Config) (pat : string)
    (toGenerate : JsNumber) (found k : nat) (w : World) :
  getKey (VANITY_ENCRYPTION_KEY cfg) = Throw KeyNotSet ->
  js_lt (js_of_nat found) toGenerate = true ->
  first_match pat (keygen w) k ->
  forall fuel,
    search fuel cfg pat toGenerate found w
    = if (fuel <=? k)%nat then (Running, skip fuel w)
      else (Thrown KeyNotSet, skip (S k) w).
Proof.
  intros Hk Hlt [Hmiss Hhit] fuel.
  destruct (fuel <=? k)%nat eqn:Hle.
  - apply Nat.leb_le in Hle. apply search_no_match; [exact Hlt|].
    intros i Hi. apply Hmiss. lia.
  - apply Nat.leb_gt in Hle.
    replace fuel with (k + S (fuel - S k))%nat by lia.
    rewrite search_skip by assumption.
    rewrite search_S by exact Hlt. rewrite body_no_key by exact Hk.
    destruct (skip_fields k w) as (_ & _ & _ & _ & Hkg & _).
    rewrite Hkg, Nat.add_0_r, Hhit, skip_succ. reflexivity.
Qed.

Lemma skip_shifts (k : nat) (w : World) (p : string) (fuel : nat) :
  matches_within fuel p (keygen w) -> matches_within fuel p (keygen (skip k w)).
Proof.
  intros H i. destruct (H (k + i)%nat) as (j & Hj & Hm).
  exists j. split; [exact Hj|].
  destruct (skip_fields k w) as (_ & _ & _ & _ & Hkg & _).
  now rewrite Hkg, Nat.add_assoc.
Qed.

(** Without the key a fill within whose reach a candidate matches comes to
    an end, and leaves the key generator further down the same stream. *)
Lemma ensureBuffer_no_key_ends (cfg : Config) (fuel : nat) (pat : string)
    (w : World) :
  getKey (VANITY_ENCRYPTION_KEY cfg) = Throw KeyNotSet ->
  (exists k, (k < fuel)%nat /\ matches (kp_pub (keygen w k)) pat = true) ->
  exists out w' j,
    ensureBuffer fuel cfg pat w = (out, w') /\ out <> Running /\
    (forall i, keygen w' i = keygen w (j + i)%nat).
Proof.
  intros Hk Hm. apply first_match_exists in Hm as (k & Hlt & Hfirst).
  unfold ensureBuffer, count, request, emit.
  cbn [table keygen entropy uuids faults trace].
  destruct (faults w 0%nat) as [e|].
  - exists (Thrown e). eexists. exists 0%nat.
    split; [reflexivity|]. split; [discriminate|reflexivity].
  - destruct (js_ge _ _).
    + exists Returned. eexists. exists 0%nat.
      split; [reflexivity|]. split; [discriminate|reflexivity].
    + match goal with
      | |- context [search fuel cfg pat ?tg 0 ?w1] =>
          destruct (js_lt (js_of_nat 0) tg) eqn:Hjs;
          [rewrite (search_no_key_first_match cfg pat tg 0 k w1 Hk Hjs Hfirst);
           destruct (skip_fields (S k) w1) as (_ & _ & _ & _ & Hkg & _)
          |rewrite (search_stop fuel cfg pat tg 0 w1 Hjs)]
      end.
      * replace (fuel <=? k)%nat with false by (symmetry; apply Nat.leb_gt; lia).
        exists (Thrown KeyNotSet). eexists. exists (S k).
        split; [reflexivity|]. split; [discriminate|exact Hkg].
      * exists Returned. eexists. exists 0%nat.
        split; [reflexivity|]. split; [discriminate|reflexivity].
Qed.

Lemma shifted_within (fuel : nat) (p : string) (kg kg' : nat -> Keypair)
    (j : nat) :
  (forall i, kg' i = kg (j + i)%nat) ->
  matches_within fuel p kg -> matches_within fuel p kg'.
Proof.
  intros Hkg H i. destruct (H (j + i)%nat) as (k & Hk & Hm).
  exists k. split; [exact Hk|]. now rewrite Hkg, Nat.add_assoc.
Qed.

(** Without the key every round comes to an end while matches keep coming. *)
Lemma for_targets_no_key_total (cfg : Config) (fuel : nat) (all : list string) :
  getKey (VANITY_ENCRYPTION_KEY cfg) = Throw KeyNotSet ->
  forall ps w,
    (forall p, In p ps -> In p all) ->
    (forall p, In p all -> matches_within fuel p (keygen w)) ->
    exists w',
      for_targets fuel cfg ps w = Some w' /\
      (forall p, In p all -> matches_within fuel p (keygen w')).
Proof.
  intros Hk. induction ps as [|p ps IH]; intros w Hsub Hw; cbn [for_targets].
  - exists w. split; [reflexivity|exact Hw].
  - destruct (ensureBuffer_no_key_ends cfg fuel p w Hk) as (out & w1 & j & He & Hout & Hkg).
    { destruct (Hw p (Hsub p (or_introl eq_refl)) 0%nat) as (k & Hlt & Hm).
      exists k. split; [exact Hlt|exact Hm]. }
    rewrite He.
    assert (Hw1 : forall q, In q all -> matches_within fuel q (keygen w1)).
    { intros q Hq. apply (shifted_within fuel q (keygen w) _ j Hkg). now apply Hw. }
    destruct out as [| e |]; [| |congruence].
    + apply IH; [intros q Hq; apply Hsub; now right|exact Hw1].
    + apply IH; [intros q Hq; apply Hsub; now right|exact Hw1].
Qed.

Lemma cycles_no_key_total (cfg : Config) (fuel : nat) :
  getKey (VANITY_ENCRYPTION_KEY cfg) = Throw KeyNotSet ->
  forall cycles w,
    (forall p, In p (TARGETS cfg) -> matches_within fuel p (keygen w)) ->
    exists w', cycles_of cycles fuel cfg w = Some w'.
Proof.
  intros Hk. induction cycles as [|c IH]; intros w Hw; cbn [cycles_of].
  - now exists w.
  - destruct (for_targets_no_key_total cfg fuel (TARGETS cfg) Hk (TARGETS cfg) w
                (fun _ h => h) Hw) as (w1 & H1 & Hw1).
    rewrite H1. now apply IH.
Qed.

Lemma logged_skipped (l : list nat) (kg : nat -> Keypair) (t : list Event) :
  logged (rev (map (fun i => EvGenerate (kp_pub (kg i))) l) ++ t) = logged t.
Proof.
  unfold logged. rewrite flat_map_app.
  replace (flat_map _ (rev _)) with (@nil JsError); [reflexivity|].
  symmetry. induction l as [|i l IH]; [reflexivity|].
  cbn [map rev]. rewrite flat_map_app, IH. reflexivity.
Qed.

(** Without the key, with a store that serves and every buffer short, every
    fill of a round throws the missing key, and the round logs it each
    time. *)
Lemma for_targets_no_key_logged (cfg : Config) (fuel : nat) (n : Z)
    (all : list string) :
  getKey (VANITY_ENCRYPTION_KEY cfg) = Throw KeyNotSet ->
  MIN_BUFFER cfg = Finite (inject_Z n) ->
  forall ps w,
    (forall p, In p ps -> In p all) ->
    (forall p, In p all -> matches_within fuel p (keygen w)) ->
    store_serves w ->
    (forall p, In p all -> (Z.of_nat (countReady p (table w)) < n)%Z) ->
    exists w',
      for_targets fuel cfg ps w = Some w' /\
      (forall p, In p all -> matches_within fuel p (keygen w')) /\
      store_serves w' /\ table w' = table w /\
      logged (trace w')
      = repeat KeyNotSet (List.length ps) ++ logged (trace w).
Proof.
  intros Hk Hmin. induction ps as [|p ps IH]; intros w Hsub Hw Hs Hr;
    cbn [for_targets].
  - exists w. auto.
  - assert (Hp : In p all) by (apply Hsub; now left).
    destruct (ensureBuffer_short cfg fuel p w n Hmin (Hs 0%nat) (Hr p Hp))
      as [-> Hjs].
    destruct (first_match_exists p (keygen w) fuel) as (k & Hlt & Hfirst).
    { destruct (Hw p Hp 0%nat) as (k & Hlt & Hm). now exists k. }
    match goal with
    | |- context [search fuel cfg p ?tg 0 ?w1] =>
        rewrite (search_no_key_first_match cfg p tg 0 k w1 Hk Hjs Hfirst)
    end.
    replace (fuel <=? k)%nat with false by (symmetry; apply Nat.leb_gt; lia).
    match goal with
    | |- context [skip (S k) ?w1] =>
        destruct (skip_fields (S k) w1) as (Ht & _ & _ & Hf & Hkg & Htr);
        destruct (IH (emit (EvError KeyNotSet) (skip (S k) w1)))
          as (w' & Hw' & Hm' & Hs' & Ht' & Hl')
    end.
    + intros q Hq. apply Hsub. now right.
    + intros q Hq. cbn [emit keygen].
      apply (shifted_within fuel q (keygen w) _ (S k)); [exact Hkg|now apply Hw].
    + intros i. cbn [emit faults]. rewrite Hf. apply (Hs (S i)).
    + intros q Hq. cbn [emit table]. rewrite Ht. now apply Hr.
    + exists w'. split; [exact Hw'|]. split; [exact Hm'|]. split; [exact Hs'|].
      cbn [emit table trace] in Ht', Hl'. rewrite Ht in Ht'.
      split; [exact Ht'|].
      rewrite Hl', Htr. cbn [logged flat_map app List.length repeat].
      fold (logged (rev (map (fun i => EvGenerate (kp_pub (keygen w i)))
                             (seq 0 (S k)))
                    ++ EvCount p :: trace w)).
      rewrite logged_skipped. cbn [trace logged flat_map app].
      fold (logged (trace w)).
      rewrite app_comm_cons, repeat_cons, <- app_assoc. reflexivity.
Qed.

Lemma cycles_no_key_logged (cfg : Config) (fuel : nat) (n : Z) :
  getKey (VANITY_ENCRYPTION_KEY cfg) = Throw KeyNotSet ->
  MIN_BUFFER cfg = Finite (inject_Z n) ->
  forall cycles w,
    (forall p, In p (TARGETS cfg) -> matches_within fuel p (keygen w)) ->
    store_serves w ->
    (forall p, In p (TARGETS cfg) -> (Z.of_nat (countReady p (table w)) < n)%Z) ->
    exists w',
      cycles_of cycles fuel cfg w = Some w' /\
      logged (trace w')
      = repeat KeyNotSet (cycles * List.length (TARGETS cfg)) ++ logged (trace w).
Proof.
  intros Hk Hmin. induction cycles as [|c IH]; intros w Hw Hs Hr;
    cbn [cycles_of].
  - exists w. auto.
  - destruct (for_targets_no_key_logged cfg fuel n (TARGETS cfg) Hk Hmin
                (TARGETS cfg) w (fun _ h => h) Hw Hs Hr)
      as (w1 & H1 & Hw1 & Hs1 & Ht1 & Hl1).
    rewrite H1.
    destruct (IH w1 Hw1 Hs1) as (w' & Hw' & Hl').
    { intros p Hp. rewrite Ht1. now apply Hr. }
    exists w'. split; [exact Hw'|].
    rewrite Hl', Hl1, app_assoc, <- repeat_app. f_equal. f_equal.
    cbn [Nat.mul]. lia.
Qed.

(** The schema statements when the store serves all three. *)
Lemma ensureSchema_quiet (w : World) :
  (forall i, (i < 3)%nat -> faults w i = None) ->
  faults (ensureSchema w) = tail_of (tail_of (tail_of (faults w))) /\
  logged (trace (ensureSchema w)) = logged (trace w).
Proof.
  intros Hs. unfold ensureSchema.
  destruct (executeRaw_step w) as (_ & _ & F1 & R1).
  destruct (executeRaw_step (executeRaw w)) as (_ & _ & F2 & R2).
  destruct (executeRaw_step (executeRaw (executeRaw w))) as (_ & _ & F3 & R3).
  split.
  - now rewrite F3, F2, F1.
  - rewrite R3, F2, F1, R2, F1, R1. unfold tail_of.
    rewrite !Hs by lia. reflexivity.
Qed.

(** C1 (amended). With VANITY_ENCRYPTION_KEY unset or empty the process does
    not stop at startup: the key is looked up only when a matching candidate
    is about to be sealed. No fill ever seals, inserts or changes the table.
    A fill that finds the buffer short generates and matches candidates up
    to the first one that matches; there sealing throws
    'VANITY_ENCRYPTION_KEY not set', which ends the fill; while none has
    matched it goes on searching. The controller catches the error and goes
    on: as long as a candidate for each pattern keeps turning up within
    reach, every round of every cycle comes to its end, each pattern is
    counted once per round, and when the store serves and the buffers are
    short the error is logged once per pattern and round. *)
Theorem absent_key_defers_failure (cfg : Config) :
  getKey (VANITY_ENCRYPTION_KEY cfg) = Throw KeyNotSet ->
  (forall fuel pat w,
     let (out, w') := ensureBuffer fuel cfg pat w in
     table w' = table w /\ writes (trace w') = writes (trace w) /\
     forall e, out = Thrown e -> e = KeyNotSet \/ faults w 0%nat = Some e) /\
  (forall pat w n k,
     MIN_BUFFER cfg = Finite (inject_Z n) ->
     faults w 0%nat = None ->
     (Z.of_nat (countReady pat (table w)) < n)%Z ->
     first_match pat (keygen w) k ->
     forall fuel,
       exists w',
         ensureBuffer fuel cfg pat w
         = (if (fuel <=? k)%nat then Running else Thrown KeyNotSet, w') /\
         trace w'
         = rev (map (fun i => EvGenerate (kp_pub (keygen w i)))
                    (seq 0 (Nat.min fuel (S k))))
           ++ EvCount pat :: trace w) /\
  (forall fuel w,
     (forall p, In p (TARGETS cfg) -> matches_within fuel p (keygen w)) ->
     forall cycles,
       exists w',
         main cycles fuel cfg w = Some w' /\
         table w' = table w /\ writes (trace w') = writes (trace w) /\
         counted (trace w')
         = rev (List.concat (repeat (TARGETS cfg) cycles)) ++ counted (trace w) /\
         (forall n,
            MIN_BUFFER cfg = Finite (inject_Z n) ->
            store_serves w ->
            (forall p, In p (TARGETS cfg) ->
                       (Z.of_nat (countReady p (table w)) < n)%Z) ->
            logged (trace w')
            = repeat KeyNotSet (cycles * List.length (TARGETS cfg))
              ++ logged (trace w))).
Proof.
  intros Hk. split; [|split].
  - intros fuel pat w. now apply ensureBuffer_no_key.
  - intros pat w n k Hmin Hf Hlt Hfirst fuel.
    destruct (ensureBuffer_short cfg fuel pat w n Hmin Hf Hlt) as [-> Hjs].
    match goal with
    | |- context [search fuel cfg pat ?tg 0 ?w1] =>
        rewrite (search_no_key_first_match cfg pat tg 0 k w1 Hk Hjs Hfirst)
    end.
    destruct (fuel <=? k)%nat eqn:Hle.
    + apply Nat.leb_le in Hle. eexists. split; [reflexivity|].
      match goal with
      | |- context [skip fuel ?w1] =>
          destruct (skip_fields fuel w1) as (_ & _ & _ & _ & _ & ->)
      end.
      replace (Nat.min fuel (S k)) with fuel by lia. reflexivity.
    + apply Nat.leb_gt in Hle. eexists. split; [reflexivity|].
      match goal with
      | |- context [skip (S k) ?w1] =>
          destruct (skip_fields (S k) w1) as (_ & _ & _ & _ & _ & ->)
      end.
      replace (Nat.min fuel (S k)) with (S k) by lia. reflexivity.
  - intros fuel w Hw cycles. unfold main.
    destruct (ensureSchema_same w) as [Ht Hkg].
    destruct (ensureSchema_no_writes w) as [_ Hwr].
    assert (Hw0 : forall p, In p (TARGETS cfg) ->
                            matches_within fuel p (keygen (ensureSchema w)))
      by (intros p Hp; rewrite Hkg; now apply Hw).
    destruct (cycles_no_key_total cfg fuel Hk cycles (ensureSchema w) Hw0)
      as (w' & Hw').
    exists w'. split; [exact Hw'|].
    assert (Hc : forall c v v', cycles_of c fuel cfg v = Some v' ->
                 table v' = table v /\ writes (trace v') = writes (trace v)).
    { induction c as [|c IH]; intros v v' Hv; cbn [cycles_of] in Hv.
      - injection Hv as <-. auto.
      - destruct (for_targets fuel cfg (TARGETS cfg) v) as [v1|] eqn:Hf;
          [|discriminate].
        apply (for_targets_no_key cfg fuel _ Hk) in Hf as [? ?].
        apply IH in Hv as [? ?]. split; congruence. }
    destruct (Hc _ _ _ Hw') as [Ht' Hwr'].
    split; [congruence|]. split; [congruence|]. split.
    + rewrite (cycles_counted _ _ _ _ _ Hw'). now rewrite ensureSchema_counted.
    + intros n Hmin Hs Hr.
      destruct (ensureSchema_quiet w (fun i _ => Hs i)) as [Hf0 Hl0].
      assert (Hs0 : store_serves (ensureSchema w))
        by (intros i; rewrite Hf0; apply Hs).
      destruct (cycles_no_key_logged cfg fuel n Hk Hmin cycles (ensureSchema w)
                  Hw0 Hs0) as (w'' & Hw'' & Hl'').
      { intros p Hp. rewrite Ht. now apply Hr. }
      rewrite Hw' in Hw''. injection Hw'' as <-. now rewrite Hl'', Hl0.
Qed.

(** In [snow_world] a candidate for "AB" and one for "SB" is always among
    the next two. *)
Lemma snow_world_matches (p : string) :
  In p ["AB"%string; "SB"%string] -> matches_within 2 p (keygen snow_world).
Proof.
  intros Hp i. unfold snow_world. cbn [keygen].
  assert (H0 : Nat.even (i + 0) = Nat.even i) by now rewrite Nat.add_0_r.
  assert (H1 : Nat.even (i + 1) = negb (Nat.even i))
    by now rewrite Nat.add_1_r, Nat.even_succ, <- Nat.negb_even.
  destruct Hp as [<-|[<-|[]]]; destruct (Nat.even i) eqn:He.
  - exists 0%nat. split; [lia|]. rewrite H0. vm_compute. reflexivity.
  - exists 1%nat. split; [lia|]. rewrite H1. vm_compute. reflexivity.
  - exists 1%nat. split; [lia|]. rewrite H1. vm_compute. reflexivity.
  - exists 0%nat. split; [lia|]. rewrite H0. vm_compute. reflexivity.
Qed.

Lemma absent_key_defers_failure_witness :
  getKey (VANITY_ENCRYPTION_KEY no_key_AB_SB) = Throw KeyNotSet /\
  exists w',
    main 2 2 no_key_AB_SB snow_world = Some w' /\
    table w' = [] /\
    counted (trace w') = ["SB"; "AB"; "SB"; "AB"]%string /\
    logged (trace w') = [KeyNotSet; KeyNotSet; KeyNotSet; KeyNotSet].
Proof.
  split; [reflexivity|].
  destruct (absent_key_defers_failure no_key_AB_SB eq_refl) as (_ & _ & H).
  destruct (H 2%nat snow_world snow_world_matches 2%nat)
    as (w' & Hmain & Ht & _ & Hc & Hl).
  exists w'. split; [exact Hmain|]. split; [exact Ht|]. split; [exact Hc|].
  apply (Hl 5%Z eq_refl (fun i => eq_refl)).
  intros p _. cbn. lia.
Defined.

(** C1 as stated fails: with the key absent nothing aborts at startup. Under
    the default patterns the worker sends its schema statements, counts
    "SNOW" and then generates and matches candidates without end; under
    patterns that public keys can end with it gets through whole cycles,
    generating and matching a candidate in every fill before the missing
    key is noticed, caught and logged. *)
Lemma absent_key_does_not_abort :
  VANITY_ENCRYPTION_KEY no_key_config = None /\
  TARGETS no_key_config = ["SNOW"%string; "SB"%string] /\
  (exists w',
     ensureBuffer 3 no_key_config "SNOW" (ensureSchema snow_world)
     = (Running, w') /\
     rev (trace w') =
       [EvRequest; EvRequest; EvRequest; EvCount "SNOW";
        EvGenerate pub_AB; EvGenerate pub_SB; EvGenerate pub_AB]) /\
  (exists w',
     main 2 2 no_key_AB_SB snow_world = Some w' /\
     rev (trace w') =
       [EvRequest; EvRequest; EvRequest;
        EvCount "AB"; EvGenerate pub_AB; EvError KeyNotSet;
        EvCount "SB"; EvGenerate pub_SB; EvError KeyNotSet;
        EvCount "AB"; EvGenerate pub_AB; EvError KeyNotSet;
        EvCount "SB"; EvGenerate pub_SB; EvError KeyNotSet]).
Proof.
  split; [reflexivity|]. split; [reflexivity|]. split.
  - exists (snd (ensureBuffer 3 no_key_config "SNOW" (ensureSchema snow_world))).
    split; vm_compute; reflexivity.
  - destruct (main 2 2 no_key_AB_SB snow_world) as [w'|] eqn:Hmain;
      [|exfalso; still_none Hmain].
    exists w'. split; [reflexivity|].
    apply (f_equal (option_map (fun v => rev (trace v)))) in Hmain.
    vm_compute in Hmain. now injection Hmain.
Qed.

(* ===================================================================== *)
(** * Fills that the store stops *)
(* ===================================================================== *)









